(** * Live update channel (client side) and compliance workflow

    A shallow embedding of the client reconnection logic of the
    dashboard: [WebSocketProvider] (components/providers.tsx) and the
    older [useWebSocket] hook (hooks/use-websocket.ts), which
    [MainLayout] still calls to feed the header badge.

    The React component state ([useState], [useRef]) is a record; the
    browser objects the callbacks close over (the sockets constructed so
    far, the pending timeouts, the query cache) are fields of the same
    record, so that a handler is a function from state to state and the
    browser is a step function firing the handlers.

    After the channel come the pages and components that show its data
    (chat, dashboard cards, alert lists, sidebar and store) and the
    smoke test script of the backend. *)

From Stdlib Require Import QArith Qminmax Qabs Qround Lqa.
From stdpp Require Import base option list gmap strings pretty.

Close Scope Q_scope.
Open Scope nat_scope.
#[local] Set Warnings "-register-all".

(** ** Host objects *)

(** *** JSON values, as [JSON.parse] returns them *)

Inductive json : Type :=
  | JNull
  | JBool (b : bool)
  | JNum (z : Z)
  | JStr (s : string)
  | JArr (items : list json)
  | JObj (fields : list (string * json)).

(** Own properties of a parsed object; [JSON.parse] keeps the last of
    duplicated keys, so [fields] lists each key once. *)
Fixpoint assoc (key : string) (fields : list (string * json)) : option json :=
  match fields with
  | [] => None
  | (k, v) :: rest => if decide (k = key) then Some v else assoc key rest
  end.

(** Outcome of evaluating a JavaScript expression that may throw. *)
Inductive Outcome (A : Type) : Type :=
  | Returned (a : A)
  | Raised.
Arguments Returned {A} a.
Arguments Raised {A}.

(** [data.type]: a [TypeError] on [null], [undefined] ([None]) when the
    value has no such property. *)
Definition get_type (data : json) : Outcome (option json) :=
  match data with
  | JNull => Raised
  | JObj fields => Returned (assoc "type" fields)
  | _ => Returned None
  end.

(** [v === "lit"] for a property value [v]. *)
Definition strict_eq (v : option json) (lit : string) : bool :=
  match v with
  | Some (JStr s) => bool_decide (s = lit)
  | _ => false
  end.

(** *** WebSocket *)

Module WebSocket.

Inductive ReadyState : Type := CONNECTING | OPEN | CLOSING | CLOSED.

#[global] Instance ReadyState_eq_dec : EqDecision ReadyState.
Proof. solve_decision. Defined.

(** A socket: its [readyState] and the frames handed to [send] while
    it was open, oldest first. *)
Record t : Type := mk { readyState : ReadyState; sent : list string }.

(** [new WebSocket(url)] *)
Definition fresh : t := mk CONNECTING [].

Definition live (k : t) : bool :=
  match readyState k with
  | OPEN | CONNECTING => true
  | _ => false
  end.

(** [ws.close()]: starts the closing handshake of a socket that is
    connecting or open, nothing otherwise. *)
Definition close (k : t) : t :=
  match readyState k with
  | CONNECTING | OPEN => mk CLOSING (sent k)
  | _ => k
  end.

(** [ws.send(text)]: [InvalidStateError] while connecting, queued when
    open, dropped when closing or closed. *)
Definition send (text : string) (k : t) : Outcome t :=
  match readyState k with
  | CONNECTING => Raised
  | OPEN => Returned (mk OPEN (sent k ++ [text]))
  | _ => Returned k
  end.

Definition set_state (r : ReadyState) (k : t) : t := mk r (sent k).

End WebSocket.

Import WebSocket(CONNECTING, OPEN, CLOSING, CLOSED).

(** *** Query cache (TanStack Query) *)

(** A query key: the array of strings handed to [useQuery]. *)
Abbreviation QueryKey := (list string).

Module QueryClient.

(** One cached query. [active]: some mounted component observes it. *)
Record Query : Type := mkQuery {
  data : option string;
  isInvalidated : bool;
  active : bool;
  fetching : bool;
}.

Definition invalidate (q : Query) : Query :=
  {| data := data q;
     isInvalidated := true;
     active := active q;
     fetching := if active q then true else fetching q |}.

(** [invalidateQueries({ queryKey })]: every query whose key starts
    with [queryKey] is marked invalidated, and refetched in the
    background when active. *)
Definition invalidateQueries (queryKey : QueryKey)
    (cache : gmap QueryKey Query) : gmap QueryKey Query :=
  map_imap (λ k q, Some (if decide (queryKey `prefix_of` k)
                         then invalidate q else q)) cache.

End QueryClient.

Import QueryClient(Query).

(** *** Timers: pending timeouts as (id, delay in ms) *)

Definition clearTimeout (id : nat) (timers : list (nat * Q)) : list (nat * Q) :=
  filter (λ t, t.1 ≠ id) timers.

(** ** WebSocketProvider (components/providers.tsx) *)

Module Provider.

Definition RECONNECT_DELAY : Q := 3000.
Definition MAX_RECONNECT_ATTEMPTS : nat := 5.

(** A socket is named by its position in [sockets], in construction
    order. [ctorThrows] says whether [new WebSocket(WS_URL)] rejects
    the configured URL. [effectActive] and [mounts] are React's own
    bookkeeping of the effect: whether its setup has run without its
    cleanup, and how many times the setup has run. *)
Record State : Type := mkState {
  isConnected : bool;
  wsRef : option nat;
  reconnectTimeoutRef : option nat;
  reconnectAttemptsRef : nat;
  isMountedRef : bool;
  sockets : list WebSocket.t;
  timers : list (nat * Q);
  nextTimer : nat;
  queryClient : gmap QueryKey Query;
  ctorThrows : bool;
  effectActive : bool;
  mounts : nat;
}.

Definition set_isConnected (b : bool) (s : State) : State :=
  mkState b (wsRef s) (reconnectTimeoutRef s) (reconnectAttemptsRef s)
    (isMountedRef s) (sockets s) (timers s) (nextTimer s) (queryClient s)
    (ctorThrows s) (effectActive s) (mounts s).

Definition set_wsRef (r : option nat) (s : State) : State :=
  mkState (isConnected s) r (reconnectTimeoutRef s) (reconnectAttemptsRef s)
    (isMountedRef s) (sockets s) (timers s) (nextTimer s) (queryClient s)
    (ctorThrows s) (effectActive s) (mounts s).

Definition set_reconnectTimeoutRef (r : option nat) (s : State) : State :=
  mkState (isConnected s) (wsRef s) r (reconnectAttemptsRef s)
    (isMountedRef s) (sockets s) (timers s) (nextTimer s) (queryClient s)
    (ctorThrows s) (effectActive s) (mounts s).

Definition set_reconnectAttemptsRef (n : nat) (s : State) : State :=
  mkState (isConnected s) (wsRef s) (reconnectTimeoutRef s) n
    (isMountedRef s) (sockets s) (timers s) (nextTimer s) (queryClient s)
    (ctorThrows s) (effectActive s) (mounts s).

Definition set_isMountedRef (b : bool) (s : State) : State :=
  mkState (isConnected s) (wsRef s) (reconnectTimeoutRef s)
    (reconnectAttemptsRef s) b (sockets s) (timers s) (nextTimer s)
    (queryClient s) (ctorThrows s) (effectActive s) (mounts s).

Definition set_sockets (l : list WebSocket.t) (s : State) : State :=
  mkState (isConnected s) (wsRef s) (reconnectTimeoutRef s)
    (reconnectAttemptsRef s) (isMountedRef s) l (timers s) (nextTimer s)
    (queryClient s) (ctorThrows s) (effectActive s) (mounts s).

Definition set_timers (l : list (nat * Q)) (next : nat) (s : State) : State :=
  mkState (isConnected s) (wsRef s) (reconnectTimeoutRef s)
    (reconnectAttemptsRef s) (isMountedRef s) (sockets s) l next
    (queryClient s) (ctorThrows s) (effectActive s) (mounts s).

Definition set_queryClient (c : gmap QueryKey Query) (s : State) : State :=
  mkState (isConnected s) (wsRef s) (reconnectTimeoutRef s)
    (reconnectAttemptsRef s) (isMountedRef s) (sockets s) (timers s)
    (nextTimer s) c (ctorThrows s) (effectActive s) (mounts s).

Definition set_effect (active : bool) (n : nat) (s : State) : State :=
  mkState (isConnected s) (wsRef s) (reconnectTimeoutRef s)
    (reconnectAttemptsRef s) (isMountedRef s) (sockets s) (timers s)
    (nextTimer s) (queryClient s) (ctorThrows s) active n.

(** [wsRef.current?.readyState] *)
Definition tracked_readyState (s : State) : option WebSocket.ReadyState :=
  ws ← wsRef s; k ← sockets s !! ws; Some (WebSocket.readyState k).

(** [ws.close()] and [ws.send(text)] on the socket named [ws]. *)
Definition close_socket (ws : nat) (s : State) : State :=
  set_sockets (alter WebSocket.close ws (sockets s)) s.

Definition socket_send (ws : nat) (text : string) (s : State) : Outcome State :=
  match sockets s !! ws with
  | Some k =>
      match WebSocket.send text k with
      | Returned k' => Returned (set_sockets (<[ws := k']> (sockets s)) s)
      | Raised => Raised
      end
  | None => Returned s
  end.

(** [setTimeout(callback, delay)] storing the id in
    [reconnectTimeoutRef]; browser timer ids are positive, hence
    truthy. *)
Definition schedule_reconnect (delay : Q) (s : State) : State :=
  set_reconnectTimeoutRef (Some (nextTimer s))
    (set_timers (timers s ++ [(nextTimer s, delay)]) (S (nextTimer s)) s).

(** [if (reconnectTimeoutRef.current) { clearTimeout(..); .. = null }] *)
Definition clear_reconnect (s : State) : State :=
  match reconnectTimeoutRef s with
  | Some id =>
      set_reconnectTimeoutRef None
        (set_timers (clearTimeout id (timers s)) (nextTimer s) s)
  | None => s
  end.

Definition connect (s : State) : State :=
  if negb (isMountedRef s) then s
  else if bool_decide (tracked_readyState s = Some OPEN)
          || bool_decide (tracked_readyState s = Some CONNECTING) then s
  else if decide (MAX_RECONNECT_ATTEMPTS ≤ reconnectAttemptsRef s) then s
  else if ctorThrows s then set_isConnected false s
  else set_wsRef (Some (length (sockets s)))
         (set_sockets (sockets s ++ [WebSocket.fresh]) s).

Definition onopen (ws : nat) (s : State) : State :=
  if negb (isMountedRef s) then close_socket ws s
  else clear_reconnect (set_reconnectAttemptsRef 0 (set_isConnected true s)).

Definition invalidateQueries (key : QueryKey) (s : State) : State :=
  set_queryClient (QueryClient.invalidateQueries key (queryClient s)) s.

(** [parsed] is the outcome of [JSON.parse(event.data)]. Whatever is
    thrown inside the [try] is caught and logged. *)
Definition onmessage (ws : nat) (parsed : Outcome json) (s : State) : State :=
  if negb (isMountedRef s) then s
  else match parsed with
  | Raised => s
  | Returned data =>
      match get_type data with
      | Raised => s
      | Returned ty =>
          if strict_eq ty "ping" then
            match socket_send ws "pong" s with
            | Returned s' => s'
            | Raised => s
            end
          else if strict_eq ty "connected" then s
          else
            let s1 := if strict_eq ty "score_updated"
                      then invalidateQueries ["compliance-score"] s else s in
            if strict_eq ty "alert_created"
            then invalidateQueries ["alerts"] s1 else s1
      end
  end.

(** Delay handed to [setTimeout] once the counter has been
    incremented to [n], in exact arithmetic: the values below the cap
    ([n] up to 6) are dyadic and are doubles without rounding. *)
Definition reconnect_delay (n : nat) : Q :=
  Qmin (RECONNECT_DELAY * Qpower (3 # 2) (Z.of_nat n - 1)) 30000.

Definition onclose (ws : nat) (s : State) : State :=
  if negb (isMountedRef s) then s
  else
    let s1 := set_wsRef None (set_isConnected false s) in
    match reconnectTimeoutRef s1 with
    | Some _ => s1
    | None =>
        let n := S (reconnectAttemptsRef s1) in
        schedule_reconnect (reconnect_delay n) (set_reconnectAttemptsRef n s1)
    end.

(** The callback given to [setTimeout]. *)
Definition reconnect_callback (s : State) : State :=
  connect (set_reconnectTimeoutRef None s).

(** The public [send] of the context value. [JSON_stringify] is the
    host's serializer as [ws.send] receives its result; it may throw. *)
Definition send {Data : Type} (JSON_stringify : Data → Outcome string)
    (data : Data) (s : State) : Outcome State :=
  if bool_decide (tracked_readyState s = Some OPEN) then
    match JSON_stringify data with
    | Raised => Raised
    | Returned text =>
        match wsRef s with
        | Some ws => socket_send ws text s
        | None => Returned s
        end
    end
  else Returned s.

(** [useEffect] setup and cleanup. *)
Definition effect_setup (s : State) : State :=
  connect (set_isMountedRef true s).

Definition effect_cleanup (s : State) : State :=
  let s1 := clear_reconnect (set_isMountedRef false s) in
  match wsRef s1 with
  | Some ws => set_wsRef None (close_socket ws s1)
  | None => s1
  end.

(** The badge of the header (layout/header.tsx) for the [isConnected]
    prop it is given. *)
Definition Header (connected : bool) : string :=
  if connected then "Live" else "Offline".

(** *** The browser and React driving the callbacks *)

(** What can happen to a rendered provider: React sets up or cleans up
    the effect; the browser fires the open, message or close event of a
    socket, or a timeout; a consumer of the context calls [send]; the
    server starts the closing handshake of an open socket. A message
    event carries the outcome of [JSON.parse] on its data, a send the
    outcome of [JSON.stringify] on its argument. *)
Inductive Event : Type :=
  | EvMount
  | EvUnmount
  | EvOpen (ws : nat)
  | EvMessage (ws : nat) (parsed : Outcome json)
  | EvClose (ws : nat)
  | EvTimeout (id : nat)
  | EvSend (serialized : Outcome string)
  | EvClosing (ws : nat).

Definition readyState_of (ws : nat) (s : State) : option WebSocket.ReadyState :=
  WebSocket.readyState <$> sockets s !! ws.

Definition set_readyState (ws : nat) (r : WebSocket.ReadyState) (s : State) : State :=
  set_sockets (alter (WebSocket.set_state r) ws (sockets s)) s.

(** [None] when the event cannot happen in [s]: a socket opens only
    while connecting, delivers messages only while open, and closes
    once; a timeout fires only while pending; setup and cleanup of the
    effect alternate. When the server starts the closing handshake of
    an open socket, its [readyState] becomes [CLOSING] and no handler
    runs; the close event follows as a step of its own (WebSockets
    standard, "the WebSocket closing handshake is started").
    React may clean an effect up and set it up again
    on the same refs and state (Strict Mode, Fast Refresh), which is
    why the setup re-arms [isMountedRef]; [mounts] counts the setups.
    An [onerror] only logs and is followed by the close event, so it
    has no event of its own. An exception thrown by the public [send]
    reaches its caller and leaves the state as it was. *)
Definition step (s : State) (e : Event) : option State :=
  match e with
  | EvMount =>
      if effectActive s then None
      else Some (effect_setup (set_effect true (S (mounts s)) s))
  | EvUnmount =>
      if effectActive s
      then Some (effect_cleanup (set_effect false (mounts s) s))
      else None
  | EvOpen ws =>
      if decide (readyState_of ws s = Some CONNECTING)
      then Some (onopen ws (set_readyState ws OPEN s)) else None
  | EvMessage ws parsed =>
      if decide (readyState_of ws s = Some OPEN)
      then Some (onmessage ws parsed s) else None
  | EvClose ws =>
      match readyState_of ws s with
      | Some CLOSED | None => None
      | Some _ => Some (onclose ws (set_readyState ws CLOSED s))
      end
  | EvTimeout id =>
      if decide (id ∈ (timers s).*1)
      then Some (reconnect_callback
                   (set_timers (clearTimeout id (timers s)) (nextTimer s) s))
      else None
  | EvSend serialized =>
      match send id serialized s with
      | Returned s' => Some s'
      | Raised => Some s
      end
  | EvClosing ws =>
      if decide (readyState_of ws s = Some OPEN)
      then Some (set_readyState ws CLOSING s) else None
  end.

Fixpoint run (s : State) (trace : list Event) : option State :=
  match trace with
  | [] => Some s
  | e :: rest => s' ← step s e; run s' rest
  end.

(** State of a freshly rendered provider, before its effect runs. *)
Definition init (cache : gmap QueryKey Query) (throws : bool) : State :=
  mkState false None None 0 true [] [] 1 cache throws false 0.

Definition reachable (s : State) : Prop :=
  ∃ cache throws trace, run (init cache throws) trace = Some s.

End Provider.

(** ** useWebSocket (hooks/use-websocket.ts), called by MainLayout *)

Module Hook.

Definition RECONNECT_DELAY : Q := 3000.

Record State : Type := mkState {
  isConnected : bool;
  wsRef : option nat;
  reconnectTimeoutRef : option nat;
  shouldReconnectRef : bool;
  sockets : list WebSocket.t;
  timers : list (nat * Q);
  nextTimer : nat;
  queryClient : gmap QueryKey Query;
  ctorThrows : bool;
  effectActive : bool;
}.

Definition set_isConnected (b : bool) (s : State) : State :=
  mkState b (wsRef s) (reconnectTimeoutRef s) (shouldReconnectRef s)
    (sockets s) (timers s) (nextTimer s) (queryClient s) (ctorThrows s)
    (effectActive s).

Definition set_wsRef (r : option nat) (s : State) : State :=
  mkState (isConnected s) r (reconnectTimeoutRef s) (shouldReconnectRef s)
    (sockets s) (timers s) (nextTimer s) (queryClient s) (ctorThrows s)
    (effectActive s).

Definition set_reconnectTimeoutRef (r : option nat) (s : State) : State :=
  mkState (isConnected s) (wsRef s) r (shouldReconnectRef s)
    (sockets s) (timers s) (nextTimer s) (queryClient s) (ctorThrows s)
    (effectActive s).

Definition set_shouldReconnectRef (b : bool) (s : State) : State :=
  mkState (isConnected s) (wsRef s) (reconnectTimeoutRef s) b
    (sockets s) (timers s) (nextTimer s) (queryClient s) (ctorThrows s)
    (effectActive s).

Definition set_sockets (l : list WebSocket.t) (s : State) : State :=
  mkState (isConnected s) (wsRef s) (reconnectTimeoutRef s)
    (shouldReconnectRef s) l (timers s) (nextTimer s) (queryClient s)
    (ctorThrows s) (effectActive s).

Definition set_timers (l : list (nat * Q)) (next : nat) (s : State) : State :=
  mkState (isConnected s) (wsRef s) (reconnectTimeoutRef s)
    (shouldReconnectRef s) (sockets s) l next (queryClient s) (ctorThrows s)
    (effectActive s).

Definition set_queryClient (c : gmap QueryKey Query) (s : State) : State :=
  mkState (isConnected s) (wsRef s) (reconnectTimeoutRef s)
    (shouldReconnectRef s) (sockets s) (timers s) (nextTimer s) c
    (ctorThrows s) (effectActive s).

Definition set_effect (active : bool) (s : State) : State :=
  mkState (isConnected s) (wsRef s) (reconnectTimeoutRef s)
    (shouldReconnectRef s) (sockets s) (timers s) (nextTimer s)
    (queryClient s) (ctorThrows s) active.

Definition tracked_readyState (s : State) : option WebSocket.ReadyState :=
  ws ← wsRef s; k ← sockets s !! ws; Some (WebSocket.readyState k).

Definition close_socket (ws : nat) (s : State) : State :=
  set_sockets (alter WebSocket.close ws (sockets s)) s.

Definition schedule_reconnect (delay : Q) (s : State) : State :=
  set_reconnectTimeoutRef (Some (nextTimer s))
    (set_timers (timers s ++ [(nextTimer s, delay)]) (S (nextTimer s)) s).

Definition clear_reconnect (s : State) : State :=
  match reconnectTimeoutRef s with
  | Some id =>
      set_reconnectTimeoutRef None
        (set_timers (clearTimeout id (timers s)) (nextTimer s) s)
  | None => s
  end.

Definition connect (s : State) : State :=
  if negb (shouldReconnectRef s) then s
  else if bool_decide (tracked_readyState s = Some OPEN) then s
  else if ctorThrows s then set_isConnected false s
  else set_wsRef (Some (length (sockets s)))
         (set_sockets (sockets s ++ [WebSocket.fresh]) s).

Definition onopen (ws : nat) (s : State) : State :=
  clear_reconnect (set_isConnected true s).

Definition invalidateQueries (key : QueryKey) (s : State) : State :=
  set_queryClient (QueryClient.invalidateQueries key (queryClient s)) s.

Definition onmessage (ws : nat) (parsed : Outcome json) (s : State) : State :=
  match parsed with
  | Raised => s
  | Returned data =>
      match get_type data with
      | Raised => s
      | Returned ty =>
          let s1 := if strict_eq ty "score_updated"
                    then invalidateQueries ["compliance-score"] s else s in
          if strict_eq ty "alert_created"
          then invalidateQueries ["alerts"] s1 else s1
      end
  end.

Definition onclose (ws : nat) (s : State) : State :=
  let s1 := set_wsRef None (set_isConnected false s) in
  if shouldReconnectRef s1 && negb (bool_decide (is_Some (reconnectTimeoutRef s1)))
  then schedule_reconnect RECONNECT_DELAY s1
  else s1.

Definition reconnect_callback (s : State) : State :=
  connect (set_reconnectTimeoutRef None s).

Definition effect_setup (s : State) : State :=
  connect (set_shouldReconnectRef true s).

Definition effect_cleanup (s : State) : State :=
  let s1 := clear_reconnect (set_shouldReconnectRef false s) in
  match wsRef s1 with
  | Some ws => set_wsRef None (close_socket ws s1)
  | None => s1
  end.

Inductive Event : Type :=
  | EvMount
  | EvUnmount
  | EvOpen (ws : nat)
  | EvMessage (ws : nat) (parsed : Outcome json)
  | EvClose (ws : nat)
  | EvTimeout (id : nat)
  | EvClosing (ws : nat).

Definition readyState_of (ws : nat) (s : State) : option WebSocket.ReadyState :=
  WebSocket.readyState <$> sockets s !! ws.

Definition set_readyState (ws : nat) (r : WebSocket.ReadyState) (s : State) : State :=
  set_sockets (alter (WebSocket.set_state r) ws (sockets s)) s.

Definition step (s : State) (e : Event) : option State :=
  match e with
  | EvMount =>
      if effectActive s then None
      else Some (effect_setup (set_effect true s))
  | EvUnmount =>
      if effectActive s
      then Some (effect_cleanup (set_effect false s)) else None
  | EvOpen ws =>
      if decide (readyState_of ws s = Some CONNECTING)
      then Some (onopen ws (set_readyState ws OPEN s)) else None
  | EvMessage ws parsed =>
      if decide (readyState_of ws s = Some OPEN)
      then Some (onmessage ws parsed s) else None
  | EvClose ws =>
      match readyState_of ws s with
      | Some CLOSED | None => None
      | Some _ => Some (onclose ws (set_readyState ws CLOSED s))
      end
  | EvTimeout id =>
      if decide (id ∈ (timers s).*1)
      then Some (reconnect_callback
                   (set_timers (clearTimeout id (timers s)) (nextTimer s) s))
      else None
  | EvClosing ws =>
      if decide (readyState_of ws s = Some OPEN)
      then Some (set_readyState ws CLOSING s) else None
  end.

Fixpoint run (s : State) (trace : list Event) : option State :=
  match trace with
  | [] => Some s
  | e :: rest => s' ← step s e; run s' rest
  end.

Definition init (cache : gmap QueryKey Query) (throws : bool) : State :=
  mkState false None None true [] [] 1 cache throws false.

(** The badge of the header as [MainLayout] renders it
    (layout/main-layout.tsx): it calls this hook and hands its
    [isConnected] to [Header]. *)
Definition MainLayout_header (h : State) : string :=
  Provider.Header (isConnected h).

End Hook.

(** ** Workflow orchestrator

    The orchestrator (backend/graph/workflow.py) is not part of the
    sources at hand; what follows is written from its description. *)

Module Orchestrator.

(** Modelled from the spec: the run id that [submit] returns; the
    orchestrator's id type is not in the sources. *)
Definition RunId : Type := nat.

(** Modelled from the spec: the status of a WorkflowRun,
    "pending|running|succeeded|failed". *)
Inductive Status : Type := pending | running | succeeded | failed.

(** Modelled from the spec: the four steps of the orchestrator's fixed
    pipeline. *)
Inductive StepName : Type :=
  IngestStep | CompareStep | ScoreStep | DecisionStep.

(** Modelled from the spec: the WorkflowRun record of the orchestrator,
    with the attributes that submission and the Decision/Alert step
    read or write (subject document id, current step, status, computed
    score, [alert_sent]). *)
Record WorkflowRun : Type := mkRun {
  subject : string;
  current_step : StepName;
  status : Status;
  score : option Q;
  alert_sent : bool;
}.

(** Modelled from the spec: the orchestrator's terminal statuses,
    "terminal (succeeded/failed)". *)
Definition terminal (st : Status) : bool :=
  match st with
  | succeeded | failed => true
  | pending | running => false
  end.

(** Modelled from the spec: "a non-terminal run exists for subjectId",
    the condition the orchestrator's [submit] checks. *)
Definition in_flight (subjectId : string) (r : WorkflowRun) : Prop :=
  subject r = subjectId ∧ terminal (status r) = false.

#[global] Instance in_flight_dec subjectId r : Decision (in_flight subjectId r).
Proof. unfold in_flight. apply _. Defined.

(** Modelled from the spec: the failure of the orchestrator's [submit]. *)
Inductive SubmitError : Type := AlreadyRunning.

(** Modelled from the spec: the run the orchestrator creates on
    submission, pending at the Ingest step, no score, no alert sent. *)
Definition new_run (subjectId : string) : WorkflowRun :=
  mkRun subjectId IngestStep pending None false.

(** Modelled from the spec: [submit(subjectId, payload) -> RunId] of the
    orchestrator, which "fails with AlreadyRunning if a non-terminal run
    exists for subjectId" and otherwise creates the run, the check and
    the creation being one atomic step on the run store. *)
Definition submit (subjectId payload : string) (runs : gmap RunId WorkflowRun)
    : (SubmitError + RunId) * gmap RunId WorkflowRun :=
  if decide (map_Exists (λ _ r, in_flight subjectId r) runs)
  then (inl AlreadyRunning, runs)
  else let rid := fresh (dom runs) in
       (inr rid, <[rid := new_run subjectId]> runs).

(** Modelled from the spec: a run "becomes terminal (succeeded/failed)
    and immutable thereafter"; [finish] is the orchestrator marking the
    run [rid] with its terminal status. *)
Definition finish (rid : RunId) (ok : bool) (runs : gmap RunId WorkflowRun)
    : gmap RunId WorkflowRun :=
  alter (λ r, if terminal (status r) then r
              else mkRun (subject r) (current_step r)
                     (if ok then succeeded else failed)
                     (score r) (alert_sent r)) rid runs.





End Orchestrator.

(** ** Pages and components

    The components below are pure functions of their props and state,
    or small state machines driven by the user and by TanStack Query.
    Text whose characters matter ([trim], [replace]) is a sequence of
    UTF-16 code units, as JavaScript has it; identifiers that are only
    compared (paths, tab values, class names) are plain strings. *)

(** *** JavaScript strings *)

Module JSString.

(** The code units of an ASCII literal. *)
Definition lit (s : string) : list N :=
  Ascii.N_of_ascii <$> String.list_ascii_of_string s.

(** White space and line terminators, the characters
    [String.prototype.trim] strips: TAB, LF, VT, FF, CR, SP, NBSP,
    U+1680, U+2000 to U+200A, LS, PS, U+202F, U+205F, U+3000 and the BOM.
    None of them is a surrogate, so looking at single code units is
    exact. *)
Definition isWhiteSpace (c : N) : bool :=
  bool_decide (c ∈ [0x9; 0xA; 0xB; 0xC; 0xD; 0x20; 0xA0; 0x1680; 0x2028;
                    0x2029; 0x202F; 0x205F; 0x3000; 0xFEFF]%N)
  || bool_decide (0x2000 ≤ c ≤ 0x200A)%N.

Fixpoint trimStart (s : list N) : list N :=
  match s with
  | c :: rest => if isWhiteSpace c then trimStart rest else s
  | [] => []
  end.

Definition trimEnd (s : list N) : list N := reverse (trimStart (reverse s)).

(** [s.trim()] *)
Definition trim (s : list N) : list N := trimEnd (trimStart s).

(** A string in a boolean position: the empty string is falsy. *)
Definition truthy (s : list N) : bool := negb (bool_decide (s = [])).

(** [s.replace(searchValue, replaceValue)] with a string pattern: only
    the first occurrence is replaced. The replacement patterns ([$&]
    and the like) are left out: the replacement strings of the callers
    hold no [$]. *)
Fixpoint replace (searchValue replaceValue s : list N) : list N :=
  if decide (searchValue `prefix_of` s)
  then replaceValue ++ drop (length searchValue) s
  else match s with
       | [] => []
       | c :: rest => c :: replace searchValue replaceValue rest
       end.

End JSString.

(** *** ChatInput (components/chat/chat-input.tsx) *)

Module ChatInput.
Import JSString.

(** [handleSend]: the argument [onSend] is called with, if it is
    called, and the [input] state afterwards. [disabled] is the
    optional prop. *)
Definition handleSend (disabled : option bool) (input : list N)
    : option (list N) * list N :=
  if truthy (trim input) && negb (default false disabled)
  then (Some (trim input), [])
  else (None, input).

(** [handleKeyDown]: whether [preventDefault] was called, and what
    [handleSend] did. *)
Definition handleKeyDown (key : string) (shiftKey : bool)
    (disabled : option bool) (input : list N)
    : bool * (option (list N) * list N) :=
  if bool_decide (key = "Enter") && negb shiftKey
  then (true, handleSend disabled input)
  else (false, (None, input)).


End ChatInput.

(** *** ChatPage (app/chat/page.tsx) with ChatInterface and ChatInput *)

Module ChatPage.
Import JSString.

Inductive Role : Type := user | assistant.

Inductive SourceType : Type := circular | policy.

Record Source : Type := mkSource {
  type : SourceType;
  title : option (list N);
  name : option (list N);
  date : option (list N);
}.

Record ChatMessage : Type := mkMessage {
  role : Role;
  content : list N;
  sources : option (list Source);
  confidence : option Q;
}.

Definition greeting : ChatMessage :=
  mkMessage assistant
    (lit "Hi! I'm your compliance assistant. Ask me anything about RBI regulations, policy requirements, or recent circulars.")
    None (Some 100%Q).

(** [messages] is the page's state, [isPending] the mutation's,
    [input] the state of the ChatInput the page renders. *)
Record State : Type := mkState {
  messages : list ChatMessage;
  isPending : bool;
  input : list N;
}.

Definition init : State := mkState [greeting] false [].

(** [handleSendMessage]: the user message is appended, then
    [mutation.mutate(query)] starts the request. *)
Definition handleSendMessage (query : list N) (s : State) : State :=
  mkState (messages s ++ [mkMessage user query None None]) true (input s).

(** The [onSuccess] of the mutation. *)
Definition onSuccess (data : ChatMessage) (s : State) : State :=
  mkState (messages s ++ [data]) (isPending s) (input s).

(** What ChatInput's [handleSend] did, carried to the page: [setInput]
    and the call of [onSend], which is [handleSendMessage]. *)
Definition after_send (r : option (list N) * list N) (s : State) : State :=
  let s1 := mkState (messages s) (isPending s) r.2 in
  match r.1 with
  | Some query => handleSendMessage query s1
  | None => s1
  end.

(** The user types, clicks the button or presses a key; the request
    succeeds with the server's message or fails. ChatInterface hands
    [isLoading = mutation.isPending] to ChatInput as [disabled]. The
    [disabled] attribute of the controls is not relied upon: the events
    are taken to reach the handlers in every state. *)
Inductive Event : Type :=
  | EvChange (value : list N)
  | EvClick
  | EvKeyDown (key : string) (shiftKey : bool)
  | EvSuccess (data : ChatMessage)
  | EvError.

Definition step (s : State) (e : Event) : option State :=
  match e with
  | EvChange value => Some (mkState (messages s) (isPending s) value)
  | EvClick =>
      Some (after_send (ChatInput.handleSend (Some (isPending s)) (input s)) s)
  | EvKeyDown key shiftKey =>
      Some (after_send
              (ChatInput.handleKeyDown key shiftKey (Some (isPending s))
                 (input s)).2 s)
  | EvSuccess data =>
      if isPending s
      then Some (mkState (messages (onSuccess data s)) false (input s))
      else None
  | EvError =>
      if isPending s then Some (mkState (messages s) false (input s)) else None
  end.

Fixpoint run (s : State) (trace : list Event) : option State :=
  match trace with
  | [] => Some s
  | e :: rest => s' ← step s e; run s' rest
  end.

Definition reachable (s : State) : Prop := ∃ trace, run init trace = Some s.

End ChatPage.

(** *** MessageBubble (components/chat/message-bubble.tsx) *)

Module MessageBubble.
Import ChatPage.

(** What the bubble can show below the text. *)
Inductive Node : Type :=
  | NumberText (n : Q)
  | ConfidenceBadge (confidence : option Q)
  | SourceList (labels : list (option (list N))).

(** The values of the JSX expressions of the bubble. *)
Inductive Value : Type :=
  | VBool (b : bool)
  | VUndefined
  | VNumber (n : Q)
  | VArray (length : nat)
  | VNode (node : Node).

Definition truthy (v : Value) : bool :=
  match v with
  | VBool b => b
  | VUndefined => false
  | VNumber n => negb (Qeq_bool n 0)
  | VArray _ | VNode _ => true
  end.

(** [a && b] *)
Definition js_and (a b : Value) : Value := if truthy a then b else a.

(** A JSX child: React shows nothing for booleans and [undefined], the
    digits for a number. Arrays do not reach this position. *)
Definition child (v : Value) : list Node :=
  match v with
  | VBool _ | VUndefined | VArray _ => []
  | VNumber n => [NumberText n]
  | VNode node => [node]
  end.

Definition number (n : option Q) : Value :=
  match n with
  | Some q => VNumber q
  | None => VUndefined
  end.

Definition isUser (message : ChatMessage) : bool :=
  match role message with
  | user => true
  | assistant => false
  end.

(** [source.type === "circular" ? source.title : source.name] *)
Definition source_label (source : Source) : option (list N) :=
  match type source with
  | circular => title source
  | policy => name source
  end.

(** [{!isUser && message.confidence && (<Badge>..% confident</Badge>)}] *)
Definition confidence_slot (message : ChatMessage) : list Node :=
  child (js_and (js_and (VBool (negb (isUser message)))
                        (number (confidence message)))
                (VNode (ConfidenceBadge (confidence message)))).

(** [{!isUser && message.sources && message.sources.length > 0 && (..)}] *)
Definition sources_slot (message : ChatMessage) : list Node :=
  child (js_and
           (js_and
              (js_and (VBool (negb (isUser message)))
                      (match sources message with
                       | Some l => VArray (length l)
                       | None => VUndefined
                       end))
              (VBool (bool_decide (0 < length (default [] (sources message))))))
           (VNode (SourceList
                     (source_label <$> default [] (sources message))))).

End MessageBubble.

(** *** Dashboard cards *)

Module Dashboard.
Import JSString.







(** [category.replace("_", " ")] of the card, and
    [alert.alert_type.replace("_", " ")] of AlertItem
    (components/alerts/alert-item.tsx). *)
Definition label (name : list N) : list N := replace (lit "_") (lit " ") name.

End Dashboard.

(** *** Alert lists *)

Module Alerts.

Inductive Severity : Type := critical | high | medium | low | info.

Record Alert : Type := mkAlert {
  id : string;
  alert_type : list N;
  severity : Severity;
  title : list N;
  message : list N;
  created_at : list N;
}.

Inductive Node : Type :=
  | Spinner
  | Note (text : string)
  | AlertItem (alert : Alert).

(** [!alerts || alerts.length === 0] *)
Definition none (alerts : option (list Alert)) : bool :=
  match alerts with
  | Some l => bool_decide (length l = 0)
  | None => true
  end.

(** AlertFeed (components/alerts/alert-feed.tsx) *)
Definition AlertFeed (alerts : option (list Alert)) (loading : bool) : list Node :=
  if loading then [Spinner]
  else if none alerts then [Note "No alerts found"]
  else AlertItem <$> default [] alerts.

(** RecentAlerts (components/dashboard/recent-alerts.tsx): the children
    of the list, [alerts?.slice(0, 5).map(..)] followed by the note. *)
Definition RecentAlerts (alerts : option (list Alert)) : list Node :=
  match alerts with
  | Some l => AlertItem <$> take 5 l
  | None => []
  end
  ++ (if none alerts then [Note "No recent alerts"] else []).

(** AlertsPage (app/alerts/page.tsx): the tabs and the [severity]
    state. [onValueChange] gives the new state, [tab] the value the
    tabs show for a state, [severity || "all"]. *)
Definition tabs : list string := ["all"; "critical"; "high"; "medium"].

Definition onValueChange (v : string) : option string :=
  if bool_decide (v = "all") then None else Some v.

Definition tab (severity : option string) : string :=
  match severity with
  | Some s => if bool_decide (s = "") then "all" else s
  | None => "all"
  end.

End Alerts.

(** *** Sidebar, store and layout *)

Module UIStore.

(** store/ui-store.ts *)
Record State : Type := mkState { sidebarOpen : bool; currentPage : string }.

Definition initial : State := mkState true "dashboard".

Definition toggleSidebar (s : State) : State :=
  mkState (negb (sidebarOpen s)) (currentPage s).

Definition setCurrentPage (page : string) (s : State) : State :=
  mkState (sidebarOpen s) page.

Inductive Action : Type := Toggle | SetPage (page : string).

Definition dispatch (s : State) (a : Action) : State :=
  match a with
  | Toggle => toggleSidebar s
  | SetPage page => setCurrentPage page s
  end.

End UIStore.

Module Sidebar.

(** components/layout/sidebar.tsx: name and href of the entries. *)
Definition navigation : list (string * string) :=
  [("Dashboard", "/dashboard"); ("Alerts", "/alerts"); ("Chat", "/chat");
   ("Policies", "/policies"); ("Scanner", "/scanner");
   ("Settings", "/settings")].

Definition isActive (pathname : string) (item : string * string) : bool :=
  bool_decide (pathname = item.2).

(** The entries shown as active for a pathname. *)
Definition active (pathname : string) : list (string * string) :=
  filter (λ item, isActive pathname item = true) navigation.

(** The target of the link of a PolicyCard
    (components/policies/policy-list.tsx). *)
Definition policy_href (id : string) : string := "/policies/" +:+ id.

End Sidebar.

(** ** Smoke test script *)

Module SmokeTest.

Definition BASE_URL : string := "http://localhost:8080".
Definition RETRY : nat := 6.
Definition SLEEP : nat := 2.

(** What the script has done so far: the URLs it requested, the
    seconds it slept, the lines it printed (oldest first), and the
    shell variable [code], global to the script. *)
Record World : Type := mkWorld {
  requests : list string;
  slept : nat;
  stdout : list string;
  code : option string;
}.

Definition start : World := mkWorld [] 0 [] None.

Definition echo (line : string) (w : World) : World :=
  mkWorld (requests w) (slept w) (stdout w ++ [line]) (code w).

Definition sleep (seconds : nat) (w : World) : World :=
  mkWorld (requests w) (slept w + seconds) (stdout w) (code w).

Section Script.

(** What [curl -s -o /dev/null -w "%{http_code}"] prints for a URL,
    given the number of requests the script made before; [000] when
    the connection fails, which [|| true] lets pass. *)
Variable curl : string → nat → string.

Definition request (url : string) (w : World) : World :=
  mkWorld (requests w ++ [url]) (slept w) (stdout w)
    (Some (curl url (length (requests w)))).

(** The loop of [check] over the values of [i] that are left. The
    result is the status [check] returns. *)
Fixpoint attempts (indices : list nat) (path expected_code : string)
    (w : World) : nat * World :=
  match indices with
  | [] =>
      (2, echo ("FAIL " +:+ path +:+ " -> last_code=" +:+ default "" (code w)
                +:+ " (expected " +:+ expected_code +:+ ")") w)
  | i :: rest =>
      let w1 := request (BASE_URL +:+ path) w in
      let c := default "" (code w1) in
      if bool_decide (c = expected_code)
      then (0, echo ("OK " +:+ path +:+ " -> " +:+ c) w1)
      else attempts rest path expected_code
             (sleep SLEEP
                (echo ("Attempt " +:+ pretty i +:+ "/" +:+ pretty RETRY +:+ ": "
                       +:+ path +:+ " -> " +:+ c +:+ " (expected "
                       +:+ expected_code +:+ "). Retrying in " +:+ pretty SLEEP
                       +:+ "s...") w1))
  end.

Definition check (path expected_code : string) (w : World) : nat * World :=
  attempts (seq 1 RETRY) path expected_code w.

(** [set -e]: a command that fails ends the script with its status. *)
Definition and_then (r : nat * World) (next : World → nat * World)
    : nat * World :=
  if bool_decide (r.1 = 0) then next r.2 else r.

(** The script: exit status and world at its end. *)
Definition main (w : World) : nat * World :=
  and_then (check "/" "200" w) (λ w1,
  and_then (check "/api/health" "200" w1) (λ w2,
  and_then (check "/openapi.json" "200" w2) (λ w3,
  and_then (check "/docs" "200" w3) (λ w4,
  (0, echo "SMOKE TEST PASSED" w4))))).

End Script.

End SmokeTest.

(** * Statements *)

(** ** Sample inputs *)

Module Samples.

Definition ping : json := JObj [("type", JStr "ping")].

Definition step_completed : json :=
  JObj [("type", JStr "step_completed"); ("run_id", JStr "run-1");
        ("step", JStr "score")].

Definition run_failed : json :=
  JObj [("type", JStr "run_failed"); ("run_id", JStr "run-1");
        ("reason", JStr "timeout")].

Definition alert_raised : json :=
  JObj [("type", JStr "alert_raised"); ("run_id", JStr "run-1");
        ("severity", JStr "high")].

Definition score_updated : json := JObj [("type", JStr "score_updated")].

Definition alert_created : json := JObj [("type", JStr "alert_created")].

(** A query some component observes, fetched and not yet invalidated. *)
Definition fetched : Query := QueryClient.mkQuery (Some "cached") false true false.

(** The queries of the dashboard page. *)
Definition dashboard_cache : gmap QueryKey Query :=
  {[ ["compliance-score"] := fetched; ["alerts"] := fetched ]}.

(** [JSON.stringify] on booleans. *)
Definition stringify_bool (b : bool) : Outcome string :=
  Returned (if b then "true" else "false").

(** A provider whose socket 0 is open. *)
Definition connected : Provider.State :=
  Provider.mkState true (Some 0) None 0 true [WebSocket.mk OPEN []] [] 1
    dashboard_cache false true 1.

(** A provider after four failed attempts, its fifth under way. *)
Definition retrying : Provider.State :=
  Provider.mkState false (Some 4) None 4 true
    (replicate 4 (WebSocket.mk CLOSED []) ++ [WebSocket.fresh]) [] 5
    ∅ false true 1.

(** Five failed attempts in a row, each retried when its timeout fires. *)
Definition five_failures : list Provider.Event :=
  [Provider.EvMount;
   Provider.EvClose 0; Provider.EvTimeout 1;
   Provider.EvClose 1; Provider.EvTimeout 2;
   Provider.EvClose 2; Provider.EvTimeout 3;
   Provider.EvClose 3; Provider.EvTimeout 4;
   Provider.EvClose 4].

(** The provider after those five failures. *)
Definition exhausted : Provider.State :=
  default (Provider.init ∅ false)
    (Provider.run (Provider.init ∅ false) five_failures).

(** The effect set up, cleaned up and set up again on the same refs (as
    React's Strict Mode and Fast Refresh do); the second socket opens
    before the close event of the first arrives, then the reconnect
    timeout fires. *)
Definition remount_race : list Provider.Event :=
  [Provider.EvMount; Provider.EvUnmount; Provider.EvMount;
   Provider.EvOpen 1; Provider.EvClose 0; Provider.EvTimeout 1].

(** The provider after that race. *)
Definition raced : Provider.State :=
  default (Provider.init ∅ false)
    (Provider.run (Provider.init ∅ false) remount_race).

(** Five failures in a row of the hook's connection, each retried, and
    the retry after the fifth. *)
Definition hook_five_failures : list Hook.Event :=
  [Hook.EvMount;
   Hook.EvClose 0; Hook.EvTimeout 1;
   Hook.EvClose 1; Hook.EvTimeout 2;
   Hook.EvClose 2; Hook.EvTimeout 3;
   Hook.EvClose 3; Hook.EvTimeout 4;
   Hook.EvClose 4; Hook.EvTimeout 5].

End Samples.

(** ** Vocabulary of the statements *)

(** The delay the specification gives for the [n]-th failure in a row:
    min(baseDelay * 1.5^n, cap). *)
Definition claimed_delay (n : nat) : Q :=
  Qmin (3000 * Qpower (3 # 2) (Z.of_nat n)) 30000.

Module View.
Import Provider.

(** The [readyState] of every socket constructed so far. *)
Definition states (s : State) : list WebSocket.ReadyState :=
  WebSocket.readyState <$> sockets s.

(** What the client holds after a handler ran, leaving out only the
    frames already handed to the sockets. *)
Definition client_state (s : State) :=
  (isConnected s, wsRef s, reconnectTimeoutRef s, reconnectAttemptsRef s,
   isMountedRef s, states s, timers s, queryClient s).

(** The part of the state the connection logic branches on. *)
Definition control (s : State) :=
  (isConnected s, wsRef s, reconnectTimeoutRef s, reconnectAttemptsRef s,
   isMountedRef s, states s, timers s, nextTimer s, (effectActive s, mounts s)).

(** [readyState] after [ws.close()]. *)
Definition closing (r : WebSocket.ReadyState) : WebSocket.ReadyState :=
  match r with
  | CONNECTING | OPEN => CLOSING
  | _ => r
  end.

Definition is_live (r : WebSocket.ReadyState) : Prop :=
  r = OPEN ∨ r = CONNECTING.

(** The socket [ws] is connecting or open. *)
Definition live_at (s : State) (ws : nat) : Prop :=
  ∃ r, states s !! ws = Some r ∧ is_live r.

(** No connection attempt is still under way. *)
Definition none_connecting (s : State) : Prop :=
  Forall (λ r, r ≠ CONNECTING) (states s).

(** The pending timeouts are exactly the one [reconnectTimeoutRef]
    names, if any. *)
Definition timers_match_ref (s : State) : Prop :=
  (timers s).*1 = option_list (reconnectTimeoutRef s).

(** While the counter is at the maximum no socket is tracked. *)
Definition gave_up_untracked (s : State) : Prop :=
  MAX_RECONNECT_ATTEMPTS ≤ reconnectAttemptsRef s → wsRef s = None.

(** The open event of the tracked socket was delivered and its close
    event was not yet: the socket is open, or closing since the server
    started the closing handshake. *)
Definition tracked_opened (s : State) : Prop :=
  tracked_readyState s = Some OPEN ∨ tracked_readyState s = Some CLOSING.

(** While a reconnect timeout is pending no socket is tracked. *)
Definition pending_untracked (s : State) : Prop :=
  is_Some (reconnectTimeoutRef s) → wsRef s = None.

(** While the effect is not active no reconnect timeout is pending, and
    the provider is unmounted unless no socket was ever constructed. *)
Definition inactive_idle (s : State) : Prop :=
  effectActive s = false →
  reconnectTimeoutRef s = None ∧ (isMountedRef s = false ∨ states s = []).

(** What holds as long as the effect has been set up at most once: while
    it is active the provider is mounted and every socket is closed or
    is the tracked one; before it, nothing exists; after its cleanup the
    provider is unmounted and no socket is live. *)
Definition single_mount_inv (s : State) : Prop :=
  mounts s ≤ 1 →
  (effectActive s = true →
     mounts s = 1 ∧ isMountedRef s = true
     ∧ ∀ ws r, states s !! ws = Some r → r = CLOSED ∨ wsRef s = Some ws)
  ∧ (effectActive s = false →
     (mounts s = 0 ∧ states s = [] ∧ timers s = [])
     ∨ (mounts s = 1 ∧ isMountedRef s = false
        ∧ ∀ ws r, states s !! ws = Some r → r = CLOSED ∨ r = CLOSING)).

(** While a reconnect timeout is pending, no socket is connecting or
    open (as long as the effect has been set up at most once). *)
Definition pending_means_idle (s : State) : Prop :=
  mounts s ≤ 1 → is_Some (reconnectTimeoutRef s) →
  ∀ ws r, states s !! ws = Some r → r = CLOSED ∨ r = CLOSING.

End View.

(** ** Further scenarios *)

Module Scenarios.

(** The provider connects, then the server starts the closing handshake
    of its socket. *)
Definition server_closes : list Provider.Event :=
  [Provider.EvMount; Provider.EvOpen 0; Provider.EvClosing 0].

(** The provider between the start of that handshake and the close
    event. *)
Definition closing_started : Provider.State :=
  Provider.mkState true (Some 0) None 0 true [WebSocket.mk CLOSING []] [] 1
    Samples.dashboard_cache false true 1.

(** The effect set up, cleaned up and set up again on the same refs (as
    React's Strict Mode and Fast Refresh do); the close event of the
    first socket arrives, then the second socket opens. *)
Definition remount_then_open : list Provider.Event :=
  [Provider.EvMount; Provider.EvUnmount; Provider.EvMount;
   Provider.EvClose 0; Provider.EvOpen 1].

(** The provider after that. *)
Definition lost_track : Provider.State :=
  default (Provider.init ∅ false)
    (Provider.run (Provider.init ∅ false) remount_then_open).

(** The same remount where the second socket (socket 1) is slow to
    open: the close event of the first socket is counted, and the four
    attempts made after it (sockets 2 to 5) fail as well. *)
Definition remount_five_failures : list Provider.Event :=
  [Provider.EvMount; Provider.EvUnmount; Provider.EvMount;
   Provider.EvClose 0; Provider.EvTimeout 1;
   Provider.EvClose 2; Provider.EvTimeout 2;
   Provider.EvClose 3; Provider.EvTimeout 3;
   Provider.EvClose 4; Provider.EvTimeout 4;
   Provider.EvClose 5].

(** The provider after those five failures, socket 1 still connecting. *)
Definition gave_up_early : Provider.State :=
  default (Provider.init ∅ false)
    (Provider.run (Provider.init ∅ false) remount_five_failures).

(** The hook's effect set up, then [n] failures in a row, the socket of
    each attempt closing before it opens and the timeout armed at its
    close firing next. *)
Definition hook_failures (n : nat) : list Hook.Event :=
  Hook.EvMount :: (seq 0 n ≫= λ i, [Hook.EvClose i; Hook.EvTimeout (S i)]).

(** The hook while its attempt number [n] (from 0) is under way, the
    [n] before it failed. *)
Definition hook_attempting (cache : gmap QueryKey Query) (n : nat) : Hook.State :=
  Hook.mkState false (Some n) None true
    (replicate n (WebSocket.mk CLOSED []) ++ [WebSocket.fresh]) [] (S n)
    cache false true.

(** The hook between the failure of attempt [n] and the next attempt. *)
Definition hook_waiting (cache : gmap QueryKey Query) (n : nat) : Hook.State :=
  Hook.mkState false None (Some (S n)) true
    (replicate (S n) (WebSocket.mk CLOSED [])) [(S n, Hook.RECONNECT_DELAY)]
    (S (S n)) cache false true.

End Scenarios.

(** ** Vocabulary for the components *)

Module UIView.

(** The alerts and the notes a list shows, in order. *)
Definition items (nodes : list Alerts.Node) : list Alerts.Alert :=
  omap (λ node, match node with
                | Alerts.AlertItem alert => Some alert
                | _ => None
                end) nodes.

Definition notes (nodes : list Alerts.Node) : list string :=
  omap (λ node, match node with
                | Alerts.Note text => Some text
                | _ => None
                end) nodes.


(** How often [c] occurs in [s]. *)
Definition occurrences (c : N) (s : list N) : nat :=
  length (filter (λ x, x = c) s).

(** The store after a sequence of actions. *)
Definition run_store (actions : list UIStore.Action) : UIStore.State :=
  foldl UIStore.dispatch UIStore.initial actions.

Definition is_toggle (a : UIStore.Action) : bool :=
  match a with
  | UIStore.Toggle => true
  | UIStore.SetPage _ => false
  end.

Definition toggles (actions : list UIStore.Action) : nat :=
  length (filter (λ a, is_toggle a = true) actions).

Definition pages (actions : list UIStore.Action) : list string :=
  omap (λ a, match a with
             | UIStore.SetPage page => Some page
             | UIStore.Toggle => None
             end) actions.

End UIView.

(** ** Servers for the smoke test *)

Module Servers.

(** A backend that answers 503 to the first two requests and 200 from
    then on. *)
Definition starting_up (url : string) (n : nat) : string :=
  if decide (n < 2) then "503" else "200".

(** No backend: curl prints 000. *)
Definition down (url : string) (n : nat) : string := "000".

End Servers.

(** * Properties of the provider's handlers *)

Module Handlers.
Import Provider View.

Section Send.
Context {Data : Type} (JSON_stringify : Data → Outcome string).

(** What [send] does for the socket [wsRef] tracks: while that socket
    is not OPEN (or none is tracked) it returns normally and leaves the
    whole state (connection state, sockets, timers, caches) as it was;
    while it is OPEN, exactly the text [JSON.stringify(data)] is
    appended to the frames of that socket and nothing else changes. *)
Lemma send_on_tracked_socket (data : Data) (s : State) :
  (tracked_readyState s ≠ Some OPEN → send JSON_stringify data s = Returned s)
  ∧ (∀ ws k text,
       wsRef s = Some ws → sockets s !! ws = Some k →
       WebSocket.readyState k = OPEN →
       JSON_stringify data = Returned text →
       send JSON_stringify data s
       = Returned (set_sockets
                     (<[ws := WebSocket.mk OPEN (WebSocket.sent k ++ [text])]>
                        (sockets s)) s)).
Proof.
  split.
  - intros Hclosed. unfold send.
    rewrite bool_decide_eq_false_2; done.
  - intros ws k text Href Hk Hopen Hstr. unfold send.
    rewrite bool_decide_eq_true_2.
    + rewrite Hstr, Href. unfold socket_send, WebSocket.send.
      by rewrite Hk, Hopen.
    + unfold tracked_readyState. rewrite Href. simpl. rewrite Hk. simpl.
      by rewrite Hopen.
Qed.

End Send.

(** The open event of a socket, delivered to a mounted provider. *)
Lemma onopen_mounted ws s :
  isMountedRef s = true →
  onopen ws s = clear_reconnect (set_reconnectAttemptsRef 0 (set_isConnected true s)).
Proof. intros Hm. unfold onopen. by rewrite Hm. Qed.

Lemma clear_reconnect_fields s :
  isConnected (clear_reconnect s) = isConnected s
  ∧ reconnectAttemptsRef (clear_reconnect s) = reconnectAttemptsRef s
  ∧ wsRef (clear_reconnect s) = wsRef s
  ∧ isMountedRef (clear_reconnect s) = isMountedRef s
  ∧ sockets (clear_reconnect s) = sockets s
  ∧ queryClient (clear_reconnect s) = queryClient s
  ∧ reconnectTimeoutRef (clear_reconnect s) = None.
Proof. unfold clear_reconnect. destruct (reconnectTimeoutRef s) eqn:E; naive_solver. Qed.

(** C7. When the open event of a socket fires on a mounted provider (the
    transition to Connected), the failed-attempt counter is 0 afterwards,
    [isConnected] is true, the header shows Live, the socket is OPEN and
    no reconnect timeout stays armed. *)
Theorem open_resets_attempts (s s' : State) (ws : nat) :
  isMountedRef s = true →
  step s (EvOpen ws) = Some s' →
  reconnectAttemptsRef s' = 0
  ∧ isConnected s' = true
  ∧ Header (isConnected s') = "Live"
  ∧ readyState_of ws s' = Some OPEN
  ∧ reconnectTimeoutRef s' = None.
Proof.
  intros Hm Hstep. simpl in Hstep. case_decide as Hc; [|done].
  injection Hstep as <-.
  rewrite onopen_mounted by done.
  destruct (clear_reconnect_fields
              (set_reconnectAttemptsRef 0
                 (set_isConnected true (set_readyState ws OPEN s))))
    as (Hi & Ha & _ & _ & Hs & _ & Ht).
  rewrite Ha, Hi, Ht. unfold readyState_of in *. rewrite Hs. simpl.
  repeat split; try done.
  rewrite list_lookup_alter_eq.
  destruct (sockets s !! ws); simpl in *; [done|discriminate].
Qed.

Lemma open_resets_attempts_witness :
  isMountedRef Samples.retrying = true
  ∧ ∃ s', step Samples.retrying (EvOpen 4) = Some s'
          ∧ reconnectAttemptsRef Samples.retrying = 4
          ∧ reconnectAttemptsRef s' = 0
          ∧ isConnected s' = true.
Proof.
  split; [reflexivity|].
  eexists. split; [reflexivity|]. split; [reflexivity|].
  split; eapply (open_resets_attempts Samples.retrying _ 4); reflexivity.
Defined.

(** *** Messages *)

Lemma invalidate_idemp q :
  QueryClient.invalidate (QueryClient.invalidate q) = QueryClient.invalidate q.
Proof. destruct q as [d i [] f]; reflexivity. Qed.

Lemma invalidateQueries_lookup key cache k :
  QueryClient.invalidateQueries key cache !! k
  = (λ q, if decide (key `prefix_of` k) then QueryClient.invalidate q else q)
      <$> cache !! k.
Proof.
  unfold QueryClient.invalidateQueries. rewrite map_lookup_imap.
  by destruct (cache !! k).
Qed.

Lemma invalidateQueries_idemp key cache :
  QueryClient.invalidateQueries key (QueryClient.invalidateQueries key cache)
  = QueryClient.invalidateQueries key cache.
Proof.
  apply map_eq; intros k. rewrite !invalidateQueries_lookup.
  destruct (cache !! k) as [q|]; simpl; [|done].
  case_decide; [|done]. by rewrite invalidate_idemp.
Qed.

(** A message has one type: the two invalidating branches exclude each
    other. *)
Lemma strict_eq_exclusive ty a b : a ≠ b → strict_eq ty a = true → strict_eq ty b = false.
Proof.
  destruct ty as [[]|]; simpl; try done.
  intros Hab Ha%bool_decide_eq_true. apply bool_decide_eq_false. congruence.
Qed.

Lemma socket_send_view ws text s s' :
  socket_send ws text s = Returned s' →
  client_state s' = client_state s
  ∧ ∃ s'', socket_send ws text s' = Returned s'' ∧ client_state s'' = client_state s.
Proof.
  unfold socket_send, WebSocket.send.
  destruct (sockets s !! ws) as [k|] eqn:Hk; [|intros [= <-]; rewrite Hk; eauto].
  assert (Hlt : ws < length (sockets s)) by by eapply lookup_lt_Some.
  destruct (WebSocket.readyState k) eqn:Hr; intros [= <-]; simpl.
  - rewrite list_lookup_insert_eq by done. simpl.
    assert (Hv : ∀ fr fr', WebSocket.readyState <$>
                        <[ws:=WebSocket.mk OPEN fr]> (<[ws:=WebSocket.mk OPEN fr']> (sockets s))
                      = WebSocket.readyState <$> sockets s).
    { intros fr fr'. rewrite list_insert_insert_eq, list_fmap_insert. simpl.
      apply list_insert_id. by rewrite list_lookup_fmap, Hk, <-Hr. }
    assert (Hv1 : ∀ fr, WebSocket.readyState <$> <[ws:=WebSocket.mk OPEN fr]> (sockets s)
                      = WebSocket.readyState <$> sockets s).
    { intros fr. rewrite list_fmap_insert. simpl.
      apply list_insert_id. by rewrite list_lookup_fmap, Hk, <-Hr. }
    split.
    + unfold client_state, states; simpl. by rewrite Hv1.
    + eexists. split; [done|]. unfold client_state, states; simpl. by rewrite Hv.
  - rewrite !(list_insert_id (sockets s) ws k Hk).
    assert (set_sockets (sockets s) s = s) as -> by by destruct s.
    split; [done|]. rewrite Hk, Hr.
    rewrite !(list_insert_id (sockets s) ws k Hk).
    assert (set_sockets (sockets s) s = s) as -> by by destruct s. eauto.
  - rewrite !(list_insert_id (sockets s) ws k Hk).
    assert (set_sockets (sockets s) s = s) as -> by by destruct s.
    split; [done|]. rewrite Hk, Hr.
    rewrite !(list_insert_id (sockets s) ws k Hk).
    assert (set_sockets (sockets s) s = s) as -> by by destruct s. eauto.
Qed.

(** C4. Handling the same incoming message a second time leaves the
    client where the first handling left it: connection flag, refs,
    socket states, timers and the query cache are equal (a ping is
    answered again, which only adds a frame to the socket), for the
    provider's handler and, on the whole state, for the hook's. *)
Theorem message_twice_same_state (ws : nat) (parsed : Outcome json)
    (s : State) (h : Hook.State) :
  client_state (onmessage ws parsed (onmessage ws parsed s))
  = client_state (onmessage ws parsed s)
  ∧ Hook.onmessage ws parsed (Hook.onmessage ws parsed h)
    = Hook.onmessage ws parsed h.
Proof.
  split.
  - unfold onmessage at 2 3.
    destruct (isMountedRef s) eqn:Hm; simpl;
      [|unfold onmessage; by rewrite Hm].
    destruct parsed as [data|]; [|unfold onmessage; by rewrite Hm].
    destruct (get_type data) as [ty|] eqn:Hty;
      [|unfold onmessage; by rewrite Hm, Hty].
    destruct (strict_eq ty "ping") eqn:Hping.
    { destruct (socket_send ws "pong" s) as [s1|] eqn:Hsend.
      - destruct (socket_send_view _ _ _ _ Hsend) as (Hv1 & s2 & Hsend2 & Hv2).
        unfold onmessage.
        assert (isMountedRef s1 = true) as ->.
        { unfold client_state in Hv1. naive_solver. }
        simpl. rewrite Hty, Hping, Hsend2. congruence.
      - unfold onmessage. by rewrite Hm, Hty, Hping, Hsend. }
    destruct (strict_eq ty "connected") eqn:Hconn.
    { unfold onmessage. by rewrite Hm, Hty, Hping, Hconn. }
    destruct (strict_eq ty "score_updated") eqn:Hscore;
      destruct (strict_eq ty "alert_created") eqn:Halert.
    + by rewrite (strict_eq_exclusive ty "score_updated" "alert_created") in Halert.
    + unfold onmessage; simpl. rewrite Hm, Hty, Hping, Hconn, Hscore, Halert.
      unfold invalidateQueries, client_state, states; simpl.
      by rewrite invalidateQueries_idemp.
    + unfold onmessage; simpl. rewrite Hm, Hty, Hping, Hconn, Hscore, Halert.
      unfold invalidateQueries, client_state, states; simpl.
      by rewrite invalidateQueries_idemp.
    + unfold onmessage. by rewrite Hm, Hty, Hping, Hconn, Hscore, Halert.
  - unfold Hook.onmessage.
    destruct parsed as [data|]; [|done].
    destruct (get_type data) as [ty|] eqn:Hty; [|done].
    destruct (strict_eq ty "score_updated") eqn:Hscore;
      destruct (strict_eq ty "alert_created") eqn:Halert; try done.
    + by rewrite (strict_eq_exclusive ty "score_updated" "alert_created") in Halert.
    + unfold Hook.invalidateQueries, Hook.set_queryClient; simpl.
      by rewrite invalidateQueries_idemp.
    + unfold Hook.invalidateQueries, Hook.set_queryClient; simpl.
      by rewrite invalidateQueries_idemp.
Qed.

(** What the provider's handler does with a server ping. *)
Lemma provider_answers_ping (ws : nat) (data : json) (s : State) (k : WebSocket.t) :
  isMountedRef s = true →
  get_type data = Returned (Some (JStr "ping")) →
  sockets s !! ws = Some k → WebSocket.readyState k = OPEN →
  onmessage ws (Returned data) s
  = set_sockets (<[ws := WebSocket.mk OPEN (WebSocket.sent k ++ ["pong"])]>
                   (sockets s)) s.
Proof.
  intros Hm Hty Hk Hopen. unfold onmessage. rewrite Hm, Hty. simpl.
  unfold socket_send, WebSocket.send. by rewrite Hk, Hopen.
Qed.

(** C5. The hook's message handler does nothing with a server ping: the
    state it returns is the state it got, and on a freshly opened hook
    connection the ping leaves the socket with no frame sent, where the
    provider's handler answers pong. *)
Theorem hook_ignores_ping :
  (∀ ws h, Hook.onmessage ws (Returned Samples.ping) h = h)
  ∧ Hook.sockets <$> Hook.run (Hook.init ∅ false)
                       [Hook.EvMount; Hook.EvOpen 0;
                        Hook.EvMessage 0 (Returned Samples.ping)]
    = Some [WebSocket.mk OPEN []]
  ∧ sockets <$> run (init ∅ false)
                  [EvMount; EvOpen 0; EvMessage 0 (Returned Samples.ping)]
    = Some [WebSocket.mk OPEN ["pong"]].
Proof.
  split; [reflexivity|]. split; vm_compute; reflexivity.
Qed.

Lemma invalidateQueries_marks key cache k q :
  cache !! k = Some q → key `prefix_of` k →
  ∃ q', QueryClient.invalidateQueries key cache !! k = Some q'
        ∧ QueryClient.isInvalidated q' = true
        ∧ QueryClient.data q' = QueryClient.data q.
Proof.
  intros Hk Hpre. rewrite invalidateQueries_lookup, Hk. simpl.
  rewrite decide_True by done. eauto.
Qed.

Lemma invalidateQueries_others key cache k :
  ¬ key `prefix_of` k →
  QueryClient.invalidateQueries key cache !! k = cache !! k.
Proof.
  intros Hpre. rewrite invalidateQueries_lookup.
  destruct (cache !! k); simpl; [|done]. by rewrite decide_False.
Qed.

(** C6, as the handlers have it. A message of type "score_updated" marks
    every cached query whose key starts with "compliance-score" as
    invalidated, one of type "alert_created" every cached query whose key
    starts with "alerts" (the provider while mounted, the hook always);
    a message of type "step_completed", "run_failed" or "alert_raised"
    leaves the state, caches included, as it was. *)
Theorem invalidation_by_message_type (ws : nat) (data : json)
    (s : State) (h : Hook.State) :
  isMountedRef s = true →
  (get_type data = Returned (Some (JStr "score_updated")) →
     queryClient (onmessage ws (Returned data) s)
     = QueryClient.invalidateQueries ["compliance-score"] (queryClient s)
     ∧ Hook.queryClient (Hook.onmessage ws (Returned data) h)
       = QueryClient.invalidateQueries ["compliance-score"] (Hook.queryClient h)
     ∧ ∀ k q, queryClient s !! k = Some q → ["compliance-score"] `prefix_of` k →
         ∃ q', queryClient (onmessage ws (Returned data) s) !! k = Some q'
               ∧ QueryClient.isInvalidated q' = true)
  ∧ (get_type data = Returned (Some (JStr "alert_created")) →
     queryClient (onmessage ws (Returned data) s)
     = QueryClient.invalidateQueries ["alerts"] (queryClient s)
     ∧ Hook.queryClient (Hook.onmessage ws (Returned data) h)
       = QueryClient.invalidateQueries ["alerts"] (Hook.queryClient h)
     ∧ ∀ k q, queryClient s !! k = Some q → ["alerts"] `prefix_of` k →
         ∃ q', queryClient (onmessage ws (Returned data) s) !! k = Some q'
               ∧ QueryClient.isInvalidated q' = true)
  ∧ (∀ ty, ty ∈ ["step_completed"; "run_failed"; "alert_raised"] →
     get_type data = Returned (Some (JStr ty)) →
     onmessage ws (Returned data) s = s
     ∧ Hook.onmessage ws (Returned data) h = h).
Proof.
  intros Hm. split; [|split].
  - intros Hty.
    assert (Hp : queryClient (onmessage ws (Returned data) s)
                 = QueryClient.invalidateQueries ["compliance-score"] (queryClient s)).
    { unfold onmessage. by rewrite Hm, Hty. }
    split; [done|]. split.
    + unfold Hook.onmessage. by rewrite Hty.
    + intros k q Hk Hpre. rewrite Hp.
      destruct (invalidateQueries_marks _ _ _ _ Hk Hpre) as (q' & ? & ? & _).
      eauto.
  - intros Hty.
    assert (Hp : queryClient (onmessage ws (Returned data) s)
                 = QueryClient.invalidateQueries ["alerts"] (queryClient s)).
    { unfold onmessage. by rewrite Hm, Hty. }
    split; [done|]. split.
    + unfold Hook.onmessage. by rewrite Hty.
    + intros k q Hk Hpre. rewrite Hp.
      destruct (invalidateQueries_marks _ _ _ _ Hk Hpre) as (q' & ? & ? & _).
      eauto.
  - intros ty Hin Hty. unfold onmessage, Hook.onmessage. rewrite Hm, Hty.
    set_unfold in Hin. destruct Hin as [->|[->|[->|[]]]]; done.
Qed.

Lemma invalidation_by_message_type_witness :
  isMountedRef Samples.connected = true
  ∧ get_type Samples.score_updated = Returned (Some (JStr "score_updated"))
  ∧ (∃ q', queryClient (onmessage 0 (Returned Samples.score_updated) Samples.connected)
             !! ["compliance-score"] = Some q'
           ∧ QueryClient.isInvalidated q' = true)
  ∧ onmessage 0 (Returned Samples.step_completed) Samples.connected
    = Samples.connected.
Proof.
  split; [reflexivity|]. split; [reflexivity|]. split.
  - refine (proj2 (proj2 (proj1
              (invalidation_by_message_type 0 Samples.score_updated
                 Samples.connected (Hook.init ∅ false) eq_refl) eq_refl))
              ["compliance-score"] Samples.fetched _ _).
    + reflexivity.
    + reflexivity.
  - refine (proj1 (proj2 (proj2
              (invalidation_by_message_type 0 Samples.step_completed
                 Samples.connected (Hook.init ∅ false) eq_refl))
              "step_completed" _ eq_refl)).
    set_solver.
Defined.

Lemma spec_event_types_keep_cache (cache : gmap QueryKey Query) :
  queryClient <$> run (init cache false)
                    [EvMount; EvOpen 0;
                     EvMessage 0 (Returned Samples.step_completed);
                     EvMessage 0 (Returned Samples.run_failed);
                     EvMessage 0 (Returned Samples.alert_raised)]
  = Some cache.
Proof. reflexivity. Qed.

(** C6, as the claim has it, fails: the three message types of the
    specification reach a mounted provider with a populated cache, and
    afterwards the cache is the one it started with, no query of it
    invalidated. *)
Lemma spec_event_types_invalidate_nothing :
  queryClient <$> run (init Samples.dashboard_cache false)
                    [EvMount; EvOpen 0;
                     EvMessage 0 (Returned Samples.step_completed);
                     EvMessage 0 (Returned Samples.run_failed);
                     EvMessage 0 (Returned Samples.alert_raised)]
  = Some Samples.dashboard_cache
  ∧ ∀ k q, Samples.dashboard_cache !! k = Some q →
           QueryClient.isInvalidated q = false.
Proof.
  split; [apply spec_event_types_keep_cache|].
  intros k q. unfold Samples.dashboard_cache.
  rewrite lookup_insert_Some, lookup_singleton_Some.
  intros [[_ <-]|[_ [_ <-]]]; reflexivity.
Qed.

(** *** The disconnect handler *)

Lemma onclose_schedules (ws : nat) (s : State) :
  isMountedRef s = true → reconnectTimeoutRef s = None →
  onclose ws s
  = schedule_reconnect (reconnect_delay (S (reconnectAttemptsRef s)))
      (set_reconnectAttemptsRef (S (reconnectAttemptsRef s))
         (set_wsRef None (set_isConnected false s))).
Proof. intros Hm Ht. unfold onclose. rewrite Hm. simpl. by rewrite Ht. Qed.

Lemma backoff_below_cap (n : nat) :
  1 ≤ n ≤ MAX_RECONNECT_ATTEMPTS →
  (reconnect_delay n == 3000 * Qpower (3 # 2) (Z.of_nat n - 1))%Q.
Proof.
  unfold MAX_RECONNECT_ATTEMPTS. intros [Hlo Hhi].
  destruct n as [|[|[|[|[|[|n]]]]]]; try lia; vm_compute; reflexivity.
Qed.

(** C1, as the handler has it. On the [n]-th failure in a row ([n] ≥ 1:
    the counter stood at [n - 1], no timeout armed, provider mounted) the
    disconnect handler sets the counter to [n] and arms one timeout whose
    delay is min(3000 * 1.5^(n-1), 30000) ms, which is the delay the
    specification gives for [n - 1]; up to the maximum attempt count the
    cap is not reached. *)
Theorem reconnect_delay_of_nth_failure (n ws : nat) (s : State) :
  1 ≤ n →
  isMountedRef s = true → reconnectTimeoutRef s = None →
  reconnectAttemptsRef s = n - 1 →
  ∃ d : Q,
    timers (onclose ws s) = timers s ++ [(nextTimer s, d)]
    ∧ reconnectTimeoutRef (onclose ws s) = Some (nextTimer s)
    ∧ reconnectAttemptsRef (onclose ws s) = n
    ∧ (d == Qmin (3000 * Qpower (3 # 2) (Z.of_nat n - 1)) 30000)%Q
    ∧ (d == claimed_delay (n - 1))%Q
    ∧ (n ≤ MAX_RECONNECT_ATTEMPTS →
       (d == 3000 * Qpower (3 # 2) (Z.of_nat n - 1))%Q).
Proof.
  intros Hn Hm Ht Ha. rewrite onclose_schedules by done.
  rewrite Ha. replace (S (n - 1)) with n by lia.
  exists (reconnect_delay n). simpl. repeat split.
  - unfold claimed_delay, reconnect_delay, RECONNECT_DELAY.
    by rewrite Nat2Z.inj_sub.
  - intros Hmax. by apply backoff_below_cap.
Qed.

Lemma reconnect_delay_of_nth_failure_witness :
  ∃ d : Q,
    timers (onclose 4 Samples.retrying) = [(5, d)]
    ∧ reconnectAttemptsRef (onclose 4 Samples.retrying) = 5
    ∧ (d == 30375 # 2)%Q.
Proof.
  destruct (reconnect_delay_of_nth_failure 5 4 Samples.retrying)
    as (d & Ht & _ & Ha & _ & _ & Hd); [lia|reflexivity..|].
  exists d. split; [exact Ht|]. split; [exact Ha|].
  rewrite Hd by (unfold MAX_RECONNECT_ATTEMPTS; lia). reflexivity.
Defined.

(** The delays of the five attempts, in ms. *)
Lemma reconnect_delay_table :
  (reconnect_delay 1 == 3000)%Q ∧ (reconnect_delay 2 == 4500)%Q
  ∧ (reconnect_delay 3 == 6750)%Q ∧ (reconnect_delay 4 == 10125)%Q
  ∧ (reconnect_delay 5 == 30375 # 2)%Q.
Proof. repeat split. Qed.

(** C1, as the claim has it, fails already at the first failure: the
    retry is armed after 3000 ms, the claimed min(3000 * 1.5^1, 30000)
    is 4500 ms. *)
Lemma first_retry_after_base_delay :
  reconnectAttemptsRef <$> run (init ∅ false) [EvMount; EvClose 0] = Some 1
  ∧ timers <$> run (init ∅ false) [EvMount; EvClose 0] = Some [(1, 3000%Q)]
  ∧ (claimed_delay 1 == 4500)%Q
  ∧ ¬ (3000 == claimed_delay 1)%Q.
Proof.
  split; [vm_compute; reflexivity|]. split; [vm_compute; reflexivity|].
  split; [reflexivity|]. vm_compute. discriminate.
Qed.

(** The hook retries after the same 3000 ms every time. *)
Lemma hook_constant_delay (ws : nat) (h : Hook.State) :
  Hook.shouldReconnectRef h = true → Hook.reconnectTimeoutRef h = None →
  Hook.timers (Hook.onclose ws h)
  = Hook.timers h ++ [(Hook.nextTimer h, Hook.RECONNECT_DELAY)].
Proof. intros Hs Ht. unfold Hook.onclose. simpl. by rewrite Hs, Ht. Qed.

End Handlers.

(** * Executions of the provider *)

Module Executions.
Import Provider View.

Lemma run_app s tr1 tr2 :
  run s (tr1 ++ tr2) = s' ← run s tr1; run s' tr2.
Proof.
  revert s. induction tr1 as [|e tr1 IH]; intros s; simpl; [done|].
  destruct (step s e); simpl; [apply IH|done].
Qed.

(** A property kept by every step holds along every execution. *)
Lemma run_invariant (P : State → Prop) :
  (∀ s e s', P s → step s e = Some s' → P s') →
  ∀ tr s s', P s → run s tr = Some s' → P s'.
Proof.
  intros Hstep tr. induction tr as [|e tr IH]; intros s s' HP Hrun; simpl in *.
  - by injection Hrun as <-.
  - destruct (step s e) as [s1|] eqn:He; simpl in *; [|done].
    eapply IH; [|done]. by eapply Hstep.
Qed.

Lemma reachable_invariant (P : State → Prop) :
  (∀ cache throws, P (init cache throws)) →
  (∀ s e s', P s → step s e = Some s' → P s') →
  ∀ s, reachable s → P s.
Proof.
  intros Hinit Hstep s (cache & throws & tr & Hrun).
  eapply run_invariant; [apply Hstep|apply Hinit|apply Hrun].
Qed.

Lemma reachable_run s tr s' : reachable s → run s tr = Some s' → reachable s'.
Proof.
  intros (cache & throws & tr0 & Hrun) Hrun'.
  exists cache, throws, (tr0 ++ tr). rewrite run_app, Hrun. done.
Qed.

Lemma run_singleton s e s' : step s e = Some s' → run s [e] = Some s'.
Proof. intros Hstep. simpl. by rewrite Hstep. Qed.

Lemma reachable_step s e s' : reachable s → step s e = Some s' → reachable s'.
Proof.
  intros Hr Hstep. apply (reachable_run s [e]); [done|by apply run_singleton].
Qed.

(** ** How each handler moves the state *)

Lemma readyState_of_states ws s : readyState_of ws s = states s !! ws.
Proof. unfold readyState_of, states. by rewrite list_lookup_fmap. Qed.

Lemma states_length s : length (states s) = length (sockets s).
Proof. apply length_fmap. Qed.

Lemma states_set_readyState ws r s :
  states (set_readyState ws r s) = <[ws := r]> (states s).
Proof.
  unfold states, set_readyState. simpl. rewrite list_insert_alter.
  apply list_fmap_alter, Forall_forall. done.
Qed.

Lemma states_close_socket ws s :
  states (close_socket ws s) = alter closing ws (states s).
Proof.
  unfold states, close_socket. simpl.
  apply list_fmap_alter, Forall_forall. by intros [[] ?] _.
Qed.

Lemma tracked_readyState_states s :
  tracked_readyState s = wsRef s ≫= λ ws, states s !! ws.
Proof.
  unfold tracked_readyState, states. destruct (wsRef s) as [ws|]; simpl; [|done].
  rewrite list_lookup_fmap. by destruct (sockets s !! ws).
Qed.

Lemma connect_cases s :
  connect s = s
  ∨ connect s = set_isConnected false s
  ∨ (isMountedRef s = true
     ∧ tracked_readyState s ≠ Some OPEN
     ∧ tracked_readyState s ≠ Some CONNECTING
     ∧ reconnectAttemptsRef s < MAX_RECONNECT_ATTEMPTS
     ∧ connect s = set_wsRef (Some (length (sockets s)))
                     (set_sockets (sockets s ++ [WebSocket.fresh]) s)).
Proof.
  unfold connect. destruct (isMountedRef s); simpl; [|by left].
  destruct (bool_decide (tracked_readyState s = Some OPEN)) eqn:Ho;
    simpl; [by left|].
  destruct (bool_decide (tracked_readyState s = Some CONNECTING)) eqn:Hc;
    simpl; [by left|].
  apply bool_decide_eq_false in Ho, Hc.
  case_decide; [by left|].
  destruct (ctorThrows s); [by right; left|].
  right; right. repeat split; try done. lia.
Qed.

Lemma clear_reconnect_cases s :
  (reconnectTimeoutRef s = None ∧ clear_reconnect s = s)
  ∨ (∃ id, reconnectTimeoutRef s = Some id
           ∧ clear_reconnect s
             = set_reconnectTimeoutRef None
                 (set_timers (clearTimeout id (timers s)) (nextTimer s) s)).
Proof. unfold clear_reconnect. destruct (reconnectTimeoutRef s); eauto. Qed.

Lemma onclose_cases ws s :
  (isMountedRef s = false ∧ onclose ws s = s)
  ∨ (isMountedRef s = true ∧ is_Some (reconnectTimeoutRef s)
     ∧ onclose ws s = set_wsRef None (set_isConnected false s))
  ∨ (isMountedRef s = true ∧ reconnectTimeoutRef s = None
     ∧ onclose ws s
       = schedule_reconnect (reconnect_delay (S (reconnectAttemptsRef s)))
           (set_reconnectAttemptsRef (S (reconnectAttemptsRef s))
              (set_wsRef None (set_isConnected false s)))).
Proof.
  unfold onclose. destruct (isMountedRef s); simpl; [|by left].
  destruct (reconnectTimeoutRef s) eqn:Ht; [right; left|right; right]; eauto.
Qed.

(** Sending a frame changes no socket state and nothing the logic
    branches on. *)
Lemma socket_send_control ws text s s' :
  socket_send ws text s = Returned s' →
  control s' = control s ∧ queryClient s' = queryClient s.
Proof.
  unfold socket_send, WebSocket.send.
  destruct (sockets s !! ws) as [k|] eqn:Hk; [|by intros [= <-]].
  assert (Hsame : ∀ k', WebSocket.readyState k' = WebSocket.readyState k →
            control (set_sockets (<[ws:=k']> (sockets s)) s) = control s).
  { intros k' Hk'. unfold control, states. simpl.
    rewrite list_fmap_insert, Hk', list_insert_id; [done|].
    by rewrite list_lookup_fmap, Hk. }
  destruct (WebSocket.readyState k) eqn:Hr; intros [= <-];
    (split; [by apply Hsame|done]).
Qed.

Lemma onmessage_control ws parsed s :
  control (onmessage ws parsed s) = control s.
Proof.
  unfold onmessage. destruct (isMountedRef s); simpl; [|done].
  destruct parsed as [data|]; [|done].
  destruct (get_type data) as [ty|]; [|done].
  destruct (strict_eq ty "ping").
  { destruct (socket_send ws "pong" s) eqn:Hs; [|done].
    by apply socket_send_control in Hs as [? _]. }
  destruct (strict_eq ty "connected"); [done|].
  by destruct (strict_eq ty "score_updated"), (strict_eq ty "alert_created").
Qed.

Lemma send_control {Data} (f : Data → Outcome string) data s s' :
  send f data s = Returned s' → control s' = control s.
Proof.
  unfold send. case_bool_decide; [|by intros [= <-]].
  destruct (f data); [|done]. destruct (wsRef s); [|by intros [= <-]].
  intros Hs. by apply socket_send_control in Hs as [? _].
Qed.

(** A step that runs [onmessage] or the public [send]. *)
Lemma quiet_step s e s' :
  step s e = Some s' →
  (∃ ws parsed, e = EvMessage ws parsed) ∨ (∃ p, e = EvSend p) →
  control s' = control s.
Proof.
  intros Hstep [(ws & parsed & ->)|(p & ->)]; simpl in Hstep.
  - case_decide; [|done]. injection Hstep as <-. apply onmessage_control.
  - destruct (send id p s) eqn:Hs; injection Hstep as <-; [|done].
    by eapply send_control.
Qed.

Lemma control_fields s s' :
  control s' = control s →
  isConnected s' = isConnected s ∧ wsRef s' = wsRef s
  ∧ reconnectTimeoutRef s' = reconnectTimeoutRef s
  ∧ reconnectAttemptsRef s' = reconnectAttemptsRef s
  ∧ isMountedRef s' = isMountedRef s ∧ states s' = states s
  ∧ timers s' = timers s ∧ nextTimer s' = nextTimer s
  ∧ effectActive s' = effectActive s ∧ mounts s' = mounts s.
Proof. unfold control. intros [= -> -> -> -> -> -> -> -> -> ->]. done. Qed.

#[local] Arguments states : simpl never.
#[local] Arguments reconnect_delay : simpl never.
#[local] Arguments clearTimeout : simpl never.

Lemma states_new_socket s0 s :
  states (set_sockets (sockets s0 ++ [WebSocket.fresh]) s)
  = states s0 ++ [CONNECTING].
Proof. unfold states. simpl. by rewrite fmap_app. Qed.

Lemma states_set_isConnected b s : states (set_isConnected b s) = states s.
Proof. done. Qed.
Lemma states_set_wsRef r s : states (set_wsRef r s) = states s.
Proof. done. Qed.
Lemma states_set_reconnectTimeoutRef r s :
  states (set_reconnectTimeoutRef r s) = states s.
Proof. done. Qed.
Lemma states_set_reconnectAttemptsRef n s :
  states (set_reconnectAttemptsRef n s) = states s.
Proof. done. Qed.
Lemma states_set_isMountedRef b s : states (set_isMountedRef b s) = states s.
Proof. done. Qed.
Lemma states_set_timers l n s : states (set_timers l n s) = states s.
Proof. done. Qed.
Lemma states_set_effect b n s : states (set_effect b n s) = states s.
Proof. done. Qed.
Lemma states_schedule_reconnect d s : states (schedule_reconnect d s) = states s.
Proof. done. Qed.

Create Rewrite HintDb states.
#[local] Hint Rewrite states_new_socket states_set_isConnected states_set_wsRef
  states_set_reconnectTimeoutRef states_set_reconnectAttemptsRef
  states_set_isMountedRef states_set_timers states_set_effect
  states_schedule_reconnect states_set_readyState states_close_socket
  : states.

(** Brings the new state of a step to the fields of the old one. *)
Ltac fields := autorewrite with states in *; simpl in *.

Ltac split_connect :=
  match goal with
  | |- context [connect ?s0] =>
      destruct (connect_cases s0)
        as [->|[->|(Hmnt & Hno & Hnc & Hatt & ->)]]
  end.

Ltac split_clear :=
  match goal with
  | |- context [clear_reconnect ?s0] =>
      let id := fresh "id" in
      destruct (clear_reconnect_cases s0) as [[Hnot ->]|(id & Htimer & ->)]
  end.

Ltac step_inversion Hstep :=
  match type of Hstep with
  | step ?s EvMount = Some ?s' =>
      simpl in Hstep;
      destruct (effectActive s) eqn:Hact in Hstep; [discriminate Hstep|];
      injection Hstep as <-; unfold effect_setup; split_connect
  | step ?s EvUnmount = Some ?s' =>
      simpl in Hstep;
      destruct (effectActive s) eqn:Hact in Hstep; [|discriminate Hstep];
      injection Hstep as <-; unfold effect_cleanup; split_clear; simpl;
      match goal with
      | |- context [wsRef ?s0] =>
          let ws := fresh "ws" in destruct (wsRef s0) as [ws|] eqn:Href
      end
  | step ?s (EvOpen ?ws) = Some ?s' =>
      simpl in Hstep;
      destruct (decide _) as [Hws|] in Hstep; [|discriminate Hstep];
      injection Hstep as <-; unfold onopen; simpl;
      destruct (isMountedRef s) eqn:Hmnt; simpl; [split_clear|]
  | step ?s (EvMessage ?ws ?parsed) = Some ?s' =>
      pose proof (quiet_step _ _ _ Hstep
                    (or_introl (ex_intro _ ws (ex_intro _ parsed eq_refl))))
        as Hquiet;
      apply control_fields in Hquiet
  | step ?s (EvClose ?ws) = Some ?s' =>
      let r := fresh "r" in
      simpl in Hstep;
      destruct (readyState_of ws s) as [r|] eqn:Hws in Hstep;
        [|discriminate Hstep];
      assert (r ≠ CLOSED) as Hopen by (by destruct r);
      assert (s' = onclose ws (set_readyState ws CLOSED s)) as ->
        by (destruct r; congruence);
      clear Hstep;
      destruct (onclose_cases ws (set_readyState ws CLOSED s))
        as [[Hmnt ->]|[(Hmnt & Htimer & ->)|(Hmnt & Htimer & ->)]]
  | step ?s (EvTimeout ?id) = Some ?s' =>
      simpl in Hstep;
      destruct (decide _) as [Hid|] in Hstep; [|discriminate Hstep];
      injection Hstep as <-; unfold reconnect_callback; split_connect
  | step ?s (EvSend ?p) = Some ?s' =>
      pose proof (quiet_step _ _ _ Hstep (or_intror (ex_intro _ p eq_refl)))
        as Hquiet;
      apply control_fields in Hquiet
  | step ?s (EvClosing ?ws) = Some ?s' =>
      simpl in Hstep;
      destruct (decide _) as [Hws|] in Hstep; [|discriminate Hstep];
      injection Hstep as <-
  end.

(** ** What every execution keeps *)

(** Once the counter is at the maximum the client shows offline: only
    the close handler raises the counter, and it clears [isConnected];
    only the open handler sets [isConnected], and it resets the counter. *)
Lemma gave_up_offline s :
  reachable s → MAX_RECONNECT_ATTEMPTS ≤ reconnectAttemptsRef s →
  isConnected s = false.
Proof.
  intros Hr. revert s Hr.
  apply (reachable_invariant
           (λ s, MAX_RECONNECT_ATTEMPTS ≤ reconnectAttemptsRef s →
                 isConnected s = false)); [done|].
  intros s e s' IH Hstep. unfold MAX_RECONNECT_ATTEMPTS in *.
  destruct e; step_inversion Hstep; simpl in *; try done; try lia;
    try (by auto with lia).
  all: destruct Hquiet as (-> & _ & _ & -> & _); done.
Qed.

Lemma none_connecting_no_open s ws :
  none_connecting s → readyState_of ws s ≠ Some CONNECTING.
Proof.
  unfold none_connecting. rewrite readyState_of_states, Forall_lookup.
  intros Hall Hws. by apply (Hall _ _ Hws).
Qed.

(** With the counter at the maximum, the client offline and no attempt
    under way, a step constructs no socket and keeps all three. *)
Lemma gave_up_step s e s' :
  MAX_RECONNECT_ATTEMPTS ≤ reconnectAttemptsRef s →
  isConnected s = false → none_connecting s →
  step s e = Some s' →
  MAX_RECONNECT_ATTEMPTS ≤ reconnectAttemptsRef s'
  ∧ isConnected s' = false ∧ none_connecting s'
  ∧ length (sockets s') = length (sockets s).
Proof.
  intros Hmax Hoff Hnone Hstep. unfold none_connecting in *.
  rewrite <-!states_length.
  destruct e; step_inversion Hstep; fields;
    try (exfalso; lia);
    try (by exfalso; eapply none_connecting_no_open);
    try (destruct Hquiet as (-> & _ & _ & -> & _ & -> & _); done).
  all: repeat split; try done; try lia.
  all: try (by rewrite ?length_alter, ?length_insert).
  all: try (by apply Forall_insert).
  all: apply Forall_alter; [done|]; by intros [] _ ?.
Qed.

Lemma connect_at_max s :
  MAX_RECONNECT_ATTEMPTS ≤ reconnectAttemptsRef s → connect s = s.
Proof.
  intros Hmax. destruct (connect_cases s) as [?|[Hthrow|(_ & _ & _ & Hlt & _)]];
    [done| |lia].
  unfold connect in *. destruct (isMountedRef s); simpl in *; [|done].
  destruct (_ || _); [done|]. by rewrite decide_True in * by done.
Qed.

Lemma gave_up_run s trace s' :
  MAX_RECONNECT_ATTEMPTS ≤ reconnectAttemptsRef s →
  isConnected s = false → none_connecting s →
  run s trace = Some s' →
  MAX_RECONNECT_ATTEMPTS ≤ reconnectAttemptsRef s'
  ∧ isConnected s' = false ∧ none_connecting s'
  ∧ length (sockets s') = length (sockets s).
Proof.
  revert s. induction trace as [|e trace IH]; intros s Hmax Hoff Hnone Hrun;
    simpl in *.
  - by injection Hrun as <-.
  - destruct (step s e) as [s1|] eqn:Hstep; simpl in *; [|done].
    destruct (gave_up_step s e s1 Hmax Hoff Hnone Hstep)
      as (Hmax1 & Hoff1 & Hnone1 & Hlen1).
    rewrite <-Hlen1. by apply IH.
Qed.

(** What the provider does keep: from any point where the failed-attempt
    counter has reached the maximum and no attempt is still under way,
    whatever happens next (timeouts, socket events, sends, the effect
    cleaned up or set up again), no socket is constructed, [connect]
    does nothing, [isConnected] stays false and the counter stays at the
    maximum. *)
Lemma gave_up_for_good (s s' : State) (trace : list Event) :
  reachable s →
  MAX_RECONNECT_ATTEMPTS ≤ reconnectAttemptsRef s →
  none_connecting s →
  run s trace = Some s' →
  length (sockets s') = length (sockets s)
  ∧ connect s' = s'
  ∧ isConnected s' = false
  ∧ MAX_RECONNECT_ATTEMPTS ≤ reconnectAttemptsRef s'.
Proof.
  intros Hreach Hmax Hnone Hrun.
  pose proof (gave_up_offline s Hreach Hmax) as Hoff.
  destruct (gave_up_run s trace s' Hmax Hoff Hnone Hrun)
    as (Hmax' & Hoff' & _ & Hlen).
  repeat split; try done. by apply connect_at_max.
Qed.

(** The sample states are states of executions. *)
Lemma retrying_reached :
  run (init ∅ false) (take 9 Samples.five_failures) = Some Samples.retrying.
Proof. vm_compute. reflexivity. Qed.

Lemma connected_reached :
  run (init Samples.dashboard_cache false) [EvMount; EvOpen 0]
  = Some Samples.connected.
Proof. reflexivity. Qed.

Lemma exhausted_reached :
  run (init ∅ false) Samples.five_failures = Some Samples.exhausted.
Proof. vm_compute. reflexivity. Qed.

(** *** One pending timeout *)

Lemma clearTimeout_only id (l : list (nat * Q)) :
  l.*1 = [id] → clearTimeout id l = [].
Proof.
  destruct l as [|[i d] [|? ?]]; simpl; intros [= ->]. unfold clearTimeout.
  rewrite filter_cons_False; [done|]. simpl. by intros ?.
Qed.

(** In every execution the browser holds at most one pending reconnect
    timeout, the one [reconnectTimeoutRef] names. *)
Lemma one_pending_timeout s :
  reachable s → timers_match_ref s ∧ length (timers s) ≤ 1.
Proof.
  intros Hr.
  assert (Hm : timers_match_ref s); [|split; [done|]].
  2: { unfold timers_match_ref in Hm.
       rewrite <-(length_fmap fst), Hm.
       destruct (reconnectTimeoutRef s); simpl; lia. }
  revert s Hr. apply reachable_invariant; [done|].
  unfold timers_match_ref. intros s e s' IH Hstep.
  destruct e; step_inversion Hstep; simpl in *; try done;
    try (destruct Hquiet as (_ & _ & -> & _ & _ & _ & -> & _); done).
  - rewrite Htimer in IH. by rewrite clearTimeout_only.
  - rewrite Htimer in IH. by rewrite clearTimeout_only.
  - rewrite Htimer in IH. by rewrite clearTimeout_only.
  - rewrite Htimer in IH. by destruct (timers s).
  - destruct (reconnectTimeoutRef s) as [id'|]; simpl in *;
      [|rewrite IH in Hid; by apply elem_of_nil in Hid].
    rewrite IH in Hid. apply list_elem_of_singleton in Hid as ->.
    by rewrite clearTimeout_only.
  - destruct (reconnectTimeoutRef s) as [id'|]; simpl in *;
      [|rewrite IH in Hid; by apply elem_of_nil in Hid].
    rewrite IH in Hid. apply list_elem_of_singleton in Hid as ->.
    by rewrite clearTimeout_only.
  - destruct (reconnectTimeoutRef s) as [id'|]; simpl in *;
      [|rewrite IH in Hid; by apply elem_of_nil in Hid].
    rewrite IH in Hid. apply list_elem_of_singleton in Hid as ->.
    by rewrite clearTimeout_only.
Qed.

(** *** The counter at the maximum leaves no socket tracked *)

Lemma gave_up_untracked_reachable s : reachable s → gave_up_untracked s.
Proof.
  revert s. apply reachable_invariant; [done|].
  unfold gave_up_untracked, MAX_RECONNECT_ATTEMPTS.
  intros s e s' IH Hstep.
  destruct e; step_inversion Hstep; unfold MAX_RECONNECT_ATTEMPTS in *;
    simpl in *; try done; try lia; try (by auto with lia).
  all: destruct Hquiet as (_ & -> & _ & -> & _); done.
Qed.

(** *** The effect set up once *)

#[local] Arguments tracked_readyState : simpl never.

Lemma tracked_live s ws r :
  wsRef s = Some ws → states s !! ws = Some r → is_live r →
  tracked_readyState s = Some OPEN ∨ tracked_readyState s = Some CONNECTING.
Proof.
  intros Href Hws Hlive. rewrite tracked_readyState_states, Href. simpl.
  rewrite Hws. destruct Hlive as [->| ->]; auto.
Qed.

Lemma states_lookup_new s ws r :
  (states s ++ [CONNECTING]) !! ws = Some r →
  states s !! ws = Some r ∨ (ws = length (sockets s) ∧ r = CONNECTING).
Proof.
  rewrite <-states_length.
  intros [?|[Hle [Hi <-]%list_lookup_singleton_Some]]%lookup_app_Some;
    [by left|right]. split; [lia|done].
Qed.

Lemma lookup_alter_cases {A} (f : A → A) (l : list A) i j y :
  alter f i l !! j = Some y →
  (i = j ∧ ∃ x, l !! j = Some x ∧ y = f x) ∨ (i ≠ j ∧ l !! j = Some y).
Proof.
  destruct (decide (i = j)) as [->|Hne].
  - rewrite list_lookup_alter_eq. destruct (l !! j) as [x|]; simpl; [|done].
    intros [= <-]. left. eauto.
  - rewrite list_lookup_alter_ne by done. by right.
Qed.

(** *** Pending timeouts and the tracked socket *)

Lemma inactive_idle_reachable s : reachable s → inactive_idle s.
Proof.
  intros Hr. cut (reachable s ∧ inactive_idle s); [by intros [_ ?]|].
  revert s Hr.
  apply (reachable_invariant (λ s, reachable s ∧ inactive_idle s)).
  { intros cache throws. split; [by exists cache, throws, []|].
    intros _. split; [done|by right]. }
  intros s e s' [Hr IH] Hstep. split; [by eapply reachable_step|].
  pose proof (proj1 (one_pending_timeout s Hr)) as Htm.
  unfold inactive_idle, timers_match_ref in *.
  destruct e.
  - step_inversion Hstep; simpl; done.
  - step_inversion Hstep; fields; auto.
  - step_inversion Hstep; fields; intros Hin;
      rewrite readyState_of_states in Hws;
      destruct (IH Hin) as [Ht [Hu|Hnil]]; try done;
      try (by rewrite Hnil in Hws); auto.
  - step_inversion Hstep.
    destruct Hquiet as (_ & _ & -> & _ & -> & -> & _ & _ & -> & _). done.
  - step_inversion Hstep; fields; intros Hin;
      rewrite readyState_of_states in Hws;
      destruct (IH Hin) as [Ht [Hu|Hnil]]; try congruence;
      try (by rewrite Hnil in Hws); auto.
  - step_inversion Hstep; fields; intros Hin;
      destruct (IH Hin) as [Ht _]; rewrite Ht in Htm; simpl in Htm;
      rewrite Htm in Hid; by apply elem_of_nil in Hid.
  - step_inversion Hstep.
    destruct Hquiet as (_ & _ & -> & _ & -> & -> & _ & _ & -> & _). done.
  - step_inversion Hstep; fields; intros Hin;
      rewrite readyState_of_states in Hws;
      destruct (IH Hin) as [Ht [Hu|Hnil]]; try (by rewrite Hnil in Hws); auto.
Qed.

Lemma pending_untracked_reachable s : reachable s → pending_untracked s.
Proof.
  intros Hr. cut (reachable s ∧ pending_untracked s); [by intros [_ ?]|].
  revert s Hr.
  apply (reachable_invariant (λ s, reachable s ∧ pending_untracked s)).
  { intros cache throws. split; [by exists cache, throws, []|]. done. }
  intros s e s' [Hr IH] Hstep. split; [by eapply reachable_step|].
  pose proof (inactive_idle_reachable s Hr) as Hidle.
  unfold pending_untracked, inactive_idle in *.
  destruct e.
  - step_inversion Hstep; simpl; destruct (Hidle Hact) as [-> _];
      by intros [? [=]].
  - step_inversion Hstep; simpl; try done; by intros [? [=]].
  - step_inversion Hstep; simpl; try done; by intros [? [=]].
  - step_inversion Hstep.
    destruct Hquiet as (_ & -> & -> & _). done.
  - step_inversion Hstep; simpl; done.
  - step_inversion Hstep; simpl; by intros [? [=]].
  - step_inversion Hstep.
    destruct Hquiet as (_ & -> & -> & _). done.
  - step_inversion Hstep; simpl; done.
Qed.

(** A timeout that fires finds no socket tracked. *)
Lemma timeout_untracked s id :
  reachable s → id ∈ (timers s).*1 → wsRef s = None.
Proof.
  intros Hr Hid. apply (pending_untracked_reachable s Hr).
  rewrite (proj1 (one_pending_timeout s Hr)) in Hid.
  destruct (reconnectTimeoutRef s); [done|by apply elem_of_nil in Hid].
Qed.

Lemma single_mount_reachable s : reachable s → single_mount_inv s.
Proof.
  intros Hr. cut (reachable s ∧ single_mount_inv s); [by intros [_ ?]|].
  revert s Hr.
  apply (reachable_invariant (λ s, reachable s ∧ single_mount_inv s)).
  { intros cache throws. split; [by exists cache, throws, []|].
    intros _. split; [done|]. intros _. by left. }
  intros s e s' [Hr IH] Hstep. split; [by eapply reachable_step|].
  unfold single_mount_inv in *.
  destruct e.
  - (* setup *)
    step_inversion Hstep; fields; intros Hm'.
    all: destruct IH as [_ IH]; [lia|].
    all: destruct (IH Hact) as [(Hm0 & Hnil & _)|(Hm1 & _)]; [|lia].
    all: split; [intros _|done].
    all: split; [lia|split; [done|]].
    all: intros ws r; fields.
    1,2: by rewrite Hnil.
    intros [Hw|[-> ->]]%states_lookup_new; [by rewrite Hnil in Hw|].
    by right.
  - (* cleanup *)
    step_inversion Hstep; fields; intros Hm'.
    all: destruct (IH Hm') as [IHa _].
    all: destruct (IHa Hact) as (Hm1 & Hmnt & Hall).
    all: split; [done|intros _; right].
    all: split; [done|split; [done|]].
    all: intros w r; fields; intros Hw.
    + apply lookup_alter_cases in Hw as [[-> [r0 [Hr0 ->]]]|[? Hw]].
      * destruct r0; auto.
      * destruct (Hall w r Hw) as [?|?]; [by left|congruence].
    + destruct (Hall w r Hw) as [?|?]; [by left|congruence].
    + apply lookup_alter_cases in Hw as [[-> [r0 [Hr0 ->]]]|[? Hw]].
      * destruct r0; auto.
      * destruct (Hall w r Hw) as [?|?]; [by left|congruence].
    + destruct (Hall w r Hw) as [?|?]; [by left|congruence].
  - (* open *)
    step_inversion Hstep; fields; intros Hm'.
    all: rewrite readyState_of_states in Hws.
    all: destruct (IH Hm') as [IHa IHi].
    all: destruct (effectActive s) eqn:Hact.
    all: try (destruct (IHa eq_refl) as (Hm1 & Hmnt' & Hall); try congruence).
    all: try (destruct (IHi eq_refl) as [(_ & Hnil & _)|(_ & Hunm & Hall)];
              [by rewrite Hnil in Hws|try congruence]).
    1,2: split; [intros _|done]; split; [done|split; [done|]].
    1,2: intros w r; fields; intros Hw.
    1,2: apply list_lookup_insert_Some in Hw as [(-> & <- & _)|[Hne Hw]];
         [|by apply Hall].
    1,2: right; by destruct (Hall _ _ Hws) as [?|?].
    by destruct (Hall _ _ Hws).
  - (* message *)
    step_inversion Hstep.
    destruct Hquiet as (_ & -> & _ & _ & -> & -> & -> & _ & -> & ->). done.
  - (* close *)
    step_inversion Hstep; fields; intros Hm'.
    all: rewrite readyState_of_states in Hws.
    all: destruct (IH Hm') as [IHa IHi].
    all: destruct (effectActive s) eqn:Hact.
    all: try (destruct (IHa eq_refl) as (Hm1 & Hmnt' & Hall); try congruence).
    all: try (destruct (IHi eq_refl) as [(_ & Hnil & _)|(Hm1 & Hunm & Hall)];
              [by rewrite Hnil in Hws|try congruence]).
    + split; [done|intros _; right]. split; [done|split; [done|]].
      intros w r'; fields; intros Hw.
      apply list_lookup_insert_Some in Hw as [(-> & <- & _)|[Hne Hw]];
        [by left|by eapply Hall].
    + split; [intros _|done]. split; [done|split; [done|]].
      intros w r'; fields; intros Hw.
      apply list_lookup_insert_Some in Hw as [(-> & <- & _)|[Hne Hw]];
        [by left|].
      destruct (Hall w r' Hw) as [?|?]; [by left|].
      destruct (Hall ws r Hws) as [?|?]; [done|congruence].
    + split; [intros _|done]. split; [done|split; [done|]].
      intros w r'; fields; intros Hw.
      apply list_lookup_insert_Some in Hw as [(-> & <- & _)|[Hne Hw]];
        [by left|].
      destruct (Hall w r' Hw) as [?|?]; [by left|].
      destruct (Hall ws r Hws) as [?|?]; [done|congruence].
  - (* timeout *)
    pose proof (timeout_untracked s id Hr) as Hunt.
    step_inversion Hstep; fields; intros Hm'.
    all: specialize (Hunt Hid).
    all: destruct (IH Hm') as [IHa IHi].
    all: destruct (effectActive s) eqn:Hact.
    all: try (destruct (IHa eq_refl) as (Hm1 & Hmnt' & Hall)).
    all: try (destruct (IHi eq_refl) as [(_ & _ & Hnil)|(Hm1 & Hunm & Hall)];
              [rewrite Hnil in Hid; by apply elem_of_nil in Hid|]).
    all: try (split; [by intros _|done]).
    all: try (split; [done|intros _; right; done]).
    all: try congruence.
    split; [intros _|done]. split; [done|split; [done|]].
    intros w r'; fields. intros [Hw|[-> ->]]%states_lookup_new.
    + destruct (Hall w r' Hw) as [?|?]; [by left|congruence].
    + by right.
  - (* send *)
    step_inversion Hstep.
    destruct Hquiet as (_ & -> & _ & _ & -> & -> & -> & _ & -> & ->). done.
  - (* closing handshake *)
    step_inversion Hstep; fields; intros Hm'.
    rewrite readyState_of_states in Hws.
    destruct (IH Hm') as [IHa IHi]. split.
    + intros Hact. destruct (IHa Hact) as (Hm1 & Hmnt & Hall).
      split; [done|split; [done|]]. intros w r'; fields; intros Hw.
      apply list_lookup_insert_Some in Hw as [(-> & <- & _)|[Hne Hw]];
        [|by apply Hall].
      right. by destruct (Hall _ _ Hws) as [?|?].
    + intros Hact.
      destruct (IHi Hact) as [(_ & Hnil & _)|(_ & _ & Hall)];
        [by rewrite Hnil in Hws|].
      by destruct (Hall _ _ Hws).
Qed.

(** While the effect has been set up only once, at most one socket is
    connecting or open. *)
Lemma single_mount_one_live s ws1 ws2 :
  reachable s → mounts s ≤ 1 →
  live_at s ws1 → live_at s ws2 → ws1 = ws2.
Proof.
  intros Hr Hm (r1 & Hw1 & Hl1) (r2 & Hw2 & Hl2).
  destruct (single_mount_reachable s Hr Hm) as [IHa IHi].
  destruct (effectActive s).
  - destruct (IHa eq_refl) as (_ & _ & Hall).
    destruct (Hall _ _ Hw1) as [->|Href1]; [by destruct Hl1|].
    destruct (Hall _ _ Hw2) as [->|Href2]; [by destruct Hl2|].
    congruence.
  - destruct (IHi eq_refl) as [(_ & Hnil & _)|(_ & _ & Hall)];
      [by rewrite Hnil in Hw1|].
    destruct (Hall _ _ Hw1) as [-> | ->]; by destruct Hl1.
Qed.

(** While the effect has been set up only once, the counter at the
    maximum means that no socket is connecting or open. *)
Lemma single_mount_none_pending s :
  reachable s → mounts s ≤ 1 →
  MAX_RECONNECT_ATTEMPTS ≤ reconnectAttemptsRef s →
  none_connecting s.
Proof.
  intros Hr Hm Hmax. apply Forall_lookup. intros ws r Hw ->.
  pose proof (gave_up_untracked_reachable s Hr Hmax) as Href.
  destruct (single_mount_reachable s Hr Hm) as [IHa IHi].
  destruct (effectActive s).
  - destruct (IHa eq_refl) as (_ & _ & Hall).
    destruct (Hall _ _ Hw) as [?|?]; congruence.
  - destruct (IHi eq_refl) as [(_ & Hnil & _)|(_ & _ & Hall)];
      [by rewrite Hnil in Hw|].
    by destruct (Hall _ _ Hw).
Qed.

(** The same, for an execution whose effect is set up once throughout. *)
Lemma single_mount_gives_up s s' trace :
  reachable s → MAX_RECONNECT_ATTEMPTS ≤ reconnectAttemptsRef s →
  mounts s ≤ 1 →
  run s trace = Some s' →
  length (sockets s') = length (sockets s) ∧ isConnected s' = false.
Proof.
  intros Hr Hmax Hm Hrun.
  destruct (gave_up_run s trace s' Hmax (gave_up_offline s Hr Hmax)
              (single_mount_none_pending s Hr Hm Hmax) Hrun)
    as (_ & Hoff & _ & Hlen). done.
Qed.

(** While the effect has been set up only once, a socket opens only on
    a mounted provider. *)
Lemma single_mount_open_mounted s ws s' :
  reachable s → mounts s ≤ 1 →
  step s (EvOpen ws) = Some s' → isMountedRef s = true.
Proof.
  intros Hr Hm Hstep. simpl in Hstep. case_decide as Hws; [|done].
  rewrite readyState_of_states in Hws.
  destruct (single_mount_reachable s Hr Hm) as [IHa IHi].
  destruct (effectActive s).
  - by destruct (IHa eq_refl) as (_ & ? & _).
  - destruct (IHi eq_refl) as [(_ & Hnil & _)|(_ & _ & Hall)];
      [by rewrite Hnil in Hws|].
    by destruct (Hall _ _ Hws).
Qed.

Lemma pending_means_idle_reachable s : reachable s → pending_means_idle s.
Proof.
  intros Hr Hm Hsome ws r Hw.
  pose proof (pending_untracked_reachable s Hr Hsome) as Hunt.
  destruct (single_mount_reachable s Hr Hm) as [IHa IHi].
  destruct (effectActive s).
  - destruct (IHa eq_refl) as (_ & _ & Hall).
    destruct (Hall _ _ Hw) as [?|?]; [by left|congruence].
  - destruct (IHi eq_refl) as [(_ & Hnil & _)|(_ & _ & Hall)];
      [by rewrite Hnil in Hw|]. by apply (Hall ws).
Qed.

(** While the effect has been set up only once, a socket that is not
    closed is, on a mounted provider, the tracked one. *)
Lemma mounted_socket_tracked s ws r :
  reachable s → mounts s ≤ 1 → isMountedRef s = true →
  states s !! ws = Some r → r ≠ CLOSED → wsRef s = Some ws.
Proof.
  intros Hr Hm Hmounted Hws Hopen.
  destruct (single_mount_reachable s Hr Hm) as [IHa IHi].
  destruct (effectActive s).
  - destruct (IHa eq_refl) as (_ & _ & Hall).
    by destruct (Hall _ _ Hws) as [?|?].
  - destruct (IHi eq_refl) as [(_ & Hnil & _)|(_ & ? & _)];
      [by rewrite Hnil in Hws|congruence].
Qed.

(** While the effect has been set up only once, a close event that
    reaches the mounted provider finds no reconnect timeout pending: it
    is counted, and arms the one timeout with the delay of its count. *)
Lemma single_mount_close_counts s ws s' :
  reachable s → mounts s ≤ 1 → isMountedRef s = true →
  step s (EvClose ws) = Some s' →
  reconnectTimeoutRef s = None
  ∧ reconnectAttemptsRef s' = S (reconnectAttemptsRef s)
  ∧ timers s' = [(nextTimer s, reconnect_delay (S (reconnectAttemptsRef s)))].
Proof.
  intros Hr Hm Hmounted Hstep.
  assert (Hnone : reconnectTimeoutRef s = None).
  { destruct (reconnectTimeoutRef s) as [id|] eqn:Ht; [exfalso|done].
    simpl in Hstep.
    destruct (readyState_of ws s) as [r|] eqn:Hws; [|done].
    rewrite readyState_of_states in Hws.
    assert (r ≠ CLOSED) as Hopen by (intros ->; done).
    pose proof (mounted_socket_tracked s ws r Hr Hm Hmounted Hws Hopen) as Href.
    pose proof (pending_untracked_reachable s Hr) as Hunt.
    unfold pending_untracked in Hunt. rewrite Ht in Hunt.
    specialize (Hunt (mk_is_Some _ _ eq_refl)). congruence. }
  split; [done|].
  pose proof (proj1 (one_pending_timeout s Hr)) as Htm.
  unfold timers_match_ref in Htm. rewrite Hnone in Htm.
  assert (timers s = []) as Hnil by (by destruct (timers s)).
  step_inversion Hstep; simpl in *; try congruence.
  - rewrite Hnone in Htimer. by destruct Htimer.
  - by rewrite Hnil.
Qed.

(** [connect] constructs nothing while the tracked socket is connecting
    or open. *)
Lemma connect_keeps_tracked_socket s :
  tracked_readyState s = Some OPEN ∨ tracked_readyState s = Some CONNECTING →
  connect s = s.
Proof.
  intros Hlive. unfold connect. destruct (isMountedRef s); simpl; [|done].
  by destruct Hlive as [-> | ->].
Qed.

Lemma raced_reached :
  run (init ∅ false) Samples.remount_race = Some Samples.raced.
Proof. vm_compute. reflexivity. Qed.

(** C9. After the effect has been set up, cleaned up and set up again
    on the same refs, the close event of the first socket clears
    [wsRef] although the second socket is open; the reconnect timeout
    then constructs a third socket, and two sockets are live at once:
    socket 1 is OPEN and socket 2 is CONNECTING. *)
Theorem remount_race_two_live_sockets :
  reachable Samples.raced
  ∧ states Samples.raced = [CLOSED; OPEN; CONNECTING]
  ∧ live_at Samples.raced 1 ∧ live_at Samples.raced 2
  ∧ wsRef Samples.raced = Some 2
  ∧ length (timers Samples.raced) = 0
  ∧ mounts Samples.raced = 2.
Proof.
  split.
  { exists ∅, false, Samples.remount_race. apply raced_reached. }
  split; [reflexivity|].
  split; [exists OPEN; split; [reflexivity|by left]|].
  split; [exists CONNECTING; split; [reflexivity|by right]|].
  repeat split.
Qed.

(** The more usual order of the same race: the close event of the
    first socket arrives before the second socket opens. One socket is
    live, but the provider has lost track of it: [send] does nothing
    although the connection is open, and the cleanup leaves it open. *)
Lemma remount_loses_track :
  let s := default (init ∅ false)
             (run (init ∅ false)
                [EvMount; EvUnmount; EvMount; EvClose 0; EvOpen 1]) in
  states s = [CLOSED; OPEN]
  ∧ isConnected s = true ∧ wsRef s = None
  ∧ send Samples.stringify_bool true s = Returned s
  ∧ states <$> step s EvUnmount = Some [CLOSED; OPEN].
Proof. vm_compute. repeat split. Qed.

Lemma gave_up_early_reached :
  run (init ∅ false) Scenarios.remount_five_failures
  = Some Scenarios.gave_up_early.
Proof. vm_compute. reflexivity. Qed.

(** C2. Reaching the maximum does not end the attempts in every
    execution. The hook [useWebSocket], whose flag [MainLayout] hands to
    the header, has no counter: after five failures in a row it makes a
    sixth attempt, the header showing Offline meanwhile. The provider, its
    effect set up, cleaned up and set up again on the same refs, counts
    five failures while the socket of the second setup (socket 1) is
    still connecting, and gives up: the timeout armed by the fifth
    failure constructs nothing. Then socket 1 opens: [isConnected]
    becomes true and the counter 0; and when that connection closes, the
    next timeout constructs a seventh socket. *)
Theorem attempts_go_on_after_max :
  (Hook.sockets <$> Hook.run (Hook.init ∅ false) Samples.hook_five_failures
   = Some (replicate 5 (WebSocket.mk CLOSED []) ++ [WebSocket.fresh])
   ∧ Hook.MainLayout_header
       <$> Hook.run (Hook.init ∅ false) Samples.hook_five_failures
     = Some "Offline")
  ∧ reachable Scenarios.gave_up_early
  ∧ reconnectAttemptsRef Scenarios.gave_up_early = MAX_RECONNECT_ATTEMPTS
  ∧ isConnected Scenarios.gave_up_early = false
  ∧ states Scenarios.gave_up_early
    = [CLOSED; CONNECTING; CLOSED; CLOSED; CLOSED; CLOSED]
  ∧ ∃ s1 s2 s3,
      step Scenarios.gave_up_early (EvTimeout 5) = Some s1
      ∧ states s1 = states Scenarios.gave_up_early
      ∧ step s1 (EvOpen 1) = Some s2
      ∧ isConnected s2 = true ∧ reconnectAttemptsRef s2 = 0
      ∧ run s2 [EvClose 1; EvTimeout 6] = Some s3
      ∧ states s3
        = [CLOSED; CLOSED; CLOSED; CLOSED; CLOSED; CLOSED; CONNECTING]
      ∧ wsRef s3 = Some 6.
Proof.
  split; [split; vm_compute; reflexivity|].
  split.
  { exists ∅, false, Scenarios.remount_five_failures.
    apply gave_up_early_reached. }
  split; [reflexivity|]. split; [reflexivity|]. split; [reflexivity|].
  pose (s1 := default Scenarios.gave_up_early
                (step Scenarios.gave_up_early (EvTimeout 5))).
  pose (s2 := default s1 (step s1 (EvOpen 1))).
  pose (s3 := default s2 (run s2 [EvClose 1; EvTimeout 6])).
  exists s1, s2, s3. vm_compute. repeat split.
Qed.

Lemma lost_track_reached :
  run (init ∅ false) Scenarios.remount_then_open = Some Scenarios.lost_track.
Proof. vm_compute. reflexivity. Qed.

(** C10. The public [send] can drop data although the connection is
    open. After the effect has been set up, cleaned up and set up again
    on the same refs, the close event of the first socket clears
    [wsRef]; the second socket then opens, and the provider tells its
    consumers that it is connected. From then on every call of [send]
    returns normally and transmits nothing: no frame reaches the open
    socket, whatever the data. *)
Theorem send_dropped_while_open :
  reachable Scenarios.lost_track
  ∧ states Scenarios.lost_track = [CLOSED; OPEN]
  ∧ isConnected Scenarios.lost_track = true
  ∧ wsRef Scenarios.lost_track = None
  ∧ (∀ (Data : Type) (JSON_stringify : Data → Outcome string) (data : Data),
       send JSON_stringify data Scenarios.lost_track
       = Returned Scenarios.lost_track)
  ∧ (∀ serialized trace s',
       run Scenarios.lost_track (EvSend serialized :: trace) = Some s' →
       run Scenarios.lost_track trace = Some s')
  ∧ WebSocket.sent <$> sockets Scenarios.lost_track !! 1 = Some [].
Proof.
  split.
  { exists ∅, false, Scenarios.remount_then_open. apply lost_track_reached. }
  split; [reflexivity|]. split; [reflexivity|]. split; [reflexivity|].
  assert (Hsend : ∀ (Data : Type) (f : Data → Outcome string) (data : Data),
            send f data Scenarios.lost_track = Returned Scenarios.lost_track).
  { intros Data f data. unfold send.
    rewrite bool_decide_eq_false_2; [done|]. vm_compute. discriminate. }
  split; [exact Hsend|]. split; [|reflexivity].
  intros serialized trace s'.
  change (run Scenarios.lost_track (EvSend serialized :: trace))
    with (s1 ← step Scenarios.lost_track (EvSend serialized); run s1 trace).
  change (step Scenarios.lost_track (EvSend serialized))
    with (match send id serialized Scenarios.lost_track with
          | Returned s1 => Some s1
          | Raised => Some Scenarios.lost_track
          end).
  by rewrite Hsend.
Qed.

(** After unmount the open handler closes the socket and leaves the
    counter and the flag alone. *)
Lemma open_after_unmount ws s :
  isMountedRef s = false →
  onopen ws s = close_socket ws s
  ∧ reconnectAttemptsRef (onopen ws s) = reconnectAttemptsRef s
  ∧ isConnected (onopen ws s) = isConnected s.
Proof. intros Hm. unfold onopen. by rewrite Hm. Qed.

(** After five failures in a row the hook makes a sixth attempt: it has
    no attempt counter and no maximum. *)
Lemma hook_retries_without_limit :
  Hook.sockets <$> Hook.run (Hook.init ∅ false) Samples.hook_five_failures
  = Some (replicate 5 (WebSocket.mk CLOSED []) ++ [WebSocket.fresh]).
Proof. vm_compute. reflexivity. Qed.


(** ** Further properties of the executions *)

(** *** Timeouts *)

(** X1. In every execution of the provider the browser holds at most
    one pending reconnect timeout, and it is the one
    [reconnectTimeoutRef] names; a timeout that fires is therefore that
    one, and leaves none pending. *)
Theorem reconnect_timeout_unique s :
  reachable s →
  length (timers s) ≤ 1
  ∧ (timers s).*1 = option_list (reconnectTimeoutRef s)
  ∧ ∀ id s', step s (EvTimeout id) = Some s' →
      reconnectTimeoutRef s = Some id
      ∧ timers s' = [] ∧ reconnectTimeoutRef s' = None.
Proof.
  intros Hr. destruct (one_pending_timeout s Hr) as [Hm Hlen].
  split; [done|]. split; [done|].
  intros id s' Hstep. unfold timers_match_ref in Hm.
  assert (Hnamed : reconnectTimeoutRef s = Some id).
  { simpl in Hstep. destruct (decide _) as [Hin|] in Hstep; [|done].
    rewrite Hm in Hin. destruct (reconnectTimeoutRef s) as [i|]; simpl in Hin.
    - by apply list_elem_of_singleton in Hin as ->.
    - by apply elem_of_nil in Hin. }
  split; [done|].
  assert (Hr' : reachable s') by by eapply reachable_step.
  destruct (one_pending_timeout s' Hr') as [Hm' _].
  unfold timers_match_ref in Hm'.
  assert (Hnone : reconnectTimeoutRef s' = None).
  { step_inversion Hstep; done. }
  split; [|done]. rewrite Hnone in Hm'. by destruct (timers s').
Qed.

Lemma reconnect_timeout_unique_witness :
  reachable Samples.exhausted
  ∧ length (timers Samples.exhausted) ≤ 1
  ∧ ∃ s', step Samples.exhausted (EvTimeout 5) = Some s' ∧ timers s' = [].
Proof.
  assert (Hreach : reachable Samples.exhausted).
  { exists ∅, false, Samples.five_failures. apply exhausted_reached. }
  destruct (reconnect_timeout_unique Samples.exhausted Hreach)
    as (Hlen & _ & Hfire).
  split; [exact Hreach|]. split; [exact Hlen|].
  pose (s' := default Samples.exhausted (step Samples.exhausted (EvTimeout 5))).
  assert (Hstep : step Samples.exhausted (EvTimeout 5) = Some s')
    by (vm_compute; reflexivity).
  exists s'. split; [exact Hstep|]. exact (proj1 (proj2 (Hfire 5 s' Hstep))).
Defined.

(** *** Connected *)

(** X2. In every execution, while [isConnected] is true the
    failed-attempt counter is 0 and no reconnect is pending: only the
    open handler sets the flag, and it resets both; the close handler,
    which raises the counter and arms the timeout, clears the flag. *)
Theorem connected_means_settled s :
  reachable s → isConnected s = true →
  reconnectAttemptsRef s = 0 ∧ reconnectTimeoutRef s = None ∧ timers s = [].
Proof.
  intros Hr Hc.
  assert (Hk : reconnectAttemptsRef s = 0 ∧ reconnectTimeoutRef s = None).
  { revert s Hr Hc.
    apply (reachable_invariant
             (λ s, isConnected s = true →
                   reconnectAttemptsRef s = 0 ∧ reconnectTimeoutRef s = None));
      [done|].
    intros s e s' IH Hstep.
    destruct e; step_inversion Hstep; simpl in *; try done;
      try (intros Hc; by destruct (IH Hc)).
    all: destruct Hquiet as (-> & _ & -> & -> & _); done. }
  destruct Hk as [Ha Ht]. split; [done|]. split; [done|].
  destruct (one_pending_timeout s Hr) as [Hm _]. unfold timers_match_ref in Hm.
  rewrite Ht in Hm. by destruct (timers s).
Qed.

Lemma connected_means_settled_witness :
  reachable Samples.connected
  ∧ isConnected Samples.connected = true
  ∧ reconnectAttemptsRef Samples.connected = 0
  ∧ timers Samples.connected = [].
Proof.
  assert (Hreach : reachable Samples.connected).
  { exists Samples.dashboard_cache, false, [EvMount; EvOpen 0].
    apply connected_reached. }
  destruct (connected_means_settled Samples.connected Hreach eq_refl)
    as (Ha & _ & Ht).
  split; [exact Hreach|]. split; [reflexivity|]. split; [exact Ha|exact Ht].
Defined.

(** *** After the cleanup *)

Lemma unmounted_untracked s :
  reachable s → isMountedRef s = false →
  wsRef s = None ∧ reconnectTimeoutRef s = None.
Proof.
  revert s.
  apply (reachable_invariant
           (λ s, isMountedRef s = false →
                 wsRef s = None ∧ reconnectTimeoutRef s = None)); [done|].
  intros s e s' IH Hstep.
  destruct e; step_inversion Hstep; simpl in *; try done;
    try (intros Hu; by destruct (IH Hu)); try congruence; try (by auto).
  all: destruct Hquiet as (_ & -> & -> & _ & -> & _); done.
Qed.

(** What an unmounted provider with nothing tracked and nothing pending
    does with an event other than a new setup of the effect. *)
Lemma unmounted_step s e s' :
  isMountedRef s = false → wsRef s = None → timers s = [] →
  reconnectTimeoutRef s = None →
  e ≠ EvMount → step s e = Some s' →
  isMountedRef s' = false ∧ wsRef s' = None ∧ timers s' = []
  ∧ reconnectTimeoutRef s' = None
  ∧ length (sockets s') = length (sockets s)
  ∧ isConnected s' = isConnected s
  ∧ reconnectAttemptsRef s' = reconnectAttemptsRef s
  ∧ queryClient s' = queryClient s.
Proof.
  intros Hu Href Ht Htr Hne Hstep. destruct e; simpl in Hstep; try done.
  - destruct (effectActive s); [|done]. injection Hstep as <-.
    unfold effect_cleanup, clear_reconnect. simpl. rewrite Htr. simpl.
    rewrite Href. done.
  - case_decide; [|done]. injection Hstep as <-.
    unfold onopen. simpl. rewrite Hu. simpl.
    by rewrite length_alter, length_alter.
  - case_decide; [|done]. injection Hstep as <-.
    unfold onmessage. by rewrite Hu.
  - destruct (readyState_of ws s) as [[]|]; try done;
      injection Hstep as <-; unfold onclose; simpl; rewrite Hu; simpl;
      by rewrite length_alter.
  - rewrite Ht in Hstep. case_decide as Hin; [|done].
    by apply elem_of_nil in Hin.
  - unfold send in Hstep. rewrite tracked_readyState_states, Href in Hstep.
    simpl in Hstep. by injection Hstep as <-.
  - case_decide; [|done]. injection Hstep as <-. simpl.
    by rewrite length_alter.
Qed.

(** X3. In every execution, once the cleanup of the effect has run
    ([isMountedRef] false) the provider tracks no socket and has no
    timeout pending; and whatever happens then, short of a new setup of
    the effect, it constructs no socket, arms no timeout, ignores every
    message (the query cache stays as it is) and leaves [isConnected]
    and the counter alone. *)
Theorem cleanup_is_final s trace s' :
  reachable s → isMountedRef s = false → EvMount ∉ trace →
  run s trace = Some s' →
  (wsRef s = None ∧ timers s = [])
  ∧ isMountedRef s' = false ∧ wsRef s' = None ∧ timers s' = []
  ∧ length (sockets s') = length (sockets s)
  ∧ isConnected s' = isConnected s
  ∧ reconnectAttemptsRef s' = reconnectAttemptsRef s
  ∧ queryClient s' = queryClient s.
Proof.
  intros Hr Hu Hno Hrun.
  destruct (unmounted_untracked s Hr Hu) as [Href Htr].
  assert (Ht : timers s = []).
  { destruct (one_pending_timeout s Hr) as [Hm _].
    unfold timers_match_ref in Hm. rewrite Htr in Hm. by destruct (timers s). }
  split; [done|]. clear Hr.
  revert s Hu Href Htr Ht Hrun.
  induction trace as [|e trace IH]; intros s Hu Href Htr Ht Hrun; simpl in *.
  - by injection Hrun as <-.
  - destruct (step s e) as [s1|] eqn:Hstep; simpl in *; [|done].
    apply not_elem_of_cons in Hno as [Hne Hno].
    destruct (unmounted_step s e s1 Hu Href Ht Htr (not_eq_sym Hne) Hstep)
      as (Hu1 & Href1 & Ht1 & Htr1 & <- & <- & <- & <-).
    by apply IH.
Qed.

Lemma cleanup_is_final_witness :
  ∃ s s',
    run (init Samples.dashboard_cache false) [EvMount; EvOpen 0; EvUnmount]
    = Some s
    ∧ isMountedRef s = false
    ∧ run s [EvClose 0; EvSend (Returned "hello")] = Some s'
    ∧ timers s' = [] ∧ length (sockets s') = 1.
Proof.
  pose (tr := [EvMount; EvOpen 0; EvUnmount]).
  pose (s := Provider.mkState true None None 0 false [WebSocket.mk CLOSING []]
               [] 1 Samples.dashboard_cache false false 1).
  assert (Hs : run (init Samples.dashboard_cache false) tr = Some s)
    by reflexivity.
  pose (tr' := [EvClose 0; EvSend (Returned "hello")]).
  pose (s' := default s (run s tr')).
  assert (Hrun : run s tr' = Some s') by reflexivity.
  assert (Hr : reachable s) by (by exists Samples.dashboard_cache, false, tr).
  assert (Hno : EvMount ∉ tr').
  { unfold tr'. rewrite !not_elem_of_cons.
    repeat split; try discriminate. apply not_elem_of_nil. }
  exists s, s'. split; [exact Hs|]. split; [reflexivity|].
  split; [exact Hrun|].
  destruct (cleanup_is_final s tr' s' Hr eq_refl Hno Hrun)
    as (_ & _ & _ & Ht & Hlen & _).
  split; [exact Ht|]. rewrite Hlen. reflexivity.
Defined.

(** *** The effect set up once: sockets *)

(** X4. While the effect has been set up only once, a socket that is
    connecting or open is the one [wsRef] tracks, and the effect is
    active: there is at most one such socket, and none before the setup
    or after the cleanup. *)
Theorem live_socket_is_tracked s ws :
  reachable s → mounts s ≤ 1 → live_at s ws →
  wsRef s = Some ws ∧ effectActive s = true
  ∧ ∀ ws', live_at s ws' → ws' = ws.
Proof.
  intros Hr Hm (r & Hw & Hl).
  destruct (single_mount_reachable s Hr Hm) as [IHa IHi].
  destruct (effectActive s).
  - destruct (IHa eq_refl) as (_ & _ & Hall).
    destruct (Hall _ _ Hw) as [->|Href]; [by destruct Hl|].
    split; [done|]. split; [done|]. intros ws' (r' & Hw' & Hl').
    destruct (Hall _ _ Hw') as [->|Href']; [by destruct Hl'|congruence].
  - destruct (IHi eq_refl) as [(_ & Hnil & _)|(_ & _ & Hall)];
      [by rewrite Hnil in Hw|].
    destruct (Hall _ _ Hw) as [-> | ->]; by destruct Hl.
Qed.

Lemma live_socket_is_tracked_witness :
  reachable Samples.retrying
  ∧ live_at Samples.retrying 4
  ∧ wsRef Samples.retrying = Some 4
  ∧ ∀ ws', live_at Samples.retrying ws' → ws' = 4.
Proof.
  assert (Hreach : reachable Samples.retrying).
  { exists ∅, false, (take 9 Samples.five_failures). apply retrying_reached. }
  assert (Hlive : live_at Samples.retrying 4).
  { exists CONNECTING. split; [reflexivity|by right]. }
  destruct (live_socket_is_tracked Samples.retrying 4 Hreach (le_n 1) Hlive)
    as (Href & _ & Hone).
  split; [exact Hreach|]. split; [exact Hlive|]. split; [exact Href|exact Hone].
Defined.

Lemma tracked_open_connect s :
  tracked_readyState s = Some OPEN → connect s = s.
Proof. intros Ho. apply connect_keeps_tracked_socket. by left. Qed.

(** While the effect, set up once, is active, [isConnected] says
    whether the open event of the tracked socket was delivered. *)
Lemma flag_follows_socket s :
  reachable s → mounts s ≤ 1 →
  (mounts s = 0 → isConnected s = false)
  ∧ (effectActive s = true → (isConnected s = true ↔ tracked_opened s)).
Proof.
  intros Hr.
  cut (reachable s
       ∧ (mounts s ≤ 1 →
          (mounts s = 0 → isConnected s = false)
          ∧ (effectActive s = true →
             (isConnected s = true ↔ tracked_opened s))));
    [by intros [_ ?]|].
  revert s Hr.
  apply (reachable_invariant
           (λ s, reachable s
                 ∧ (mounts s ≤ 1 →
                    (mounts s = 0 → isConnected s = false)
                    ∧ (effectActive s = true →
                       (isConnected s = true ↔ tracked_opened s))))).
  { intros cache throws. split; [by exists cache, throws, []|].
    intros _. split; [done|]. done. }
  intros s e s' [Hr IH] Hstep. split; [by eapply reachable_step|].
  pose proof (single_mount_reachable s Hr) as Hsm.
  unfold single_mount_inv, tracked_opened in *.
  destruct e.
  - step_inversion Hstep; rewrite ?tracked_readyState_states; fields; intros Hm'.
    all: destruct Hsm as [_ Hsm]; [lia|].
    all: destruct (Hsm Hact) as [(Hm0 & Hnil & _)|(Hm1 & _)]; [|lia].
    all: destruct IH as [IH _]; [lia|]; specialize (IH Hm0).
    all: split; [lia|intros _]; rewrite ?IH, <-?states_length, ?Hnil.
    1,2: destruct (wsRef s); simpl; split; try done; by intros [?|?].
    rewrite lookup_app_r, Nat.sub_diag by done. simpl.
    split; [done|by intros [?|?]].
  - step_inversion Hstep; rewrite ?tracked_readyState_states; fields; intros Hm'.
    all: destruct (Hsm Hm') as [IHa _]; destruct (IHa Hact) as (Hm1 & _).
    all: split; [lia|done].
  - step_inversion Hstep; rewrite ?tracked_readyState_states; fields; intros Hm'.
    all: rewrite readyState_of_states in Hws.
    all: destruct (Hsm Hm') as [IHa IHi].
    all: destruct (effectActive s) eqn:Hact.
    all: try (destruct (IHa eq_refl) as (Hm1 & Hmnt' & Hall); try congruence).
    all: try (destruct (IHi eq_refl) as [(_ & Hnil & _)|(Hm1 & Hunm & Hall)];
              [by rewrite Hnil in Hws|try congruence]).
    1,2: split; [lia|intros _].
    1,2: destruct (Hall _ _ Hws) as [?| ->]; [done|]; simpl.
    1,2: rewrite list_lookup_insert_eq; [by split; [left|]|by eapply lookup_lt_Some].
    split; [lia|done].
  - step_inversion Hstep. rewrite !tracked_readyState_states in IH |- *.
    destruct Hquiet as (-> & -> & _ & _ & _ & -> & _ & _ & -> & ->). done.
  - step_inversion Hstep; rewrite ?tracked_readyState_states; fields; intros Hm'.
    all: rewrite readyState_of_states in Hws.
    all: destruct (Hsm Hm') as [IHa IHi].
    all: destruct (effectActive s) eqn:Hact.
    all: try (destruct (IHa eq_refl) as (Hm1 & Hmnt' & Hall); try congruence).
    all: try (destruct (IHi eq_refl) as [(_ & Hnil & _)|(Hm1 & Hunm & Hall)];
              [by rewrite Hnil in Hws|try congruence]).
    all: (split; [lia|]); try done.
    all: intros _; split; [done|by intros [?|?]].
  - pose proof (timeout_untracked s id Hr) as Hunt.
    step_inversion Hstep; rewrite ?tracked_readyState_states in *; fields;
      intros Hm'; specialize (Hunt Hid); destruct (IH Hm') as [IH0 IHa].
    + rewrite Hunt in *. done.
    + rewrite Hunt. split; [done|]. intros _. simpl.
      split; [done|by intros [?|?]].
    + split; [done|]. intros Hact. specialize (IHa Hact).
      rewrite Hunt in IHa. simpl in IHa.
      rewrite <-states_length, lookup_app_r, Nat.sub_diag by done. simpl.
      split; [|by intros [?|?]]. intros Hc. by apply IHa in Hc as [?|?].
  - step_inversion Hstep. rewrite !tracked_readyState_states in IH |- *.
    destruct Hquiet as (-> & -> & _ & _ & _ & -> & _ & _ & -> & ->). done.
  - step_inversion Hstep; rewrite ?tracked_readyState_states in *; fields;
      intros Hm'.
    rewrite readyState_of_states in Hws.
    destruct (IH Hm') as [IH0 IHa]. split; [done|]. intros Hact.
    destruct (Hsm Hm') as [Ha _]. destruct (Ha Hact) as (_ & _ & Hall).
    destruct (Hall _ _ Hws) as [?|Href]; [done|].
    specialize (IHa Hact). rewrite Href in IHa |- *. simpl in *.
    rewrite list_lookup_insert_eq by (by eapply lookup_lt_Some).
    split; [by right|]. intros _. apply IHa. left. done.
Qed.

(** X5. While the effect, set up once, is active, the [isConnected]
    flag the provider hands to its consumers is true exactly from the
    open event of the tracked socket to its close event: exactly while
    the tracked socket is open, or closing. So an open socket is always
    shown as connected; but once the server has started the closing
    handshake the flag stays true, with no socket open, until the close
    event arrives. *)
Theorem connected_from_open_to_close s :
  reachable s → mounts s ≤ 1 → effectActive s = true →
  (isConnected s = true
   ↔ ∃ ws, wsRef s = Some ws
           ∧ (readyState_of ws s = Some OPEN
              ∨ readyState_of ws s = Some CLOSING))
  ∧ ((∃ ws, readyState_of ws s = Some OPEN) → isConnected s = true)
  ∧ (∀ ws s', step s (EvClosing ws) = Some s' →
       isConnected s' = true ∧ ∀ w, readyState_of w s' ≠ Some OPEN).
Proof.
  assert (Hiff : ∀ s, reachable s → mounts s ≤ 1 → effectActive s = true →
            (isConnected s = true
             ↔ ∃ ws, wsRef s = Some ws
                     ∧ (readyState_of ws s = Some OPEN
                        ∨ readyState_of ws s = Some CLOSING))).
  { clear s. intros s Hr Hm Hact.
    destruct (flag_follows_socket s Hr Hm) as [_ Hflag].
    specialize (Hflag Hact). rewrite Hflag.
    unfold tracked_opened. rewrite tracked_readyState_states.
    split.
    - destruct (wsRef s) as [ws|]; simpl; [|by intros [?|?]].
      intros Hst. exists ws. by rewrite readyState_of_states.
    - intros (ws & -> & Hst). by rewrite readyState_of_states in Hst. }
  assert (Hopen : ∀ s ws, reachable s → mounts s ≤ 1 → effectActive s = true →
            readyState_of ws s = Some OPEN → wsRef s = Some ws).
  { clear s. intros s ws Hr Hm Hact Hws. rewrite readyState_of_states in Hws.
    destruct (single_mount_reachable s Hr Hm) as [IHa _].
    destruct (IHa Hact) as (_ & _ & Hall).
    by destruct (Hall _ _ Hws) as [?|?]. }
  intros Hr Hm Hact. split; [by apply Hiff|]. split.
  - intros [ws Hws]. apply (Hiff s Hr Hm Hact). exists ws.
    split; [by apply Hopen|by left].
  - intros ws s' Hstep.
    assert (Hr' : reachable s') by (by eapply reachable_step).
    simpl in Hstep. destruct (decide _) as [Hws|] in Hstep; [|done].
    injection Hstep as <-.
    pose proof (Hopen s ws Hr Hm Hact Hws) as Href.
    assert (Hst : readyState_of ws (set_readyState ws CLOSING s) = Some CLOSING).
    { rewrite readyState_of_states in Hws |- *. fields.
      apply list_lookup_insert_eq. by eapply lookup_lt_Some. }
    split.
    + apply (Hiff _ Hr' Hm Hact). exists ws. split; [done|by right].
    + intros w Hw. pose proof (Hopen _ w Hr' Hm Hact Hw) as Href'.
      simpl in Href'. congruence.
Qed.

Lemma closing_started_reached :
  run (init Samples.dashboard_cache false) Scenarios.server_closes
  = Some Scenarios.closing_started.
Proof. reflexivity. Qed.

Lemma connected_from_open_to_close_witness :
  reachable Scenarios.closing_started
  ∧ (isConnected Scenarios.closing_started = true
     ↔ ∃ ws, wsRef Scenarios.closing_started = Some ws
             ∧ (readyState_of ws Scenarios.closing_started = Some OPEN
                ∨ readyState_of ws Scenarios.closing_started = Some CLOSING))
  ∧ states Scenarios.closing_started = [CLOSING]
  ∧ reachable Samples.retrying
  ∧ (isConnected Samples.retrying = true
     ↔ ∃ ws, wsRef Samples.retrying = Some ws
             ∧ (readyState_of ws Samples.retrying = Some OPEN
                ∨ readyState_of ws Samples.retrying = Some CLOSING)).
Proof.
  assert (Hc : reachable Scenarios.closing_started).
  { exists Samples.dashboard_cache, false, Scenarios.server_closes.
    apply closing_started_reached. }
  assert (Hr : reachable Samples.retrying).
  { exists ∅, false, (take 9 Samples.five_failures). apply retrying_reached. }
  split; [exact Hc|]. split.
  { exact (proj1 (connected_from_open_to_close Scenarios.closing_started Hc
                    (le_n 1) eq_refl)). }
  split; [reflexivity|]. split; [exact Hr|].
  exact (proj1 (connected_from_open_to_close Samples.retrying Hr (le_n 1)
                  eq_refl)).
Defined.

(** While the effect has been set up only once, an open socket is the
    one [wsRef] tracks, so the public [send] does transmit on it:
    exactly the text [JSON.stringify(data)] is appended to its frames. *)
Lemma single_mount_send_transmits {Data : Type}
    (JSON_stringify : Data → Outcome string) (data : Data) s ws k text :
  reachable s → mounts s ≤ 1 →
  sockets s !! ws = Some k → WebSocket.readyState k = OPEN →
  JSON_stringify data = Returned text →
  send JSON_stringify data s
  = Returned (set_sockets
                (<[ws := WebSocket.mk OPEN (WebSocket.sent k ++ [text])]>
                   (sockets s)) s).
Proof.
  intros Hr Hm Hk Hopen Hstr.
  assert (Hws : states s !! ws = Some OPEN).
  { unfold states. by rewrite list_lookup_fmap, Hk, <-Hopen. }
  assert (Href : wsRef s = Some ws).
  { destruct (single_mount_reachable s Hr Hm) as [IHa IHi].
    destruct (effectActive s).
    - destruct (IHa eq_refl) as (_ & _ & Hall).
      by destruct (Hall _ _ Hws) as [?|?].
    - destruct (IHi eq_refl) as [(_ & Hnil & _)|(_ & _ & Hall)];
        [by rewrite Hnil in Hws|].
      by destruct (Hall _ _ Hws). }
  by apply (proj2 (Handlers.send_on_tracked_socket JSON_stringify data s)).
Qed.

(** *** The effect set up once: the counter *)

(** A socket whose close event reaches the mounted provider is the
    tracked one, so the counter is below the maximum. *)
Lemma mounted_close_tracked s ws r :
  reachable s → mounts s ≤ 1 → isMountedRef s = true →
  states s !! ws = Some r → r ≠ CLOSED →
  wsRef s = Some ws ∧ reconnectAttemptsRef s < MAX_RECONNECT_ATTEMPTS.
Proof.
  intros Hr Hm Hmounted Hws Hopen.
  pose proof (mounted_socket_tracked s ws r Hr Hm Hmounted Hws Hopen) as Href.
  split; [done|].
  pose proof (gave_up_untracked_reachable s Hr) as Hgave.
  unfold gave_up_untracked in Hgave.
  destruct (decide (MAX_RECONNECT_ATTEMPTS ≤ reconnectAttemptsRef s)) as [Hmax|];
    [|lia].
  specialize (Hgave Hmax). congruence.
Qed.

(** X6. While the effect has been set up only once, the failed-attempt
    counter never exceeds the maximum: a close event is counted only
    for the tracked socket, and none is tracked once the counter is at
    the maximum. *)
Theorem attempts_never_exceed_max s :
  reachable s → mounts s ≤ 1 →
  reconnectAttemptsRef s ≤ MAX_RECONNECT_ATTEMPTS.
Proof.
  intros Hr.
  cut (reachable s
       ∧ (mounts s ≤ 1 → reconnectAttemptsRef s ≤ MAX_RECONNECT_ATTEMPTS));
    [by intros [_ ?]|].
  revert s Hr.
  apply (reachable_invariant
           (λ s, reachable s
                 ∧ (mounts s ≤ 1 →
                    reconnectAttemptsRef s ≤ MAX_RECONNECT_ATTEMPTS))).
  { intros cache throws. split; [by exists cache, throws, []|].
    unfold MAX_RECONNECT_ATTEMPTS. simpl. lia. }
  intros s e s' [Hr IH] Hstep. split; [by eapply reachable_step|].
  destruct e.
  - step_inversion Hstep; simpl; intros Hm'; apply IH; lia.
  - step_inversion Hstep; simpl; done.
  - step_inversion Hstep; simpl; try done. all: intros _; lia.
  - step_inversion Hstep.
    destruct Hquiet as (_ & _ & _ & -> & _ & _ & _ & _ & _ & ->). done.
  - step_inversion Hstep; fields; try done.
    intros Hm'. rewrite readyState_of_states in Hws.
    destruct (mounted_close_tracked s ws r Hr Hm' Hmnt Hws Hopen) as [_ Hlt].
    lia.
  - step_inversion Hstep; simpl; done.
  - step_inversion Hstep.
    destruct Hquiet as (_ & _ & _ & -> & _ & _ & _ & _ & _ & ->). done.
  - step_inversion Hstep; simpl; done.
Qed.

Lemma attempts_never_exceed_max_witness :
  reachable Samples.exhausted
  ∧ reconnectAttemptsRef Samples.exhausted = 5
  ∧ ∃ s', step Samples.exhausted (EvTimeout 5) = Some s'
          ∧ reconnectAttemptsRef s' ≤ 5.
Proof.
  assert (Hreach : reachable Samples.exhausted).
  { exists ∅, false, Samples.five_failures. apply exhausted_reached. }
  split; [exact Hreach|]. split; [reflexivity|].
  pose (s' := default Samples.exhausted (step Samples.exhausted (EvTimeout 5))).
  assert (Hstep : step Samples.exhausted (EvTimeout 5) = Some s')
    by (vm_compute; reflexivity).
  exists s'. split; [exact Hstep|].
  apply (attempts_never_exceed_max s').
  - exact (reachable_step _ _ _ Hreach Hstep).
  - vm_compute. reflexivity.
Defined.

Lemma backoff_stays_below_cap (n : nat) :
  n < MAX_RECONNECT_ATTEMPTS →
  (reconnect_delay (S n) == 3000 * Qpower (3 # 2) (Z.of_nat n))%Q
  ∧ (reconnect_delay (S n) < 30000)%Q.
Proof.
  unfold MAX_RECONNECT_ATTEMPTS. intros Hlt.
  destruct n as [|[|[|[|[|n]]]]]; try lia; split; vm_compute; reflexivity.
Qed.

(** X7. While the effect has been set up only once, every close event
    that reaches the mounted provider is the tracked socket's, finds no
    timeout pending and is counted: the flag goes false, nothing is
    tracked any more, the counter goes up by one and exactly one timeout
    is armed. Its delay is 3000 * 1.5^k ms for the k failures counted
    before, and stays below the 30 s cap, which the maximum of 5
    attempts keeps out of reach. *)
Theorem close_is_counted s ws s' :
  reachable s → mounts s ≤ 1 → isMountedRef s = true →
  step s (EvClose ws) = Some s' →
  wsRef s = Some ws ∧ reconnectTimeoutRef s = None
  ∧ isConnected s' = false ∧ wsRef s' = None
  ∧ reconnectAttemptsRef s' = S (reconnectAttemptsRef s)
  ∧ ∃ d, timers s' = [(nextTimer s, d)]
         ∧ (d == 3000 * Qpower (3 # 2) (Z.of_nat (reconnectAttemptsRef s)))%Q
         ∧ (d < 30000)%Q.
Proof.
  intros Hr Hm Hmounted Hstep.
  destruct (single_mount_close_counts s ws s' Hr Hm Hmounted Hstep)
    as (Hnone & Hcount & Htimers).
  assert (Htracked : wsRef s = Some ws
                     ∧ reconnectAttemptsRef s < MAX_RECONNECT_ATTEMPTS).
  { simpl in Hstep. destruct (readyState_of ws s) as [r|] eqn:Hws; [|done].
    rewrite readyState_of_states in Hws.
    apply (mounted_close_tracked s ws r); try done. by intros ->. }
  destruct Htracked as [Href Hlt].
  split; [done|]. split; [done|].
  assert (Hoff : isConnected s' = false ∧ wsRef s' = None).
  { step_inversion Hstep; simpl in *; try done. congruence. }
  destruct Hoff as [Hoff Hunt]. split; [done|]. split; [done|]. split; [done|].
  exists (reconnect_delay (S (reconnectAttemptsRef s))). split; [done|].
  by apply backoff_stays_below_cap.
Qed.

Lemma close_is_counted_witness :
  reachable Samples.retrying
  ∧ isMountedRef Samples.retrying = true
  ∧ ∃ s' d, step Samples.retrying (EvClose 4) = Some s'
            ∧ reconnectAttemptsRef s' = 5
            ∧ timers s' = [(5, d)] ∧ (d < 30000)%Q.
Proof.
  assert (Hreach : reachable Samples.retrying).
  { exists ∅, false, (take 9 Samples.five_failures). apply retrying_reached. }
  split; [exact Hreach|]. split; [reflexivity|].
  pose (s' := default Samples.retrying (step Samples.retrying (EvClose 4))).
  assert (Hstep : step Samples.retrying (EvClose 4) = Some s')
    by (vm_compute; reflexivity).
  destruct (close_is_counted Samples.retrying 4 s' Hreach (le_n 1) eq_refl Hstep)
    as (_ & _ & _ & _ & Hcount & d & Htimers & _ & Hcap).
  exists s', d. split; [exact Hstep|]. split; [exact Hcount|].
  split; [exact Htimers|exact Hcap].
Defined.

(** *** Messages and sends *)

(** X8. A server ping that the browser delivers on socket [ws] to a
    mounted provider is answered on that same socket with exactly one
    frame, "pong", appended after the frames sent before; nothing else
    changes. An unmounted provider does not answer. *)
Theorem ping_answered_with_pong s ws data s' :
  get_type data = Returned (Some (JStr "ping")) →
  step s (EvMessage ws (Returned data)) = Some s' →
  (isMountedRef s = true →
     ∃ k, sockets s !! ws = Some k
          ∧ s' = set_sockets
                   (<[ws := WebSocket.mk OPEN (WebSocket.sent k ++ ["pong"])]>
                      (sockets s)) s)
  ∧ (isMountedRef s = false → s' = s).
Proof.
  intros Hty Hstep. simpl in Hstep. case_decide as Hws; [|done].
  injection Hstep as <-. split.
  - intros Hm. unfold readyState_of in Hws.
    destruct (sockets s !! ws) as [k|] eqn:Hk; [|done].
    injection Hws as Hopen. exists k. split; [done|].
    by apply Handlers.provider_answers_ping.
  - intros Hu. unfold onmessage. by rewrite Hu.
Qed.

Lemma ping_answered_with_pong_witness :
  ∃ s', step Samples.connected (EvMessage 0 (Returned Samples.ping)) = Some s'
        ∧ s' = set_sockets [WebSocket.mk OPEN ["pong"]] Samples.connected.
Proof.
  pose (s' := onmessage 0 (Returned Samples.ping) Samples.connected).
  assert (Hstep : step Samples.connected (EvMessage 0 (Returned Samples.ping))
                  = Some s') by reflexivity.
  exists s'. split; [exact Hstep|].
  destruct (proj1 (ping_answered_with_pong Samples.connected 0 Samples.ping s'
                     eq_refl Hstep) eq_refl) as (k & Hk & Hs').
  injection Hk as <-. exact Hs'.
Defined.

(** X9. Neither an incoming message nor a call of the public [send]
    touches the connection logic: the flag, the refs, the counter, the
    state of every socket and the pending timeouts are afterwards what
    they were. *)
Theorem traffic_leaves_connection_alone s e s' :
  (∃ ws parsed, e = EvMessage ws parsed) ∨ (∃ p, e = EvSend p) →
  step s e = Some s' →
  isConnected s' = isConnected s ∧ wsRef s' = wsRef s
  ∧ reconnectTimeoutRef s' = reconnectTimeoutRef s
  ∧ reconnectAttemptsRef s' = reconnectAttemptsRef s
  ∧ isMountedRef s' = isMountedRef s
  ∧ states s' = states s ∧ timers s' = timers s.
Proof.
  intros He Hstep.
  destruct (control_fields s s' (quiet_step s e s' Hstep He))
    as (? & ? & ? & ? & ? & ? & ? & _). done.
Qed.

Lemma traffic_leaves_connection_alone_witness :
  ∃ s', step Samples.connected (EvMessage 0 (Returned Samples.ping)) = Some s'
        ∧ isConnected s' = true ∧ states s' = [OPEN] ∧ timers s' = [].
Proof.
  pose (s' := onmessage 0 (Returned Samples.ping) Samples.connected).
  assert (Hstep : step Samples.connected (EvMessage 0 (Returned Samples.ping))
                  = Some s') by reflexivity.
  exists s'. split; [exact Hstep|].
  destruct (traffic_leaves_connection_alone Samples.connected _ s'
              (or_introl (ex_intro _ 0 (ex_intro _ _ eq_refl))) Hstep)
    as (Hc & _ & _ & _ & _ & Hst & Ht).
  split; [exact Hc|]. split; [exact Hst|exact Ht].
Defined.

Lemma strict_eq_true ty lit : strict_eq ty lit = true → ty = Some (JStr lit).
Proof.
  destruct ty as [[]|]; simpl; try done. by intros ->%bool_decide_eq_true.
Qed.

Lemma get_type_returned data ty :
  get_type data = Returned (Some ty) →
  ∃ fields, data = JObj fields ∧ assoc "type" fields = Some ty.
Proof. destruct data; simpl; try done. intros [= ?]. eauto. Qed.

(** X10. A message changes the state only if it parses to an object
    whose "type" is one of the strings the handler knows: "ping",
    "score_updated" or "alert_created" for the provider (and only while
    it is mounted), the last two for the hook. Text that does not
    parse, [null], a number, a string, an array, an object without a
    string "type" or of another type (the handshake "connected"
    included) leave the state as it is: the exceptions are caught. *)
Theorem only_known_types_act :
  (∀ ws parsed s,
     onmessage ws parsed s ≠ s →
     isMountedRef s = true
     ∧ ∃ fields t, parsed = Returned (JObj fields)
                   ∧ assoc "type" fields = Some (JStr t)
                   ∧ t ∈ ["ping"; "score_updated"; "alert_created"])
  ∧ (∀ ws parsed h,
       Hook.onmessage ws parsed h ≠ h →
       ∃ fields t, parsed = Returned (JObj fields)
                   ∧ assoc "type" fields = Some (JStr t)
                   ∧ t ∈ ["score_updated"; "alert_created"]).
Proof.
  split.
  - intros ws parsed s. unfold onmessage.
    destruct (isMountedRef s); simpl; [|done].
    destruct parsed as [data|]; [|done].
    destruct (get_type data) as [ty|] eqn:Hty; [|done].
    intros Hne. split; [done|].
    assert (Hknown : ∃ t, ty = Some (JStr t)
                          ∧ t ∈ ["ping"; "score_updated"; "alert_created"]).
    { destruct (strict_eq ty "ping") eqn:Hp.
      { apply strict_eq_true in Hp. eexists. split; [done|set_solver]. }
      destruct (strict_eq ty "connected"); [done|].
      destruct (strict_eq ty "score_updated") eqn:Hs.
      { apply strict_eq_true in Hs. eexists. split; [done|set_solver]. }
      destruct (strict_eq ty "alert_created") eqn:Ha; [|done].
      apply strict_eq_true in Ha. eexists. split; [done|set_solver]. }
    destruct Hknown as (t & -> & Hin).
    destruct (get_type_returned _ _ Hty) as (fields & -> & Hassoc).
    by exists fields, t.
  - intros ws parsed h. unfold Hook.onmessage.
    destruct parsed as [data|]; [|done].
    destruct (get_type data) as [ty|] eqn:Hty; [|done].
    intros Hne.
    assert (Hknown : ∃ t, ty = Some (JStr t)
                          ∧ t ∈ ["score_updated"; "alert_created"]).
    { destruct (strict_eq ty "score_updated") eqn:Hs.
      { apply strict_eq_true in Hs. eexists. split; [done|set_solver]. }
      destruct (strict_eq ty "alert_created") eqn:Ha; [|done].
      apply strict_eq_true in Ha. eexists. split; [done|set_solver]. }
    destruct Hknown as (t & -> & Hin).
    destruct (get_type_returned _ _ Hty) as (fields & -> & Hassoc).
    by exists fields, t.
Qed.

Lemma invalidateQueries_data key cache k :
  QueryClient.data <$> QueryClient.invalidateQueries key cache !! k
  = QueryClient.data <$> cache !! k.
Proof.
  rewrite Handlers.invalidateQueries_lookup.
  destruct (cache !! k) as [q|]; simpl; [|done]. by case_decide.
Qed.

(** X11. No message ever drops a cached query or changes its data:
    invalidation only marks. And no message touches a query whose key
    starts with neither "compliance-score" nor "alerts". This holds for
    the provider's handler and for the hook's. *)
Theorem messages_keep_cached_data ws parsed s h k :
  QueryClient.data <$> queryClient (onmessage ws parsed s) !! k
  = QueryClient.data <$> queryClient s !! k
  ∧ QueryClient.data <$> Hook.queryClient (Hook.onmessage ws parsed h) !! k
    = QueryClient.data <$> Hook.queryClient h !! k
  ∧ (¬ ["compliance-score"] `prefix_of` k → ¬ ["alerts"] `prefix_of` k →
     queryClient (onmessage ws parsed s) !! k = queryClient s !! k
     ∧ Hook.queryClient (Hook.onmessage ws parsed h) !! k
       = Hook.queryClient h !! k).
Proof.
  assert (Hp : ∀ (B : Type) (f : gmap QueryKey Query → B),
             (∀ key c, key = ["compliance-score"] ∨ key = ["alerts"] →
                       f (QueryClient.invalidateQueries key c) = f c) →
             f (queryClient (onmessage ws parsed s)) = f (queryClient s)).
  { intros B f Hf. unfold onmessage. destruct (isMountedRef s); simpl; [|done].
    destruct parsed as [data|]; [|done].
    destruct (get_type data) as [ty|]; [|done].
    destruct (strict_eq ty "ping").
    { destruct (socket_send ws "pong" s) eqn:Hs; [|done].
      by apply socket_send_control in Hs as [_ ->]. }
    destruct (strict_eq ty "connected"); [done|].
    destruct (strict_eq ty "score_updated"), (strict_eq ty "alert_created");
      simpl; rewrite ?Hf; auto. }
  assert (Hh : ∀ (B : Type) (f : gmap QueryKey Query → B),
             (∀ key c, key = ["compliance-score"] ∨ key = ["alerts"] →
                       f (QueryClient.invalidateQueries key c) = f c) →
             f (Hook.queryClient (Hook.onmessage ws parsed h))
             = f (Hook.queryClient h)).
  { intros B f Hf. unfold Hook.onmessage.
    destruct parsed as [data|]; [|done].
    destruct (get_type data) as [ty|]; [|done].
    destruct (strict_eq ty "score_updated"), (strict_eq ty "alert_created");
      simpl; rewrite ?Hf; auto. }
  split; [|split].
  - apply (Hp _ (λ c, QueryClient.data <$> c !! k)).
    intros key c _. apply invalidateQueries_data.
  - apply (Hh _ (λ c, QueryClient.data <$> c !! k)).
    intros key c _. apply invalidateQueries_data.
  - intros Hscore Halerts. split.
    + apply (Hp _ (λ c, c !! k)). intros key c [-> | ->];
        by apply Handlers.invalidateQueries_others.
    + apply (Hh _ (λ c, c !! k)). intros key c [-> | ->];
        by apply Handlers.invalidateQueries_others.
Qed.

(** X12. The public [send] throws only what [JSON.stringify] throws,
    and only while the tracked socket is open: the guard on
    [readyState] keeps [ws.send] from being called on a socket that is
    still connecting, where it would throw. *)
Theorem send_throws_only_from_stringify {Data : Type}
    (JSON_stringify : Data → Outcome string) (data : Data) (s : State) :
  send JSON_stringify data s = Raised
  ↔ tracked_readyState s = Some OPEN ∧ JSON_stringify data = Raised.
Proof.
  unfold send. case_bool_decide as Ho; [|split; [done|by intros [? _]]].
  destruct (JSON_stringify data) as [text|]; [|done].
  split; [|by intros [_ ?]]. intros Hraised. exfalso.
  unfold tracked_readyState in Ho.
  destruct (wsRef s) as [ws|]; simpl in *; [|done].
  unfold socket_send, WebSocket.send in Hraised.
  destruct (sockets s !! ws) as [k|]; simpl in *; [|done].
  injection Ho as Ho. by rewrite Ho in Hraised.
Qed.
End Executions.

(** * Properties of the orchestrator *)

Module OrchestratorProps.
Import Orchestrator.

Lemma in_flight_exists subjectId (runs : gmap RunId WorkflowRun) :
  map_Exists (λ _ r, in_flight subjectId r) runs
  ↔ ∃ rid r, runs !! rid = Some r ∧ subject r = subjectId
             ∧ terminal (status r) = false.
Proof. unfold map_Exists, in_flight. naive_solver. Qed.

Lemma submit_refused (subjectId payload : string)
    (runs : gmap RunId WorkflowRun) rid r :
  runs !! rid = Some r → subject r = subjectId →
  terminal (status r) = false →
  submit subjectId payload runs = (inl AlreadyRunning, runs).
Proof.
  intros Hr Hs Ht. unfold submit. rewrite decide_True; [done|].
  apply in_flight_exists. eauto.
Qed.

Lemma submit_accepted (subjectId payload : string)
    (runs : gmap RunId WorkflowRun) :
  (∀ rid r, runs !! rid = Some r → subject r = subjectId →
            terminal (status r) = true) →
  ∃ rid, submit subjectId payload runs
         = (inr rid, <[rid := new_run subjectId]> runs)
         ∧ runs !! rid = None.
Proof.
  intros Hall. unfold submit. rewrite decide_False.
  - exists (fresh (dom runs)). split; [done|].
    apply not_elem_of_dom, is_fresh.
  - rewrite in_flight_exists. intros (rid & r & Hr & Hs & Ht).
    specialize (Hall rid r Hr Hs). congruence.
Qed.

(** C3. With a non-terminal run for the subject in the store, [submit]
    answers AlreadyRunning and the store is unchanged; when every run of
    the subject is terminal (or there is none), [submit] answers with a
    run id the store did not hold and adds exactly the new pending run
    under it. *)
Theorem submit_one_in_flight (subjectId payload : string)
    (runs : gmap RunId WorkflowRun) :
  ((∃ rid r, runs !! rid = Some r ∧ subject r = subjectId
             ∧ terminal (status r) = false) →
   submit subjectId payload runs = (inl AlreadyRunning, runs))
  ∧ ((∀ rid r, runs !! rid = Some r → subject r = subjectId →
               terminal (status r) = true) →
     ∃ rid, submit subjectId payload runs
            = (inr rid, <[rid := new_run subjectId]> runs)
            ∧ runs !! rid = None
            ∧ terminal (status (new_run subjectId)) = false).
Proof.
  split.
  - intros (rid & r & Hr & Hs & Ht). by eapply submit_refused.
  - intros Hall.
    destruct (submit_accepted subjectId payload runs Hall) as (rid & ? & ?).
    by exists rid.
Qed.

Lemma submit_one_in_flight_witness :
  submit "doc-a" "payload" {[ 0 := mkRun "doc-a" CompareStep running None false ]}
  = (inl AlreadyRunning, {[ 0 := mkRun "doc-a" CompareStep running None false ]})
  ∧ ∃ rid, submit "doc-a" "payload"
             {[ 0 := mkRun "doc-a" DecisionStep succeeded (Some 92%Q) false ]}
           = (inr rid,
              <[rid := new_run "doc-a"]>
                {[ 0 := mkRun "doc-a" DecisionStep succeeded (Some 92%Q) false ]})
           ∧ rid ≠ 0.
Proof.
  split.
  - apply (proj1 (submit_one_in_flight "doc-a" "payload" _)).
    exists 0, (mkRun "doc-a" CompareStep running None false).
    by rewrite lookup_singleton_eq.
  - destruct (proj2 (submit_one_in_flight "doc-a" "payload"
                {[ 0 := mkRun "doc-a" DecisionStep succeeded (Some 92%Q) false ]}))
      as (rid & Hsub & Hnone & _).
    + intros rid r [_ <-]%lookup_singleton_Some _. reflexivity.
    + exists rid. split; [exact Hsub|]. intros ->.
      by rewrite lookup_singleton_eq in Hnone.
Defined.

(** A second submission is refused while the first run is in flight and
    accepted, under another id, once that run has been finished. *)
Lemma resubmit_after_terminal (subjectId p1 p2 p3 : string) (ok : bool)
    (runs runs1 : gmap RunId WorkflowRun) (rid : RunId) :
  submit subjectId p1 runs = (inr rid, runs1) →
  submit subjectId p2 runs1 = (inl AlreadyRunning, runs1)
  ∧ ∃ rid', (submit subjectId p3 (finish rid ok runs1)).1 = inr rid'
            ∧ rid' ≠ rid.
Proof.
  unfold submit at 1. case_decide as Hno; [done|]. intros [= <- <-].
  set (rid := fresh (dom runs)).
  assert (Hfresh : runs !! rid = None) by apply not_elem_of_dom, is_fresh.
  split.
  - apply (submit_refused _ _ _ rid (new_run subjectId)); [|done..].
    by rewrite lookup_insert_eq.
  - destruct (submit_accepted subjectId p3
                (finish rid ok (<[rid:=new_run subjectId]> runs)))
      as (rid' & Hsub & Hnone).
    + intros j r. unfold finish. rewrite lookup_alter.
      case_decide as Hj.
      * subst j. rewrite lookup_insert_eq. simpl. intros [= <-] _.
        by destruct ok.
      * rewrite lookup_insert_ne by done. intros Hr Hs.
        destruct (terminal (status r)) eqn:Ht; [done|].
        exfalso. apply Hno, in_flight_exists. eauto.
    + exists rid'. rewrite Hsub. split; [done|]. intros ->.
      unfold finish in Hnone. rewrite lookup_alter_eq, lookup_insert_eq in Hnone.
      done.
Qed.

(** Submission keeps at most one run in flight per subject. *)
Lemma submit_keeps_one_in_flight (subjectId payload : string)
    (runs : gmap RunId WorkflowRun) :
  (∀ sid i j ri rj, runs !! i = Some ri → runs !! j = Some rj →
     in_flight sid ri → in_flight sid rj → i = j) →
  ∀ sid i j ri rj,
    (submit subjectId payload runs).2 !! i = Some ri →
    (submit subjectId payload runs).2 !! j = Some rj →
    in_flight sid ri → in_flight sid rj → i = j.
Proof.
  intros Hone sid i j ri rj. unfold submit.
  case_decide as Hex; simpl; [by apply Hone|].
  assert (Hfresh : runs !! fresh (dom runs) = None)
    by apply not_elem_of_dom, is_fresh.
  rewrite !lookup_insert_Some.
  intros [[<- <-]|[Hi Hri]] [[<- <-]|[Hj Hrj]] [Hs1 Ht1] [Hs2 Ht2]; try done.
  - exfalso. apply Hex. exists j, rj. split; [done|]. split; [|done].
    by rewrite Hs2, <-Hs1.
  - exfalso. apply Hex. exists i, ri. split; [done|]. split; [|done].
    by rewrite Hs1, <-Hs2.
  - by apply (Hone sid i j ri rj).
Qed.



End OrchestratorProps.

(** * Executions of the hook *)

Module HookExecutions.
Import Hook.

Lemma hook_run_app h tr1 tr2 :
  run h (tr1 ++ tr2) = h' ← run h tr1; run h' tr2.
Proof.
  revert h. induction tr1 as [|e tr1 IH]; intros h; simpl; [done|].
  destruct (step h e); simpl; [apply IH|done].
Qed.

Lemma lookup_last_attempt {A} (c x : A) n :
  (replicate n c ++ [x]) !! n = Some x.
Proof.
  rewrite lookup_app_r by (by rewrite length_replicate).
  by rewrite length_replicate, Nat.sub_diag.
Qed.

Lemma alter_last_attempt {A} (f : A → A) (c x : A) n :
  alter f n (replicate n c ++ [x]) = replicate n c ++ [f x].
Proof.
  rewrite <-(Nat.add_0_r n) at 1.
  rewrite <-(length_replicate n c) at 1. by rewrite alter_app_r.
Qed.

Lemma hook_attempt_fails cache n :
  step (Scenarios.hook_attempting cache n) (EvClose n)
  = Some (Scenarios.hook_waiting cache n).
Proof.
  unfold Scenarios.hook_waiting. rewrite replicate_S_end.
  unfold step, readyState_of, set_readyState, Scenarios.hook_attempting.
  cbn [sockets]. rewrite lookup_last_attempt, alter_last_attempt.
  reflexivity.
Qed.

Lemma hook_retry_fires cache n :
  step (Scenarios.hook_waiting cache n) (EvTimeout (S n))
  = Some (Scenarios.hook_attempting cache (S n)).
Proof.
  unfold step, Scenarios.hook_waiting. cbn [timers fmap list_fmap fst].
  rewrite decide_True by (by apply list_elem_of_singleton).
  unfold clearTimeout. rewrite filter_cons_False by (simpl; by intros ?).
  rewrite filter_nil.
  unfold Scenarios.hook_attempting. cbn. by rewrite length_replicate.
Qed.

Lemma hook_run_one h e h' : step h e = Some h' → run h [e] = Some h'.
Proof. intros H1. simpl. by rewrite H1. Qed.

Lemma hook_run_two h e1 h1 e2 h2 :
  step h e1 = Some h1 → step h1 e2 = Some h2 → run h [e1; e2] = Some h2.
Proof. intros H1 H2. simpl. rewrite H1. simpl. by rewrite H2. Qed.

(** X13. The hook never gives up: after any number [n] of failures in a
    row it has constructed [n + 1] sockets and its next attempt is
    under way; each failure arms one timeout of the same 3000 ms, and
    nothing counts the failures. *)
Theorem hook_retries_forever cache n :
  run (init cache false) (Scenarios.hook_failures n)
  = Some (Scenarios.hook_attempting cache n)
  ∧ run (init cache false) (Scenarios.hook_failures n ++ [EvClose n])
    = Some (Scenarios.hook_waiting cache n).
Proof.
  assert (Hn : run (init cache false) (Scenarios.hook_failures n)
               = Some (Scenarios.hook_attempting cache n)).
  { induction n as [|n IH]; [reflexivity|].
    unfold Scenarios.hook_failures in *.
    rewrite seq_S, bind_app, app_comm_cons, hook_run_app, IH.
    apply (hook_run_two _ _ (Scenarios.hook_waiting cache n));
      [apply hook_attempt_fails|apply hook_retry_fires]. }
  split; [done|].
  rewrite hook_run_app, Hn.
  apply hook_run_one, hook_attempt_fails.
Qed.

Lemma hook_clear_reconnect_fields h :
  shouldReconnectRef (clear_reconnect h) = shouldReconnectRef h
  ∧ sockets (clear_reconnect h) = sockets h
  ∧ wsRef (clear_reconnect h) = wsRef h
  ∧ reconnectTimeoutRef (clear_reconnect h) = None
  ∧ length (timers (clear_reconnect h)) ≤ length (timers h).
Proof.
  unfold clear_reconnect. destruct (reconnectTimeoutRef h) eqn:Ht; simpl;
    repeat split; try done. apply length_filter.
Qed.

Lemma hook_stopped_step h e h' :
  shouldReconnectRef h = false → e ≠ EvMount → step h e = Some h' →
  shouldReconnectRef h' = false
  ∧ length (sockets h') = length (sockets h)
  ∧ length (timers h') ≤ length (timers h).
Proof.
  intros Hstop Hne Hstep. destruct e; simpl in Hstep; try done.
  - destruct (effectActive h); [|done]. injection Hstep as <-.
    unfold effect_cleanup.
    destruct (hook_clear_reconnect_fields
                (set_shouldReconnectRef false (set_effect false h)))
      as (Hs & Hk & Hw & _ & Hl).
    destruct (wsRef (clear_reconnect _)); simpl; rewrite ?length_alter, Hs, Hk;
      done.
  - case_decide; [|done]. injection Hstep as <-. unfold onopen.
    destruct (hook_clear_reconnect_fields
                (set_isConnected true (set_readyState ws OPEN h)))
      as (Hs & Hk & _ & _ & Hl).
    rewrite Hs, Hk. simpl in *. by rewrite length_alter.
  - case_decide; [|done]. injection Hstep as <-. unfold onmessage.
    destruct parsed as [data|]; [|done].
    destruct (get_type data) as [ty|]; [|done].
    by destruct (strict_eq ty "score_updated"), (strict_eq ty "alert_created").
  - destruct (readyState_of ws h) as [[]|]; try done;
      injection Hstep as <-; unfold onclose; simpl; rewrite Hstop; simpl;
      by rewrite length_alter.
  - case_decide; [|done]. injection Hstep as <-.
    unfold reconnect_callback, connect. simpl. rewrite Hstop. simpl.
    split; [done|]. split; [done|]. apply length_filter.
  - case_decide; [|done]. injection Hstep as <-. simpl.
    by rewrite length_alter.
Qed.

(** X14. The hook's cleanup stops it: it clears [shouldReconnectRef],
    tracks no socket and names no timeout afterwards; and from then on,
    whatever happens short of a new setup of the effect, the hook
    constructs no socket and arms no timeout. *)
Theorem hook_cleanup_is_final :
  (∀ h, shouldReconnectRef (effect_cleanup h) = false
        ∧ wsRef (effect_cleanup h) = None
        ∧ reconnectTimeoutRef (effect_cleanup h) = None)
  ∧ (∀ h trace h',
       shouldReconnectRef h = false → EvMount ∉ trace →
       run h trace = Some h' →
       shouldReconnectRef h' = false
       ∧ length (sockets h') = length (sockets h)
       ∧ length (timers h') ≤ length (timers h)).
Proof.
  split.
  - intros h. unfold effect_cleanup.
    destruct (hook_clear_reconnect_fields (set_shouldReconnectRef false h))
      as (Hs & _ & _ & Ht & _).
    destruct (wsRef (clear_reconnect _)) eqn:Hw; simpl; rewrite ?Hs, ?Ht; done.
  - intros h trace. revert h.
    induction trace as [|e trace IH]; intros h h' Hstop Hno Hrun; simpl in *.
    { by injection Hrun as <-. }
    destruct (step h e) as [h1|] eqn:Hstep; simpl in *; [|done].
    apply not_elem_of_cons in Hno as [Hne Hno].
    destruct (hook_stopped_step h e h1 Hstop (not_eq_sym Hne) Hstep)
      as (Hstop1 & <- & Hle).
    destruct (IH h1 h' Hstop1 Hno Hrun) as (? & ? & ?).
    split; [done|]. split; [done|]. lia.
Qed.

End HookExecutions.

(** * Properties of the pages and components *)

Module ChatProps.
Import JSString ChatInput ChatPage.

(** ** Trimming *)

Lemma trimStart_spec s :
  ∃ ws, s = ws ++ trimStart s ∧ Forall (λ c, isWhiteSpace c = true) ws.
Proof.
  induction s as [|c s (ws & Hs & Hws)]; simpl; [by exists []|].
  destruct (isWhiteSpace c) eqn:Hc.
  - exists (c :: ws). split; [simpl; by f_equal|by constructor].
  - by exists [].
Qed.

Lemma trimStart_head s c rest :
  trimStart s = c :: rest → isWhiteSpace c = false.
Proof.
  induction s as [|a s IH]; simpl; [done|].
  destruct (isWhiteSpace a) eqn:Ha; [done|]. by intros [= <- _].
Qed.

Lemma trimStart_id s c rest :
  s = c :: rest → isWhiteSpace c = false → trimStart s = s.
Proof. intros -> Hc. simpl. by rewrite Hc. Qed.

Lemma trimEnd_spec s :
  ∃ ws, s = trimEnd s ++ ws ∧ Forall (λ c, isWhiteSpace c = true) ws.
Proof.
  destruct (trimStart_spec (reverse s)) as (ws & Hs & Hws).
  exists (reverse ws). split; [|by apply Forall_reverse].
  unfold trimEnd. rewrite <-reverse_app, <-Hs. by rewrite reverse_involutive.
Qed.

Lemma trimEnd_last s c : last (trimEnd s) = Some c → isWhiteSpace c = false.
Proof.
  unfold trimEnd. rewrite last_reverse.
  destruct (trimStart (reverse s)) as [|a rest] eqn:Ht; simpl; [done|].
  intros [= <-]. by eapply trimStart_head.
Qed.

Lemma trimEnd_id s c : last s = Some c → isWhiteSpace c = false → trimEnd s = s.
Proof.
  intros Hl Hc. unfold trimEnd.
  destruct (reverse s) as [|a rest] eqn:Hr.
  { apply (f_equal reverse) in Hr. rewrite reverse_involutive in Hr.
    by subst s. }
  assert (a = c) as ->.
  { rewrite <-(reverse_involutive s), Hr, last_reverse in Hl. simpl in Hl.
    congruence. }
  rewrite (trimStart_id _ c rest) by done.
  by rewrite <-Hr, reverse_involutive.
Qed.

(** [trim] keeps the first character of a string that starts with a
    character other than white space. *)
Lemma trimEnd_head s c rest :
  s = c :: rest → isWhiteSpace c = false → head (trimEnd s) = Some c.
Proof.
  intros -> Hc. destruct (trimEnd_spec (c :: rest)) as (ws & Hs & Hws).
  destruct (trimEnd (c :: rest)) as [|a t]; simpl in *.
  - subst ws. apply Forall_cons in Hws as [Hc' _]. congruence.
  - by injection Hs as <- _.
Qed.

Lemma trim_spec s :
  (∃ l r, s = l ++ trim s ++ r
          ∧ Forall (λ c, isWhiteSpace c = true) l
          ∧ Forall (λ c, isWhiteSpace c = true) r)
  ∧ (trim s ≠ [] →
     ∃ a b, head (trim s) = Some a ∧ last (trim s) = Some b
            ∧ isWhiteSpace a = false ∧ isWhiteSpace b = false)
  ∧ trim (trim s) = trim s.
Proof.
  destruct (trimStart_spec s) as (l & Hl & Hwl).
  destruct (trimEnd_spec (trimStart s)) as (r & Hr & Hwr).
  fold (trim s) in Hr.
  assert (Hends : trim s ≠ [] →
            ∃ a b, head (trim s) = Some a ∧ last (trim s) = Some b
                   ∧ isWhiteSpace a = false ∧ isWhiteSpace b = false).
  { intros Hne.
    destruct (trimStart s) as [|a t] eqn:Ht.
    { by destruct (trim s). }
    pose proof (trimStart_head s a t Ht) as Ha.
    assert (Hh : head (trim s) = Some a).
    { unfold trim. rewrite Ht. by eapply trimEnd_head. }
    destruct (last (trim s)) as [b|] eqn:Hb.
    - exists a, b. repeat split; try done.
      unfold trim in Hb. by eapply trimEnd_last.
    - apply last_None in Hb. done. }
  split; [|split; [done|]].
  - exists l, r. by rewrite <-Hr.
  - destruct (decide (trim s = [])) as [->|Hne]; [done|].
    destruct (Hends Hne) as (a & b & Ha & Hb & Hwa & Hwb).
    unfold trim at 1.
    destruct (trim s) as [|a' t] eqn:Ht; [done|]. injection Ha as ->.
    rewrite (trimStart_id _ a t) by done.
    by apply (trimEnd_id _ b).
Qed.


(** ** ChatInput *)

Lemma truthy_nonempty s : truthy s = true ↔ s ≠ [].
Proof.
  unfold truthy. rewrite negb_true_iff, bool_decide_eq_false. done.
Qed.

(** X15. Whatever ChatInput hands to [onSend] is the trimmed input: it
    is not empty, starts and ends with a character other than white
    space (so trimming it again changes nothing), and the input is that
    text with white space around it; the component is not disabled, and
    the input field is empty afterwards. *)
Theorem sent_message_is_trimmed disabled input query input' :
  handleSend disabled input = (Some query, input') →
  disabled ≠ Some true ∧ input' = []
  ∧ query = trim input ∧ query ≠ [] ∧ trim query = query
  ∧ (∃ a b, head query = Some a ∧ last query = Some b
            ∧ isWhiteSpace a = false ∧ isWhiteSpace b = false)
  ∧ ∃ l r, input = l ++ query ++ r
           ∧ Forall (λ c, isWhiteSpace c = true) l
           ∧ Forall (λ c, isWhiteSpace c = true) r.
Proof.
  unfold handleSend.
  destruct (truthy (trim input)) eqn:Ht; simpl; [|done].
  destruct disabled as [[]|]; simpl; try done.
  all: intros [= <- <-]; apply truthy_nonempty in Ht.
  all: destruct (trim_spec input) as (Hparts & Hends & Hidem).
  all: repeat split; try done; by apply Hends.
Qed.

Lemma sent_message_is_trimmed_witness :
  handleSend (Some false) (lit "  KYC rules? ") = (Some (lit "KYC rules?"), [])
  ∧ trim (lit "KYC rules?") = lit "KYC rules?".
Proof.
  assert (Hsend : handleSend (Some false) (lit "  KYC rules? ")
                  = (Some (lit "KYC rules?"), [])) by (vm_compute; reflexivity).
  split; [exact Hsend|].
  exact (proj1 (proj2 (proj2 (proj2 (proj2
           (sent_message_is_trimmed _ _ _ _ Hsend)))))).
Defined.


(** ** ChatPage *)

Lemma chat_run_invariant (P : State → Prop) :
  P init → (∀ s e s', P s → step s e = Some s' → P s') →
  ∀ s, reachable s → P s.
Proof.
  intros Hinit Hstep s [trace Hrun]. revert Hrun.
  generalize init Hinit. clear Hinit.
  induction trace as [|e trace IH]; intros s0 H0 Hrun; simpl in *.
  - by injection Hrun as <-.
  - destruct (step s0 e) as [s1|] eqn:He; simpl in *; [|done].
    eapply IH; [|done]. by eapply Hstep.
Qed.

(** What [after_send] does with the outcome of [handleSend]. *)
Lemma after_send_cases s :
  let r := handleSend (Some (isPending s)) (input s) in
  (r.1 = None ∧ after_send r s = s)
  ∨ (isPending s = false ∧ trim (input s) ≠ []
     ∧ after_send r s
       = mkState (messages s ++ [mkMessage user (trim (input s)) None None])
           true []).
Proof.
  unfold handleSend, after_send.
  destruct (truthy (trim (input s))) eqn:Ht; simpl.
  - destruct (isPending s) eqn:Hp; simpl.
    + left. split; [done|]. destruct s; simpl in *. by subst.
    + right. apply truthy_nonempty in Ht. done.
  - left. split; [done|]. by destruct s.
Qed.

(** While a request is pending, the last message of the conversation
    is the question that was sent. *)
Lemma pending_after_question s :
  reachable s →
  (∃ rest, messages s = greeting :: rest)
  ∧ (isPending s = true →
     ∃ before query,
       messages s = before ++ [mkMessage user query None None]
       ∧ query ≠ [] ∧ trim query = query).
Proof.
  revert s. apply chat_run_invariant.
  { split; [by exists []|done]. }
  intros s e s' [[rest Hg] Hp] Hstep.
  assert (Hsend : ∀ r, r = handleSend (Some (isPending s)) (input s) →
            (∃ rest', messages (after_send r s) = greeting :: rest')
            ∧ (isPending (after_send r s) = true →
               ∃ before query,
                 messages (after_send r s)
                 = before ++ [mkMessage user query None None]
                 ∧ query ≠ [] ∧ trim query = query)).
  { intros r ->.
    destruct (after_send_cases s) as [[_ ->]|(Hidle & Hne & ->)]; simpl.
    - split; [by exists rest|done].
    - split; [exists (rest ++ [mkMessage user (trim (input s)) None None]);
              by rewrite Hg|].
      intros _. exists (messages s), (trim (input s)).
      split; [done|]. split; [done|].
      by destruct (trim_spec (input s)) as (_ & _ & ?). }
  destruct e; simpl in Hstep.
  - injection Hstep as <-. simpl. split; [by exists rest|done].
  - injection Hstep as <-. by apply Hsend.
  - injection Hstep as <-. unfold handleKeyDown.
    destruct (bool_decide (key = "Enter") && negb shiftKey); simpl.
    + by apply Hsend.
    + unfold after_send. simpl. split; [by exists rest|].
      destruct s; simpl in *. done.
  - destruct (isPending s); [|done]. injection Hstep as <-. simpl.
    split; [|done]. exists (rest ++ [data]). by rewrite Hg.
  - destruct (isPending s); [|done]. injection Hstep as <-. simpl.
    split; [by exists rest|done].
Qed.

(** X17. In every execution of the chat page, a reply of the server is
    appended directly after the question it answers: when the request
    succeeds, the conversation ends with a user message, which is
    trimmed and not blank, and then the reply; the greeting is still
    first, and no request is pending any more. *)
Theorem reply_follows_its_question s data s' :
  reachable s → step s (EvSuccess data) = Some s' →
  ∃ before query,
    messages s = before ++ [mkMessage user query None None]
    ∧ messages s' = before ++ [mkMessage user query None None; data]
    ∧ query ≠ [] ∧ trim query = query
    ∧ head (messages s') = Some greeting
    ∧ isPending s' = false.
Proof.
  intros Hr Hstep. destruct (pending_after_question s Hr) as [[rest Hg] Hp].
  simpl in Hstep. destruct (isPending s); [|done]. injection Hstep as <-.
  destruct (Hp eq_refl) as (before & query & Hm & Hne & Htrim).
  exists before, query. simpl. rewrite Hm at 1 2.
  rewrite <-app_assoc. simpl. repeat split; try done.
  by rewrite Hg.
Qed.

Lemma reply_follows_its_question_witness :
  ∃ s s' before query,
    run init [EvChange (lit " KYC? "); EvKeyDown "Enter" false] = Some s
    ∧ step s (EvSuccess (mkMessage assistant (lit "See the circular.") None
                           (Some 90%Q))) = Some s'
    ∧ messages s' = before ++ [mkMessage user query None None;
                               mkMessage assistant (lit "See the circular.")
                                 None (Some 90%Q)]
    ∧ trim query = query.
Proof.
  pose (s := mkState [greeting; mkMessage user (lit "KYC?") None None] true []).
  pose (reply := mkMessage assistant (lit "See the circular.") None (Some 90%Q)).
  pose (s' := mkState (messages s ++ [reply]) false []).
  assert (Hrun : run init [EvChange (lit " KYC? "); EvKeyDown "Enter" false]
                 = Some s) by (vm_compute; reflexivity).
  assert (Hstep : step s (EvSuccess reply) = Some s') by reflexivity.
  assert (Hreach : reachable s) by (eexists; exact Hrun).
  destruct (reply_follows_its_question s reply s' Hreach Hstep)
    as (before & query & _ & Hm & _ & Htrim & _).
  exists s, s', before, query.
  split; [exact Hrun|]. split; [exact Hstep|]. split; [exact Hm|exact Htrim].
Defined.

(** X18. An event adds at most one message to the conversation and
    removes none. While a request is pending, nothing the user does
    (typing, clicking the button, pressing a key) adds a message or
    starts another request: the conversation changes next when the
    reply arrives. *)
Theorem one_question_at_a_time s e s' :
  step s e = Some s' →
  messages s `prefix_of` messages s'
  ∧ length (messages s') ≤ S (length (messages s))
  ∧ (isPending s = true → (∀ data, e ≠ EvSuccess data) →
     messages s' = messages s)
  ∧ (isPending s = true → (∀ data, e ≠ EvSuccess data) → e ≠ EvError →
     isPending s' = true).
Proof.
  intros Hstep.
  assert (Hsend : ∀ r, r = handleSend (Some (isPending s)) (input s) →
            messages s `prefix_of` messages (after_send r s)
            ∧ length (messages (after_send r s)) ≤ S (length (messages s))
            ∧ (isPending s = true → messages (after_send r s) = messages s)
            ∧ (isPending s = true → isPending (after_send r s) = true)).
  { intros r ->.
    destruct (after_send_cases s) as [[_ ->]|(Hidle & Hne & ->)]; simpl.
    - repeat split; try done. lia.
    - rewrite Hidle. repeat split; try done.
      + by apply prefix_app_r.
      + rewrite length_app. simpl. lia. }
  destruct e; simpl in Hstep.
  - injection Hstep as <-. simpl. repeat split; try done. lia.
  - injection Hstep as <-.
    destruct (Hsend _ eq_refl) as (? & ? & ? & ?). repeat split; auto.
  - injection Hstep as <-. unfold handleKeyDown.
    destruct (bool_decide (key = "Enter") && negb shiftKey); simpl.
    + destruct (Hsend _ eq_refl) as (? & ? & ? & ?). repeat split; auto.
    + unfold after_send. simpl. repeat split; try done. lia.
  - destruct (isPending s); [|done]. injection Hstep as <-. simpl.
    split; [by apply prefix_app_r|]. split; [rewrite length_app; simpl; lia|].
    split; [intros _ Hne; by destruct (Hne data)|].
    intros _ Hne. by destruct (Hne data).
  - destruct (isPending s); [|done]. injection Hstep as <-. simpl.
    repeat split; try done. lia.
Qed.

Lemma one_question_at_a_time_witness :
  ∃ s s', run init [EvChange (lit "first"); EvClick; EvChange (lit "second")]
          = Some s
          ∧ isPending s = true
          ∧ step s EvClick = Some s'
          ∧ messages s' = messages s
          ∧ input s' = lit "second".
Proof.
  pose (s := mkState [greeting; mkMessage user (lit "first") None None] true
               (lit "second")).
  assert (Hrun : run init [EvChange (lit "first"); EvClick;
                           EvChange (lit "second")] = Some s)
    by (vm_compute; reflexivity).
  assert (Hstep : step s EvClick = Some s) by (vm_compute; reflexivity).
  exists s, s. split; [exact Hrun|]. split; [reflexivity|].
  split; [exact Hstep|]. split; [|reflexivity].
  refine (proj1 (proj2 (proj2 (one_question_at_a_time s EvClick s Hstep)))
            eq_refl _).
  intros data. discriminate.
Defined.

End ChatProps.

Module ComponentProps.
Import JSString.

(** ** MessageBubble *)

(** X19. Below a user message the bubble shows neither a confidence
    badge nor sources. Below an assistant message the badge is shown
    for a confidence other than 0; for a confidence of 0 the bubble
    shows the bare number 0 in its place, since [0 && ..] is 0 and
    React renders numbers; nothing is shown for a missing confidence.
    The sources are listed exactly when the message is the assistant's
    and has at least one, one label for each: nothing is shown for an
    empty array, nor for a message without a sources array, such as the
    greeting. *)
Theorem zero_confidence_shows_bare_number (message : ChatPage.ChatMessage) :
  (ChatPage.role message = ChatPage.user →
     MessageBubble.confidence_slot message = []
     ∧ MessageBubble.sources_slot message = [])
  ∧ (ChatPage.role message = ChatPage.assistant →
     ∀ c, ChatPage.confidence message = Some c →
       ((c == 0)%Q →
          MessageBubble.confidence_slot message = [MessageBubble.NumberText c])
       ∧ (¬ (c == 0)%Q →
          MessageBubble.confidence_slot message
          = [MessageBubble.ConfidenceBadge (Some c)]))
  ∧ (ChatPage.role message = ChatPage.assistant →
     ChatPage.confidence message = None →
     MessageBubble.confidence_slot message = [])
  ∧ (ChatPage.role message = ChatPage.assistant →
     ∀ l, ChatPage.sources message = Some l →
       (l = [] → MessageBubble.sources_slot message = [])
       ∧ (l ≠ [] →
          MessageBubble.sources_slot message
          = [MessageBubble.SourceList (MessageBubble.source_label <$> l)]))
  ∧ (ChatPage.role message = ChatPage.assistant →
     ChatPage.sources message = None →
     MessageBubble.sources_slot message = [])
  ∧ (MessageBubble.sources_slot message ≠ []
     ↔ ChatPage.role message = ChatPage.assistant
       ∧ ∃ l, ChatPage.sources message = Some l ∧ l ≠ [])
  ∧ MessageBubble.confidence_slot ChatPage.greeting
    = [MessageBubble.ConfidenceBadge (Some 100%Q)]
  ∧ ChatPage.sources ChatPage.greeting = None
  ∧ MessageBubble.sources_slot ChatPage.greeting = [].
Proof.
  unfold MessageBubble.confidence_slot, MessageBubble.sources_slot,
    MessageBubble.isUser.
  split; [|split; [|split; [|split; [|split; [|split]]]]].
  - by intros ->.
  - intros -> c ->. simpl. unfold MessageBubble.js_and. simpl. split.
    + intros Hz. apply Qeq_bool_iff in Hz. by rewrite Hz.
    + intros Hz. destruct (Qeq_bool c 0) eqn:Hq; [|done].
      by apply Qeq_bool_iff in Hq.
  - by intros -> ->.
  - intros -> l ->. split; [by intros ->|]. by destruct l.
  - by intros -> ->.
  - destruct (ChatPage.role message), (ChatPage.sources message) as [[|x l]|];
      simpl; split; try done.
    + by intros [[=] _].
    + by intros [[=] _].
    + by intros [[=] _].
    + by intros [_ (l & [= <-] & ?)].
    + intros _. split; [done|]. by eexists.
    + by intros [_ (l & [=] & _)].
  - repeat split.
Qed.

(** ** Labels *)

Lemma replace_cons p r c s :
  replace p r (c :: s)
  = if decide (p `prefix_of` c :: s) then r ++ drop (length p) (c :: s)
    else c :: replace p r s.
Proof. done. Qed.

Lemma replace_char_absent p r s : p ∉ s → replace [p] r s = s.
Proof.
  induction s as [|c s IH]; intros Hp; [done|].
  apply not_elem_of_cons in Hp as [Hne Hp]. rewrite replace_cons.
  rewrite decide_False by (by intros ?%prefix_cons_inv_1).
  by rewrite IH.
Qed.

Lemma replace_char_first p r a b :
  p ∉ a → replace [p] r (a ++ p :: b) = a ++ r ++ b.
Proof.
  induction a as [|c a IH]; intros Hp.
  - simpl app at 1. rewrite replace_cons.
    by rewrite decide_True by (apply prefix_cons, prefix_nil).
  - apply not_elem_of_cons in Hp as [Hne Hp].
    rewrite <-app_comm_cons, replace_cons.
    rewrite decide_False by (by intros ?%prefix_cons_inv_1).
    by rewrite IH.
Qed.

Lemma occurrences_app c a b :
  UIView.occurrences c (a ++ b) = UIView.occurrences c a + UIView.occurrences c b.
Proof. unfold UIView.occurrences. by rewrite filter_app, length_app. Qed.

Lemma occurrences_absent c s : c ∉ s → UIView.occurrences c s = 0.
Proof.
  unfold UIView.occurrences. induction s as [|x s IH]; intros Hc; [done|].
  apply not_elem_of_cons in Hc as [Hne Hc].
  rewrite filter_cons_False by done. by apply IH.
Qed.

(** X20. The labels of the score categories and of the alert types have
    only their first underscore replaced by a space: what follows it,
    further underscores included, is shown as it came. The length stays
    the same and the number of underscores goes down by one (or stays
    0). *)
Theorem label_replaces_first_underscore_only (name : list N) :
  (lit "_" = [95%N] ∧ lit " " = [32%N])
  ∧ (95%N ∉ name → Dashboard.label name = name)
  ∧ (∀ a b, 95%N ∉ a → name = a ++ lit "_" ++ b →
       Dashboard.label name = a ++ lit " " ++ b)
  ∧ length (Dashboard.label name) = length name
  ∧ UIView.occurrences 95 (Dashboard.label name)
    = pred (UIView.occurrences 95 name)
  ∧ Dashboard.label (lit "kyc_due_diligence") = lit "kyc due_diligence".
Proof.
  split; [done|].
  assert (Hfirst : ∀ a b, 95%N ∉ a → name = a ++ lit "_" ++ b →
                     Dashboard.label name = a ++ lit " " ++ b).
  { intros a b Ha ->. unfold Dashboard.label.
    by apply (replace_char_first 95%N [32%N]). }
  split; [apply replace_char_absent|]. split; [done|].
  destruct (decide (95%N ∈ name)) as [Hin|Hout].
  - apply list_elem_of_split_l in Hin as (a & b & -> & Ha).
    rewrite (Hfirst a b Ha eq_refl).
    split; [|split; [|by vm_compute]].
    + rewrite !length_app. done.
    + rewrite !occurrences_app, !occurrences_absent by done.
      change (lit " " ++ b) with (32%N :: b). change (95%N :: b) with ([95%N] ++ b).
      change (32%N :: b) with ([32%N] ++ b).
      rewrite !occurrences_app. done.
  - change (Dashboard.label name) with (replace [95%N] [32%N] name).
    rewrite replace_char_absent by done.
    split; [done|]. split; [|by vm_compute].
    by rewrite occurrences_absent.
Qed.

(** ** Score card *)









(** ** Alert lists *)

Lemma items_of_alerts l : UIView.items (Alerts.AlertItem <$> l) = l.
Proof.
  unfold UIView.items. induction l as [|a l IH]; simpl; [done|]. by f_equal.
Qed.

Lemma notes_of_alerts l : UIView.notes (Alerts.AlertItem <$> l) = [].
Proof. unfold UIView.notes. by induction l as [|a l IH]. Qed.

Lemma items_app a b : UIView.items (a ++ b) = UIView.items a ++ UIView.items b.
Proof. apply omap_app. Qed.

Lemma notes_app a b : UIView.notes (a ++ b) = UIView.notes a ++ UIView.notes b.
Proof. apply omap_app. Qed.

(** X22. RecentAlerts shows the first five alerts it is given, in
    order, and no more; its note "No recent alerts" is shown exactly
    when it shows no alert. AlertFeed, once loaded, shows every alert,
    and its note exactly when there is none; for up to five alerts the
    two show the same. *)
Theorem recent_alerts_at_most_five (alerts : option (list Alerts.Alert)) :
  UIView.items (Alerts.RecentAlerts alerts) = take 5 (default [] alerts)
  ∧ length (UIView.items (Alerts.RecentAlerts alerts)) ≤ 5
  ∧ (UIView.notes (Alerts.RecentAlerts alerts) = ["No recent alerts"]
     ↔ UIView.items (Alerts.RecentAlerts alerts) = [])
  ∧ (UIView.notes (Alerts.RecentAlerts alerts) = []
     ↔ UIView.items (Alerts.RecentAlerts alerts) ≠ [])
  ∧ UIView.items (Alerts.AlertFeed alerts false) = default [] alerts
  ∧ (UIView.notes (Alerts.AlertFeed alerts false) = ["No alerts found"]
     ↔ UIView.items (Alerts.AlertFeed alerts false) = [])
  ∧ (length (default [] alerts) ≤ 5 →
     UIView.items (Alerts.RecentAlerts alerts)
     = UIView.items (Alerts.AlertFeed alerts false)).
Proof.
  assert (Hrecent : UIView.items (Alerts.RecentAlerts alerts)
                    = take 5 (default [] alerts)
                    ∧ UIView.notes (Alerts.RecentAlerts alerts)
                      = if Alerts.none alerts then ["No recent alerts"] else []).
  { unfold Alerts.RecentAlerts. rewrite items_app, notes_app.
    destruct alerts as [l|]; cbn [Alerts.none default]; [|done].
    rewrite items_of_alerts, notes_of_alerts.
    destruct (bool_decide (length l = 0)); by rewrite ?app_nil_r. }
  assert (Hfeed : UIView.items (Alerts.AlertFeed alerts false)
                  = default [] alerts
                  ∧ UIView.notes (Alerts.AlertFeed alerts false)
                    = if Alerts.none alerts then ["No alerts found"] else []).
  { unfold Alerts.AlertFeed.
    destruct alerts as [l|]; simpl; [|done].
    case_bool_decide as Hl; simpl.
    - by destruct l.
    - by rewrite items_of_alerts, notes_of_alerts. }
  destruct Hrecent as [Hi Hn], Hfeed as [Hfi Hfn].
  rewrite Hi, Hn, Hfi, Hfn.
  assert (Hnone : Alerts.none alerts = true ↔ default [] alerts = []).
  { destruct alerts as [[|a l]|]; simpl; split; done. }
  assert (Htake : take 5 (default [] alerts) = [] ↔ default [] alerts = []).
  { by destruct (default [] alerts). }
  split; [done|]. split; [rewrite length_take; lia|].
  split; [|split; [|split; [done|split]]].
  - rewrite Htake, <-Hnone. by destruct (Alerts.none alerts).
  - rewrite Htake, <-Hnone. by destruct (Alerts.none alerts).
  - rewrite <-Hnone. by destruct (Alerts.none alerts).
  - intros Hlen. by apply take_ge.
Qed.

(** X23. The tabs of the alerts page and its [severity] state go round:
    choosing a tab sets the state that shows that tab as chosen, for
    each of the four tabs and for any value other than the empty
    string; and the state is the one the shown tab would set, unless it
    is the empty string or "all". *)
Theorem severity_tab_round_trip :
  (∀ v, v ∈ Alerts.tabs → Alerts.tab (Alerts.onValueChange v) = v)
  ∧ (∀ v, v ≠ "" → Alerts.tab (Alerts.onValueChange v) = v)
  ∧ (∀ severity, severity ≠ Some "" → severity ≠ Some "all" →
       Alerts.onValueChange (Alerts.tab severity) = severity)
  ∧ Alerts.tab None = "all" ∧ Alerts.onValueChange "all" = None.
Proof.
  assert (Hv : ∀ v, v ≠ "" → Alerts.tab (Alerts.onValueChange v) = v).
  { intros v Hne. unfold Alerts.onValueChange, Alerts.tab.
    case_bool_decide as Hall; [done|]. by rewrite bool_decide_eq_false_2. }
  split; [|split; [done|split; [|done]]].
  - intros v Hin. apply Hv. intros ->. unfold Alerts.tabs in Hin.
    repeat (apply elem_of_cons in Hin as [Hin|Hin]; [done|]).
    by apply elem_of_nil in Hin.
  - intros [s|] Hempty Hall; [|done]. unfold Alerts.tab, Alerts.onValueChange.
    rewrite (bool_decide_eq_false_2 (s = "")) by (by intros ->).
    by rewrite (bool_decide_eq_false_2 (s = "all")) by (by intros ->).
Qed.

(** ** Sidebar and store *)

Lemma filter_unique_key {A} (key : A → string) (p : string) (l : list A) :
  NoDup (key <$> l) →
  length (filter (λ item, bool_decide (p = key item) = true) l) ≤ 1.
Proof.
  induction l as [|x l IH]; intros Hnd; [simpl; lia|].
  rewrite fmap_cons in Hnd. apply NoDup_cons in Hnd as [Hx Hnd].
  destruct (decide (p = key x)) as [->|Hne].
  - rewrite filter_cons_True by (by apply bool_decide_eq_true).
    assert (filter (λ item, bool_decide (key x = key item) = true) l = [])
      as ->; [|simpl; lia].
    destruct (filter _ l) as [|y r] eqn:Hf; [done|exfalso].
    assert (Hy : y ∈ filter (λ item, bool_decide (key x = key item) = true) l)
      by (rewrite Hf; by left).
    apply list_elem_of_filter in Hy as [Hk%bool_decide_eq_true Hy].
    apply Hx. rewrite Hk. by apply list_elem_of_fmap_2.
  - rewrite filter_cons_False by (by rewrite bool_decide_eq_false_2).
    by apply IH.
Qed.

(** X24. For every pathname the sidebar shows at most one entry as
    active, and one exactly when the pathname is the href of an entry;
    on the history page of a policy, where the link of a PolicyCard
    leads, no entry is active. *)
Theorem sidebar_one_active_entry (pathname : string) :
  length (Sidebar.active pathname) ≤ 1
  ∧ (Sidebar.active pathname ≠ [] ↔ pathname ∈ Sidebar.navigation.*2)
  ∧ (∀ item, item ∈ Sidebar.active pathname → item.2 = pathname)
  ∧ ∀ id, Sidebar.active (Sidebar.policy_href id) = [].
Proof.
  assert (Hin : ∀ p item, item ∈ Sidebar.active p
                          ↔ p = item.2 ∧ item ∈ Sidebar.navigation).
  { intros p item. unfold Sidebar.active, Sidebar.isActive.
    by rewrite list_elem_of_filter, bool_decide_eq_true. }
  assert (Hne : ∀ p, Sidebar.active p ≠ [] ↔ p ∈ Sidebar.navigation.*2).
  { intros p. rewrite list_elem_of_fmap. split.
    - destruct (Sidebar.active p) as [|item r] eqn:Ha; [done|]. intros _.
      assert (Hi : item ∈ Sidebar.active p) by (rewrite Ha; by left).
      apply Hin in Hi as [-> Hi]. by exists item.
    - intros (item & -> & Hi) Hnil.
      assert (Ha : item ∈ Sidebar.active item.2) by by apply Hin.
      rewrite Hnil in Ha. by apply elem_of_nil in Ha. }
  split; [|split; [done|split]].
  - apply (filter_unique_key snd). apply (bool_decide_unpack _). by vm_compute.
  - intros item [-> _]%Hin. done.
  - intros id.
    destruct (Sidebar.active (Sidebar.policy_href id)) as [|item r] eqn:Ha;
      [done|exfalso].
    assert (Hp : Sidebar.policy_href id ∈ Sidebar.navigation.*2).
    { apply Hne. by rewrite Ha. }
    unfold Sidebar.policy_href, Sidebar.navigation in Hp. simpl in Hp.
    repeat (apply elem_of_cons in Hp as [Hp|Hp]; [discriminate Hp|]).
    by apply elem_of_nil in Hp.
Qed.

Lemma store_fold (s : UIStore.State) (actions : list UIStore.Action) :
  UIStore.sidebarOpen (foldl UIStore.dispatch s actions)
  = (if Nat.even (UIView.toggles actions) then UIStore.sidebarOpen s
     else negb (UIStore.sidebarOpen s))
  ∧ UIStore.currentPage (foldl UIStore.dispatch s actions)
    = default (UIStore.currentPage s) (last (UIView.pages actions)).
Proof.
  revert s. induction actions as [|a actions IH]; intros s; [done|].
  simpl foldl. destruct (IH (UIStore.dispatch s a)) as [-> ->].
  destruct a as [|page].
  - change (UIView.toggles (UIStore.Toggle :: actions))
      with (S (UIView.toggles actions)).
    change (UIView.pages (UIStore.Toggle :: actions))
      with (UIView.pages actions).
    rewrite Nat.even_succ, <-Nat.negb_even. split; [|done]. simpl.
    destruct (Nat.even _); simpl; [done|by rewrite negb_involutive].
  - change (UIView.toggles (UIStore.SetPage page :: actions))
      with (UIView.toggles actions).
    change (UIView.pages (UIStore.SetPage page :: actions))
      with (page :: UIView.pages actions).
    split; [done|]. destruct (UIView.pages actions) as [|p l]; [done|].
    change (last (page :: p :: l)) with (last (p :: l)).
    destruct (last (p :: l)) eqn:Hl; [done|]. by apply last_None in Hl.
Qed.

(** X25. After any sequence of actions on the UI store the sidebar is
    open exactly when it was toggled an even number of times, and the
    current page is the last one set, "dashboard" if none was: the two
    actions do not touch each other's field. *)
Theorem store_after_actions (actions : list UIStore.Action) :
  UIStore.sidebarOpen (UIView.run_store actions)
  = Nat.even (UIView.toggles actions)
  ∧ UIStore.currentPage (UIView.run_store actions)
    = default "dashboard" (last (UIView.pages actions))
  ∧ ∀ s, UIStore.toggleSidebar (UIStore.toggleSidebar s) = s.
Proof.
  unfold UIView.run_store.
  destruct (store_fold UIStore.initial actions) as [-> ->].
  split; [by destruct (Nat.even _)|]. split; [done|].
  intros [[] page]; reflexivity.
Qed.

End ComponentProps.

(** * Properties of the smoke test *)

Module SmokeTestProps.
Import SmokeTest.

Section Curl.
Context (curl : string → nat → string).

(** What the loop of [check] does: it requests the URL [k] times, one
    after the other, and stops at the first expected code or when the
    indices run out. *)
Lemma attempts_spec indices path expected w st w' :
  attempts curl indices path expected w = (st, w') →
  ∃ k, requests w' = requests w ++ replicate k (BASE_URL +:+ path)
       ∧ (∀ j, j < k - 1 →
            curl (BASE_URL +:+ path) (length (requests w) + j) ≠ expected)
       ∧ ((st = 0 ∧ 1 ≤ k ≤ length indices
           ∧ curl (BASE_URL +:+ path) (length (requests w) + (k - 1)) = expected
           ∧ slept w' = slept w + SLEEP * (k - 1)
           ∧ ∃ line, stdout w' = stdout w ++ line
                     ∧ last line = Some ("OK " +:+ path +:+ " -> " +:+ expected))
          ∨ (st = 2 ∧ k = length indices
             ∧ (∀ j, j < k →
                  curl (BASE_URL +:+ path) (length (requests w) + j) ≠ expected)
             ∧ slept w' = slept w + SLEEP * k
             ∧ ∃ line rest, stdout w' = stdout w ++ line
                            ∧ last line = Some ("FAIL " +:+ rest))).
Proof.
  revert w. induction indices as [|i indices IH]; intros w; simpl.
  - intros [= <- <-]. exists 0. simpl. rewrite app_nil_r.
    split; [done|]. split; [intros j; lia|]. right.
    split; [done|]. split; [done|]. split; [intros j; lia|].
    split; [lia|]. eexists [_], _. split; [done|]. done.
  - case_bool_decide as Hcode.
    + intros [= <- <-]. exists 1. simpl.
      split; [done|]. split; [intros j; lia|]. left.
      split; [done|]. split; [lia|]. rewrite Nat.add_0_r.
      split; [done|]. split; [lia|].
      eexists [_]. split; [done|]. simpl. by rewrite Hcode.
    + intros Hrest. apply IH in Hrest as (k & Hreq & Hbefore & Hk).
      simpl in *. rewrite length_app in *. simpl in *.
      exists (S k). split; [by rewrite Hreq, <-app_assoc|].
      assert (Hshift : ∀ j, length (requests w) + 1 + j
                            = length (requests w) + S j) by (intros; lia).
      assert (Hfirst : ∀ j, j < S k - 1 →
                curl (BASE_URL +:+ path) (length (requests w) + j) ≠ expected).
      { intros [|j] Hj; [by rewrite Nat.add_0_r|].
        rewrite <-Hshift. apply Hbefore. lia. }
      split; [done|].
      destruct Hk as [(-> & Hle & Hok & Hslept & line & Hout & Hlast)
                     |(-> & -> & Hnone & Hslept & line & rest & Hout & Hlast)].
      * left. split; [done|]. split; [lia|].
        split; [rewrite <-Hok; f_equal; lia|].
        split; [rewrite Hslept; unfold SLEEP; lia|].
        eexists (_ :: line). split; [by rewrite Hout, <-app_assoc|].
        destruct line; [done|]. done.
      * right. split; [done|]. split; [done|]. split.
        { intros [|j] Hj; [by rewrite Nat.add_0_r|].
          rewrite <-Hshift. apply Hnone. lia. }
        split; [rewrite Hslept; unfold SLEEP; lia|].
        eexists (_ :: line), rest. split; [by rewrite Hout, <-app_assoc|].
        destruct line; [done|]. done.
Qed.

Lemma check_spec path expected w st w' :
  check curl path expected w = (st, w') →
  ∃ k, 1 ≤ k ≤ RETRY
       ∧ requests w' = requests w ++ replicate k (BASE_URL +:+ path)
       ∧ (∀ j, j < k - 1 →
            curl (BASE_URL +:+ path) (length (requests w) + j) ≠ expected)
       ∧ ((st = 0
           ∧ curl (BASE_URL +:+ path) (length (requests w) + (k - 1)) = expected
           ∧ slept w' = slept w + SLEEP * (k - 1)
           ∧ ∃ line, stdout w' = stdout w ++ line
                     ∧ last line = Some ("OK " +:+ path +:+ " -> " +:+ expected))
          ∨ (st = 2 ∧ k = RETRY
             ∧ (∀ j, j < RETRY →
                  curl (BASE_URL +:+ path) (length (requests w) + j) ≠ expected)
             ∧ slept w' = slept w + SLEEP * RETRY
             ∧ ∃ line rest, stdout w' = stdout w ++ line
                            ∧ last line = Some ("FAIL " +:+ rest))).
Proof.
  unfold check. intros Hc.
  apply attempts_spec in Hc as (k & Hreq & Hbefore & Hk).
  rewrite length_seq in Hk. exists k.
  destruct Hk as [(-> & Hle & Hok & Hslept & Hout)
                 |(-> & -> & Hnone & Hslept & Hout)].
  - split; [done|]. split; [done|]. split; [done|]. left. done.
  - split; [unfold RETRY; lia|]. split; [done|]. split; [done|]. right. done.
Qed.

(** X26. [check] requests its URL at least once and at most six times,
    one request after the other, and stops at the first answer with the
    expected code: it returns 0 exactly when one of the first six
    answers has that code, after sleeping 2 s for each answer before
    it; otherwise it returns 2, after six requests and 12 s of sleep,
    the last 2 s of them after the last answer. *)
Theorem check_tries_at_most_six path expected w st w' :
  check curl path expected w = (st, w') →
  ∃ k, 1 ≤ k ≤ RETRY
       ∧ requests w' = requests w ++ replicate k (BASE_URL +:+ path)
       ∧ (st = 0 ∨ st = 2)
       ∧ (st = 0 ↔ ∃ j, j < RETRY
                        ∧ curl (BASE_URL +:+ path) (length (requests w) + j)
                          = expected)
       ∧ (st = 0 →
          curl (BASE_URL +:+ path) (length (requests w) + (k - 1)) = expected
          ∧ (∀ j, j < k - 1 →
               curl (BASE_URL +:+ path) (length (requests w) + j) ≠ expected)
          ∧ slept w' = slept w + SLEEP * (k - 1))
       ∧ (st = 2 → k = RETRY ∧ slept w' = slept w + SLEEP * RETRY).
Proof.
  intros Hc. apply check_spec in Hc as (k & Hk & Hreq & Hbefore & Hst).
  exists k. split; [done|]. split; [done|].
  destruct Hst as [(-> & Hok & Hslept & _)|(-> & -> & Hnone & Hslept & _)].
  - split; [by left|]. split; [|split; [done|done]].
    split; [|done]. intros _. exists (k - 1). split; [lia|done].
  - split; [by right|]. split; [|split; [done|done]].
    split; [done|]. intros (j & Hj & Hcode). by destruct (Hnone j Hj).
Qed.

#[local] Arguments check : simpl never.

Lemma and_then_ok w next : and_then (0, w) next = next w.
Proof. done. Qed.

Lemma and_then_failed w next : and_then (2, w) next = (2, w).
Proof. done. Qed.

(** The script up to its last line, for the statuses of the four
    checks. *)
Lemma main_cases st w' :
  main curl start = (st, w') →
  (st = 0 ∧ ∃ w4, stdout w' = stdout w4 ++ ["SMOKE TEST PASSED"]
                  ∧ requests w' = requests w4 ∧ slept w' = slept w4
                  ∧ length (requests w4) ≤ 4 * RETRY
                  ∧ slept w4 ≤ 4 * RETRY * SLEEP)
  ∨ (st = 2 ∧ length (requests w') ≤ 4 * RETRY
     ∧ slept w' ≤ 4 * RETRY * SLEEP
     ∧ ∃ before line rest, stdout w' = before ++ line
                           ∧ last line = Some ("FAIL " +:+ rest)).
Proof.
  unfold main.
  destruct (check curl "/" "200" start) as [st1 w1] eqn:H1.
  apply check_spec in H1 as (k1 & Hk1 & Hr1 & _ & Hs1).
  assert (Hl1 : length (requests w1) = k1)
    by (by rewrite Hr1, length_app, length_replicate).
  assert (Hstart : slept start = 0) by done.
  unfold RETRY, SLEEP in *.
  destruct Hs1 as [(-> & _ & Hz1 & _)|(-> & -> & _ & Hz1 & l & r & Ho & Hl)].
  2: { rewrite and_then_failed. intros [= <- <-]. right. split; [done|].
       split; [lia|]. split; [lia|]. by exists (stdout start), l, r. }
  rewrite and_then_ok.
  destruct (check curl "/api/health" "200" w1) as [st2 w2] eqn:H2.
  apply check_spec in H2 as (k2 & Hk2 & Hr2 & _ & Hs2).
  assert (Hl2 : length (requests w2) = k1 + k2)
    by (by rewrite Hr2, length_app, length_replicate, Hl1).
  unfold RETRY, SLEEP in *.
  destruct Hs2 as [(-> & _ & Hz2 & _)|(-> & -> & _ & Hz2 & l & r & Ho & Hl)].
  2: { rewrite and_then_failed. intros [= <- <-]. right. split; [done|].
       split; [lia|]. split; [lia|]. by exists (stdout w1), l, r. }
  rewrite and_then_ok.
  destruct (check curl "/openapi.json" "200" w2) as [st3 w3] eqn:H3.
  apply check_spec in H3 as (k3 & Hk3 & Hr3 & _ & Hs3).
  assert (Hl3 : length (requests w3) = k1 + k2 + k3)
    by (by rewrite Hr3, length_app, length_replicate, Hl2).
  unfold RETRY, SLEEP in *.
  destruct Hs3 as [(-> & _ & Hz3 & _)|(-> & -> & _ & Hz3 & l & r & Ho & Hl)].
  2: { rewrite and_then_failed. intros [= <- <-]. right. split; [done|].
       split; [lia|]. split; [lia|]. by exists (stdout w2), l, r. }
  rewrite and_then_ok.
  destruct (check curl "/docs" "200" w3) as [st4 w4] eqn:H4.
  apply check_spec in H4 as (k4 & Hk4 & Hr4 & _ & Hs4).
  assert (Hl4 : length (requests w4) = k1 + k2 + k3 + k4)
    by (by rewrite Hr4, length_app, length_replicate, Hl3).
  unfold RETRY, SLEEP in *.
  destruct Hs4 as [(-> & _ & Hz4 & _)|(-> & -> & _ & Hz4 & l & r & Ho & Hl)].
  2: { rewrite and_then_failed. intros [= <- <-]. right. split; [done|].
       split; [lia|]. split; [lia|]. by exists (stdout w3), l, r. }
  rewrite and_then_ok. intros [= <- <-]. left. split; [done|]. exists w4.
  split; [done|]. split; [done|]. split; [done|]. split; lia.
Qed.

(** X27. The smoke test ends with status 0 or 2, and with 0 exactly
    when its last line is SMOKE TEST PASSED; it makes at most 24
    requests and sleeps at most 48 s. When the first endpoint never
    answers 200 it ends with status 2 after the six requests to that
    endpoint: the endpoints after a failed one are not tried. *)
Theorem smoke_test_stops_at_first_failure st w' :
  main curl start = (st, w') →
  (st = 0 ∨ st = 2)
  ∧ (st = 0 ↔ last (stdout w') = Some "SMOKE TEST PASSED")
  ∧ length (requests w') ≤ 4 * RETRY
  ∧ slept w' ≤ 4 * RETRY * SLEEP
  ∧ ((∀ j, j < RETRY → curl (BASE_URL +:+ "/") j ≠ "200") →
     st = 2 ∧ requests w' = replicate RETRY (BASE_URL +:+ "/")).
Proof.
  intros Hmain.
  assert (Hfirst : (∀ j, j < RETRY → curl (BASE_URL +:+ "/") j ≠ "200") →
                   st = 2 ∧ requests w' = replicate RETRY (BASE_URL +:+ "/")).
  { intros Hdown. unfold main in Hmain.
    destruct (check curl "/" "200" start) as [st1 w1] eqn:H1.
    apply check_spec in H1 as (k1 & Hk1 & Hr1 & _ & Hs1).
    destruct Hs1 as [(-> & Hok & _)|(-> & -> & _)].
    - exfalso. apply (Hdown (k1 - 1)); [lia|done].
    - rewrite and_then_failed in Hmain. by injection Hmain as <- <-. }
  destruct (main_cases st w' Hmain)
    as [(-> & w4 & Hout & Hreq & Hsl & Hn & Ht)
       |(-> & Hn & Ht & before & line & rest & Hout & Hlast)].
  - split; [by left|]. split; [|split; [by rewrite Hreq|split; [lia|done]]].
    split; [|done]. intros _. by rewrite Hout, last_snoc.
  - split; [by right|]. split; [|done].
    split; [done|]. rewrite Hout, last_app, Hlast. intros Heq.
    simpl in Heq. discriminate Heq.
Qed.

End Curl.

Lemma check_tries_at_most_six_witness :
  ∃ w' k, check Servers.starting_up "/" "200" start = (0, w')
          ∧ 1 ≤ k ≤ RETRY
          ∧ requests w' = replicate k (BASE_URL +:+ "/")
          ∧ slept w' = SLEEP * (k - 1)
          ∧ length (requests w') = 3.
Proof.
  pose (w' := (check Servers.starting_up "/" "200" start).2).
  assert (Hc : check Servers.starting_up "/" "200" start = (0, w'))
    by (vm_compute; reflexivity).
  destruct (check_tries_at_most_six Servers.starting_up "/" "200" start 0 w' Hc)
    as (k & Hk & Hreq & _ & _ & Hok & _).
  destruct (Hok eq_refl) as (_ & _ & Hslept).
  exists w', k. split; [exact Hc|]. split; [exact Hk|].
  split; [exact Hreq|]. split; [exact Hslept|]. vm_compute. reflexivity.
Defined.

Lemma smoke_test_stops_at_first_failure_witness :
  ∃ w', main Servers.down start = (2, w')
        ∧ requests w' = replicate RETRY (BASE_URL +:+ "/")
        ∧ length (requests w') ≤ 4 * RETRY.
Proof.
  pose (w' := (main Servers.down start).2).
  assert (Hm : main Servers.down start = (2, w')) by (vm_compute; reflexivity).
  destruct (smoke_test_stops_at_first_failure Servers.down 2 w' Hm)
    as (_ & _ & Hn & _ & Hdown).
  exists w'. split; [exact Hm|]. split; [|exact Hn].
  apply Hdown. intros j _. discriminate.
Defined.

End SmokeTestProps.
